(** * Robustness simulation of [project/emails/robustness.py]

    A shallow embedding of the node-removal simulation: the two removal
    strategies ([fail], [attack_degree]), the metrics
    ([diameter_and_avg_path_length], [giant_component_fraction]), the two
    drivers, the history file writer and the reader of [plot_robustness].

    Conventions of the embedding.
    - Python exceptions are explicit: a computation yields [Ok v], or
      [Raise e], or [Timeout] when a fuel-bounded loop of the model runs dry
      (never a Python outcome; the totality lemmas show it does not occur).
    - [networkx] is an external library.  Its [Graph] is modelled from its
      implementation as the insertion-ordered adjacency dictionary
      [_adj : node -> (neighbour -> attributes)]; the node dictionary
      [_node] has the same keys in the same order and is not duplicated.
    - A Python [float] is a finite value, modelled by an exact rational kept
      in lowest terms, or one of the two infinities, or nan; a division by
      zero raises [ZeroDivisionError] as in Python.  Rounding and overflow
      of finite arithmetic are not modelled, and the two zeros are one
      value.
    - Graph objects live in a store and are passed by reference, so that
      copying ([nx.Graph(src)]) and in-place mutation ([remove_node]) are
      distinguished. *)

From Stdlib Require Import ZArith QArith Lia Ascii.
From stdpp Require Import base list strings gmap pretty.

Set Warnings "-clear-no-such-hyp".

(** ** Python outcomes *)

Inductive Exn : Set :=
  | ValueError | IndexError | ZeroDivisionError | KeyError
  | NetworkXError | NodeNotFound | StopIteration | FileNotFoundError
  | ReferenceError.

Inductive result (A : Type) : Type :=
  | Ok (a : A)
  | Raise (e : Exn)
  | Timeout.
Arguments Ok {A} a.
Arguments Raise {A} e.
Arguments Timeout {A}.

#[global] Instance result_ret : MRet result := λ A a, Ok a.
#[global] Instance result_bind : MBind result := λ A B f m,
  match m with
  | Ok a => f a
  | Raise e => Raise e
  | Timeout => Timeout
  end.

(** ** Python built-ins used by the module *)

Module Py.

(** [float]: a finite value, an exact rational in lowest terms, or an
    infinity with its sign, or nan. *)
Inductive float : Type :=
  | Finite (q : Q)
  | Inf (negative : bool)
  | NaN.

(** The value of [float(z)] for an int [z]: always finite. *)
Definition of_int (z : Z) : Q := inject_Z z.
Definition of_nat (n : nat) : Q := inject_Z (Z.of_nat n).

Definition is_zero (a : float) : bool :=
  match a with Finite q => Qeq_bool q 0 | _ => false end.

(** The sign bit, the two zeros taken as one non-negative value. *)
Definition is_negative (a : float) : bool :=
  match a with
  | Finite q => (Qnum q <? 0)%Z
  | Inf negative => negative
  | NaN => false
  end.

(** [a + b]. *)
Definition fadd (a b : float) : float :=
  match a, b with
  | Finite x, Finite y => Finite (Qred (x + y))
  | NaN, _ | _, NaN => NaN
  | Inf s, Inf s' => if Bool.eqb s s' then Inf s else NaN
  | Inf s, Finite _ | Finite _, Inf s => Inf s
  end.

(** [a * b]. *)
Definition fmul (a b : float) : float :=
  match a, b with
  | Finite x, Finite y => Finite (Qred (x * y))
  | NaN, _ | _, NaN => NaN
  | Inf s, Inf s' => Inf (xorb s s')
  | Inf s, Finite x | Finite x, Inf s =>
      if Qeq_bool x 0 then NaN else Inf (xorb s (is_negative (Finite x)))
  end.

(** The quotient of [a] by a [b] that is not zero. *)
Definition quotient (a b : float) : float :=
  match a, b with
  | Finite x, Finite y => Finite (Qred (x / y))
  | NaN, _ | _, NaN => NaN
  | Inf _, Inf _ => NaN
  | Inf s, Finite y => Inf (xorb s (is_negative (Finite y)))
  | Finite _, Inf _ => Finite 0
  end.

(** [a / b] on floats (or an int and a float). *)
Definition fdiv (a b : float) : result float :=
  if is_zero b then Raise ZeroDivisionError else Ok (quotient a b).

(** [max(xs)] on a sequence of non-negative ints. *)
Definition max (xs : list nat) : result nat :=
  match xs with
  | [] => Raise ValueError
  | x :: xs' => Ok (foldl Nat.max x xs')
  end.

(** [sum(xs)]. *)
Definition sum (xs : list nat) : nat := foldl Nat.add 0%nat xs.

(** [xs[i]] for [i >= 0]. *)
Definition getitem {A} (xs : list A) (i : nat) : result A :=
  match xs !! i with
  | Some x => Ok x
  | None => Raise IndexError
  end.

(** [a % b] on ints: the sign follows the divisor, as [Z.modulo]. *)
Definition imod (a b : Z) : result Z :=
  if decide (b = 0)%Z then Raise ZeroDivisionError else Ok (a mod b)%Z.

(** Insertion in descending key order that keeps equal keys in their
    original order: [x] stood before every element of [l]. *)
Fixpoint insert_desc {A} (key : A → nat) (x : A) (l : list A) : list A :=
  match l with
  | [] => [x]
  | y :: l' =>
      if (key x <? key y)%nat then y :: insert_desc key x l'
      else x :: l
  end.

(** [sorted(xs, key=key, reverse=True)]: Python's sort is stable, also
    with [reverse=True]. *)
Definition sorted_reverse {A} (key : A → nat) (xs : list A) : list A :=
  foldr (insert_desc key) [] xs.

End Py.

(** A rational where a float is expected is the finite float of that
    value. *)
Coercion Py.Finite : Q >-> Py.float.

(** ** The part of networkx the module uses *)

Module nx.

Abbreviation node := Z.

(** [G._adj] in insertion order: every node with the keys of its
    neighbour dictionary. *)
Abbreviation Graph := (list (node * list node)).

Definition empty : Graph := [].

(** [G.nodes()], [iter(G)]. *)
Definition nodes (g : Graph) : list node := g.*1.

(** [G.order()], [len(G)], [len(G.nodes())]. *)
Definition order (g : Graph) : nat := length g.

Definition has_node (g : Graph) (n : node) : bool :=
  bool_decide (n ∈ nodes g).

Fixpoint adj_get (g : Graph) (n : node) : option (list node) :=
  match g with
  | [] => None
  | (k, nbrs) :: g' => if decide (k = n) then Some nbrs else adj_get g' n
  end.

(** [G.adj[n]]. *)
Definition adj (g : Graph) (n : node) : result (list node) :=
  match adj_get g n with
  | Some nbrs => Ok nbrs
  | None => Raise KeyError
  end.

(** [d[v] = ...] on the keys of a dictionary: a new key goes last, an
    existing key keeps its place. *)
Definition set_key (ks : list node) (v : node) : list node :=
  if bool_decide (v ∈ ks) then ks else ks ++ [v].

(** [d.update(other)] on keys. *)
Definition update (ks other : list node) : list node :=
  foldl set_key ks other.

(** [G.add_node(n)]. *)
Definition add_node (g : Graph) (n : node) : Graph :=
  if has_node g n then g else g ++ [(n, [])].

(** [G._adj[u][v] = datadict]. *)
Definition adj_set (g : Graph) (u v : node) : Graph :=
  (λ '(k, nbrs), if decide (k = u) then (k, set_key nbrs v) else (k, nbrs)) <$> g.

(** [G.add_edge(u, v)]. *)
Definition add_edge (g : Graph) (u v : node) : Graph :=
  adj_set (adj_set (add_node (add_node g u) v) u v) v u.

(** The [(u, v)] pairs of [for u, nbrs in d.items() for v in nbrs]. *)
Definition adjacency_pairs (g : Graph) : list (node * node) :=
  '(u, nbrs) ← g; pair u <$> nbrs.

(** [G.add_edges_from(es)]. *)
Definition add_edges_from (g : Graph) (es : list (node * node)) : Graph :=
  foldl (λ g '(u, v), add_edge g u v) g es.

(** [nx.Graph(src)]: [from_dict_of_dicts] adds the nodes of [src] in
    order, then every adjacency pair as an edge. *)
Definition new_Graph (src : Graph) : Graph :=
  add_edges_from (foldl add_node empty (nodes src)) (adjacency_pairs src).

(** Degree of [n] with neighbour keys [nbrs]: a self-loop counts twice. *)
Definition degree_of (n : node) (nbrs : list node) : nat :=
  (length nbrs + if bool_decide (n ∈ nbrs) then 1 else 0)%nat.

(** [dict(G.degree())]. *)
Definition degree (g : Graph) : list (node * nat) :=
  (λ '(n, nbrs), (n, degree_of n nbrs)) <$> g.

(** [G.size()]: half the sum of the degrees. *)
Definition size (g : Graph) : nat :=
  (Py.sum (degree g).*2 `div` 2)%nat.

(** [del d[n]] on keys. *)
Definition del_key (ks : list node) (n : node) : result (list node) :=
  if bool_decide (n ∈ ks) then Ok (filter (λ k, k ≠ n) ks) else Raise KeyError.

(** [del G._adj[u][n]]. *)
Fixpoint adj_del (g : Graph) (u n : node) : result Graph :=
  match g with
  | [] => Raise KeyError
  | (k, nbrs) :: g' =>
      if decide (k = u) then nbrs' ← del_key nbrs n; Ok ((k, nbrs') :: g')
      else g'' ← adj_del g' u n; Ok ((k, nbrs) :: g'')
  end.

(** [G.remove_node(n)]: every edge [n-u] is deleted from [u]'s side,
    then [n]'s own entry. *)
Definition remove_node (g : Graph) (n : node) : result Graph :=
  match adj_get g n with
  | None => Raise NetworkXError
  | Some nbrs =>
      g' ← foldl (λ acc u, h ← acc; adj_del h u n) (Ok g) nbrs;
      Ok (filter (λ e, e.1 ≠ n) g')
  end.

(** The induced subgraph [G.subgraph(c).copy()].  Only its node and
    edge counts are used; the entries are kept in [G]'s order. *)
Definition subgraph (g : Graph) (c : list node) : Graph :=
  (λ '(k, nbrs), (k, filter (λ v, v ∈ c) nbrs)) <$> filter (λ e, e.1 ∈ c) g.

(** *** Breadth-first search by levels *)

(** One pass of [for v in thislevel] in [_single_shortest_path_length]:
    an unseen [v] gets the current level and its neighbours join the
    next level. *)
Fixpoint sssp_level (g : Graph) (level : nat) (thislevel : list node)
    (seen : list (node * nat)) (nextlevel : list node)
    : result (list (node * nat) * list node) :=
  match thislevel with
  | [] => Ok (seen, nextlevel)
  | v :: rest =>
      if bool_decide (v ∈ seen.*1) then sssp_level g level rest seen nextlevel
      else
        nbrs ← adj g v;
        sssp_level g level rest (seen ++ [(v, level)]) (update nextlevel nbrs)
  end.

(** [while nextlevel: ...; level += 1] (the cutoff is infinite). *)
Fixpoint sssp_loop (fuel : nat) (g : Graph) (seen : list (node * nat))
    (level : nat) (nextlevel : list node) : result (list (node * nat)) :=
  match nextlevel with
  | [] => Ok seen
  | _ :: _ =>
      match fuel with
      | O => Timeout
      | S fuel' =>
          '(seen', nextlevel') ← sssp_level g level nextlevel seen [];
          sssp_loop fuel' g seen' (S level) nextlevel'
      end
  end.

(** [nx.single_source_shortest_path_length(G, source)]: the dictionary
    node -> distance, in order of discovery. *)
Definition single_source_shortest_path_length (g : Graph) (source : node)
    : result (list (node * nat)) :=
  if has_node g source then sssp_loop (S (order g)) g [] 0 [source]
  else Raise NodeNotFound.

(** *** Connected components *)

(** One pass of [for v in thislevel] in [_plain_bfs]. *)
Fixpoint bfs_level (g : Graph) (thislevel : list node)
    (seen nextlevel : list node) : result (list node * list node) :=
  match thislevel with
  | [] => Ok (seen, nextlevel)
  | v :: rest =>
      if bool_decide (v ∈ seen) then bfs_level g rest seen nextlevel
      else
        nbrs ← adj g v;
        bfs_level g rest (seen ++ [v]) (update nextlevel nbrs)
  end.

Fixpoint bfs_loop (fuel : nat) (g : Graph) (seen nextlevel : list node)
    : result (list node) :=
  match nextlevel with
  | [] => Ok seen
  | _ :: _ =>
      match fuel with
      | O => Timeout
      | S fuel' =>
          '(seen', nextlevel') ← bfs_level g nextlevel seen [];
          bfs_loop fuel' g seen' nextlevel'
      end
  end.

(** [set(_plain_bfs(G, source))], listed in order of discovery. *)
Definition plain_bfs (g : Graph) (source : node) : result (list node) :=
  bfs_loop (S (order g)) g [] [source].

(** [for v in G: if v not in seen: c = set(_plain_bfs(G, v)); yield c;
    seen.update(c)]. *)
Fixpoint components_from (g : Graph) (vs : list node) (seen : list node)
    : result (list (list node)) :=
  match vs with
  | [] => Ok []
  | v :: rest =>
      if bool_decide (v ∈ seen) then components_from g rest seen
      else
        c ← plain_bfs g v;
        cs ← components_from g rest (update seen c);
        Ok (c :: cs)
  end.

Definition connected_components (g : Graph) : result (list (list node)) :=
  components_from g (nodes g) [].

(** [nx.connected_component_subgraphs(G)]. *)
Definition connected_component_subgraphs (g : Graph) : result (list Graph) :=
  cs ← connected_components g; Ok (map (subgraph g) cs).

(** A graph built from an edge list, as [read_edgelist] builds the
    input. *)
Definition from_edges (es : list (node * node)) : Graph :=
  add_edges_from empty es.

End nx.

(** ** The metrics of robustness.py *)

(** [diameter_and_avg_path_length]: the loop [for n in graph]. *)
Fixpoint path_length_loop (g : nx.Graph) (ns : list nx.node)
    (max_path_length : nat) (total : Py.float) : result (nat * Py.float) :=
  match ns with
  | [] => Ok (max_path_length, total)
  | n :: rest =>
      path_length ← nx.single_source_shortest_path_length g n;
      let total := Py.fadd total (Py.of_nat (Py.sum path_length.*2)) in
      m ← Py.max path_length.*2;
      let max_path_length :=
        if (max_path_length <? m)%nat then m else max_path_length in
      path_length_loop g rest max_path_length total
  end.

Definition diameter_and_avg_path_length (g : nx.Graph) : result (nat * Py.float) :=
  '(max_path_length, total) ← path_length_loop g (nx.nodes g) 0%nat 0%Q;
  let n := Z.of_nat (nx.order g) in
  match Py.fdiv total (Py.of_int (n * (n - 1))) with
  | Raise ZeroDivisionError => Ok (max_path_length, Py.Finite 0)
  | r => avg_path_length ← r; Ok (max_path_length, avg_path_length)
  end.

Definition giant_component_fraction (g : nx.Graph) : result Py.float :=
  subgraphs ← nx.connected_component_subgraphs g;
  let components := Py.sorted_reverse nx.order subgraphs in
  biggest_ga ← Py.getitem components 0;
  Py.fdiv (Py.of_nat (nx.size biggest_ga))
          (Py.fmul (Py.of_nat (length (nx.nodes g))) 1%Q).

Definition path3 : nx.Graph := nx.from_edges [(1, 2); (2, 3)]%Z.

Definition two_components : nx.Graph :=
  nx.from_edges [(1, 2); (2, 3); (4, 5)]%Z.

(** A path on five nodes (four edges) beside a complete graph on four
    nodes (six edges). *)
Definition path5_and_K4 : nx.Graph :=
  nx.from_edges [(1, 2); (2, 3); (3, 4); (4, 5);
                 (6, 7); (6, 8); (6, 9); (7, 8); (7, 9); (8, 9)]%Z.

(** ** Stateful computations

    [M S A]: a computation over a state [S] that yields a Python outcome.
    The state survives an exception, as the objects of a Python program
    do. *)

Definition M (S A : Type) : Type := S → S * result A.

#[global] Instance M_ret {S} : MRet (M S) := λ A a s, (s, Ok a).
#[global] Instance M_bind {S} : MBind (M S) := λ A B f m s,
  match m s with
  | (s', Ok a) => f a s'
  | (s', Raise e) => (s', Raise e)
  | (s', Timeout) => (s', Timeout)
  end.

Definition lift {S A} (r : result A) : M S A := λ s, (s, r).
Definition gets {S A} (f : S → A) : M S A := λ s, (s, Ok (f s)).
Definition modify {S} (f : S → S) : M S unit := λ s, (f s, Ok ()).

(** [for x in xs: body(x)]. *)
Fixpoint for_each {S A} (xs : list A) (body : A → M S unit) : M S unit :=
  match xs with
  | [] => mret ()
  | x :: rest => body x ≫= λ _, for_each rest body
  end.

(** [range(n)]. *)
Definition range (n : Z) : list Z := Z.of_nat <$> seq 0 (Z.to_nat n).

(** [[f(x) for x in xs]] where [f] may raise. *)
Fixpoint comprehension {A B} (f : A → result B) (xs : list A) : result (list B) :=
  match xs with
  | [] => Ok []
  | x :: rest => y ← f x; ys ← comprehension f rest; Ok (y :: ys)
  end.

(** ** Text files *)

Module Text.

(** The characters [str.split()] treats as white space (code points
    below 256). *)
Definition is_space (c : ascii) : bool :=
  let n := nat_of_ascii c in
  ((9 <=? n) && (n <=? 13) || (28 <=? n) && (n <=? 32)
   || (n =? 133) || (n =? 160))%nat.

(** [s.split()]: the maximal runs of non-space characters. [cur] is the
    run being read, reversed. *)
Fixpoint split_go (cur : list ascii) (s : string) : list string :=
  match s with
  | EmptyString =>
      match cur with [] => [] | _ => [String.string_of_list_ascii (rev cur)] end
  | String c s' =>
      if is_space c then
        match cur with
        | [] => split_go [] s'
        | _ => String.string_of_list_ascii (rev cur) :: split_go [] s'
        end
      else split_go (c :: cur) s'
  end.

Definition split (s : string) : list string := split_go [] s.

Definition newline : ascii := ascii_of_nat 10.
Definition nl : string := String newline EmptyString.

(** The lines of a text with their terminators, each ended by a line
    feed; [lines] below is [for line in file]. *)
Fixpoint lines_go (cur : list ascii) (s : string) : list string :=
  match s with
  | EmptyString =>
      match cur with [] => [] | _ => [String.string_of_list_ascii (rev cur)] end
  | String c s' =>
      if decide (c = newline)
      then String.string_of_list_ascii (rev (c :: cur)) :: lines_go [] s'
      else lines_go (c :: cur) s'
  end.

Definition carriage_return : ascii := ascii_of_nat 13.

(** A file opened for reading in text mode has universal newlines: a
    carriage return, alone or before a line feed, arrives as one line
    feed. *)
Fixpoint universal_newlines (s : string) : string :=
  match s with
  | EmptyString => EmptyString
  | String c s' =>
      if decide (c = carriage_return) then
        match s' with
        | String c' s'' =>
            if decide (c' = newline) then String newline (universal_newlines s'')
            else String newline (universal_newlines s')
        | EmptyString => String newline EmptyString
        end
      else String c (universal_newlines s')
  end.

Definition lines (s : string) : list string :=
  lines_go [] (universal_newlines s).

(** [sep.join(parts)]. *)
Fixpoint join (sep : string) (parts : list string) : string :=
  match parts with
  | [] => ""
  | [p] => p
  | p :: rest => p +:+ sep +:+ join sep rest
  end.

(** [s.split(sep)] for a one-character separator: every separator
    ends a field, empty fields included. *)
Fixpoint split_sep_go (sep : ascii) (cur : list ascii) (s : string) : list string :=
  match s with
  | EmptyString => [String.string_of_list_ascii (rev cur)]
  | String c s' =>
      if decide (c = sep)
      then String.string_of_list_ascii (rev cur) :: split_sep_go sep [] s'
      else split_sep_go sep (c :: cur) s'
  end.

Definition split_sep (sep : ascii) (s : string) : list string :=
  split_sep_go sep [] s.

(** [s[:-1]]. *)
Definition drop_last (s : string) : string :=
  String.string_of_list_ascii (removelast (String.list_ascii_of_string s)).

(** A printed number: not empty, no white space inside. *)
Definition token (s : string) : Prop :=
  s ≠ "" ∧ Forall (λ c, is_space c = false) (String.list_ascii_of_string s).

End Text.

(** ** The simulation *)

Definition ref := nat.

(** The local variables of [robustness_by_attack]. *)
Record AttackFrame : Type := mkAttackFrame {
  graph : ref;
  diameters_history : list Py.float;
  path_len_history : list Py.float;
  ga_fraction_history : list Py.float
}.

(** The local variables of [robustness_by_fail]. *)
Record FailFrame : Type := mkFailFrame {
  run_graph : ref;
  diameters_on_run : list Py.float;
  paths_on_run : list Py.float;
  ga_on_run : list Py.float;
  runs_diameters_history : list (list Py.float);
  runs_path_len_history : list (list Py.float);
  runs_ga_fraction_history : list (list Py.float)
}.

(** The series handed to [dump_history]: flat in attack mode, one list
    per run in fail mode. *)
Definition history (fail_mode : bool) : Type :=
  if fail_mode then list (list Py.float) else list Py.float.

(** The objects the module touches: graph objects by reference, the state
    of the [random] module, the files by path. *)
Record Store (Rng : Type) : Type := mkStore {
  heap : list nx.Graph;
  rng : Rng;
  files : gmap string string
}.
Arguments mkStore {Rng} _ _ _.
Arguments heap {Rng} _.
Arguments rng {Rng} _.
Arguments files {Rng} _.

Section Simulation.

(** The random source: [randbelow r n] draws below [n]. *)
Context {Rng : Type} (randbelow : Rng → nat → nat * Rng).

(** [str(v)] and [float(s)] on numbers. *)
Context (str : Py.float → string) (float : string → result Py.float).

(** The paths of [project.emails.common], a module outside the two
    source files. *)
Context (ROBUSTNESS_ATTACK_HISTORY ROBUSTNESS_FAIL_HISTORY : string).

Abbreviation Store := (Store Rng).

(** *** Graph objects *)

Definition deref (r : ref) : M Store nx.Graph := λ s,
  match heap s !! r with
  | Some g => (s, Ok g)
  | None => (s, Raise ReferenceError)
  end.

Definition alloc (g : nx.Graph) : M Store ref := λ s,
  (mkStore (heap s ++ [g]) (rng s) (files s), Ok (length (heap s))).

Definition assign (r : ref) (g : nx.Graph) : M Store unit :=
  modify (λ s, mkStore (<[r := g]> (heap s)) (rng s) (files s)).

(** [nx.Graph(src)]: a new object. *)
Definition Graph (src : ref) : M Store ref :=
  g ← deref src; alloc (nx.new_Graph g).

(** [graph.remove_node(n)]: in place. *)
Definition remove_node (graph : ref) (n : nx.node) : M Store unit :=
  g ← deref graph; g' ← lift (nx.remove_node g n); assign graph g'.

(** [random.choice(seq)]. *)
Definition random_choice {A} (seq : list A) : M Store A := λ s,
  match seq with
  | [] => (s, Raise IndexError)
  | _ :: _ =>
      let '(i, r') := randbelow (rng s) (length seq) in
      (mkStore (heap s) r' (files s), Py.getitem seq i)
  end.

(** *** The removal strategies *)

Definition fail (src_graph : ref) : M Store ref :=
  graph ← Graph src_graph;
  g ← deref graph;
  n ← random_choice (nx.nodes g);
  remove_node graph n;;
  mret graph.

Definition attack_degree (src_graph : ref) : M Store ref :=
  graph ← Graph src_graph;
  g ← deref graph;
  let degrees := nx.degree g in
  max_degree ← lift (Py.max degrees.*2);
  let max_keys := (filter (λ kv, kv.2 = max_degree) degrees).*1 in
  k ← lift (Py.getitem max_keys 0);
  remove_node graph k;;
  mret graph.

(** *** Metrics on graph objects *)

Definition measure {A} (f : nx.Graph → result A) (graph : ref) : M Store A :=
  g ← deref graph; lift (f g).

(** A store computation inside a function with local variables [F]. *)
Definition on_store {F A} (m : M Store A) : M (F * Store) A := λ st,
  let '(s', r) := m st.2 in ((st.1, s'), r).

Definition local {F} (upd : F → F) : M (F * Store) unit :=
  modify (λ st, (upd st.1, st.2)).

(** *** Attack mode *)

(** The body of [for iteration in range(nodes_to_remove)].  Progress
    output ([tqdm], [print]) goes to the console and is left out. *)
Definition attack_body (measure_frequency iteration : Z)
    : M (AttackFrame * Store) unit :=
  g ← gets (λ st, graph st.1);
  g' ← on_store (attack_degree g);
  local (λ f, mkAttackFrame g' (diameters_history f) (path_len_history f)
                (ga_fraction_history f));;
  m ← lift (Py.imod iteration measure_frequency);
  if decide (m = 0)%Z then
    '(diameter, avg_path_len) ← on_store (measure diameter_and_avg_path_length g');
    local (λ f, mkAttackFrame (graph f) (diameters_history f ++ [Py.Finite (Py.of_nat diameter)])
                  (path_len_history f) (ga_fraction_history f));;
    local (λ f, mkAttackFrame (graph f) (diameters_history f)
                  (path_len_history f ++ [avg_path_len]) (ga_fraction_history f));;
    ga ← on_store (measure giant_component_fraction g');
    local (λ f, mkAttackFrame (graph f) (diameters_history f)
                  (path_len_history f) (ga_fraction_history f ++ [ga]))
  else mret ().

(** The loop of [robustness_by_attack], with the local variables it
    leaves behind. *)
Definition attack_loop (src_graph : ref) (nodes_to_remove measure_frequency : Z)
    (s : Store) : (AttackFrame * Store) * result unit :=
  for_each (range nodes_to_remove) (attack_body measure_frequency)
           (mkAttackFrame src_graph [] [] [], s).

(** *** The history files *)

Definition open_w (path : string) : M Store unit :=
  modify (λ s, mkStore (heap s) (rng s) (<[path := ""]> (files s))).

Definition write (path data : string) : M Store unit :=
  modify (λ s, mkStore (heap s) (rng s)
                 (<[path := default "" (files s !! path) +:+ data]> (files s))).

Definition open_r (path : string) : M Store string := λ s,
  match files s !! path with
  | Some content => (s, Ok content)
  | None => (s, Raise FileNotFoundError)
  end.

(** Modelled from the spec: [common.join_values], not among the source
    files; the spec has the values of a series joined by a space. *)
Definition join_values (values : list Py.float) : string :=
  Text.join " " (str <$> values).

Definition dump_history (file_path : string) (fail_mode : bool)
    : history fail_mode → history fail_mode → history fail_mode → M Store unit :=
  match fail_mode with
  | false => λ diameters paths ga_fractions,
      open_w file_path;;
      for_each [diameters; paths; ga_fractions]
        (λ param, write file_path (join_values param +:+ Text.nl))
  | true => λ diameters paths ga_fractions,
      open_w file_path;;
      for_each (range (Z.of_nat (length diameters)))
        (λ run,
           write file_path (pretty run +:+ Text.nl);;
           ga ← lift (Py.getitem ga_fractions (Z.to_nat run));
           write file_path (join_values ga +:+ Text.nl))
  end.

Definition robustness_by_attack (src_graph : ref)
    (nodes_to_remove measure_frequency : Z) : M Store unit := λ s,
  match attack_loop src_graph nodes_to_remove measure_frequency s with
  | ((f, s'), Ok _) =>
      dump_history ROBUSTNESS_ATTACK_HISTORY false
        (diameters_history f) (path_len_history f) (ga_fraction_history f) s'
  | ((_, s'), Raise e) => (s', Raise e)
  | ((_, s'), Timeout) => (s', Timeout)
  end.

(** *** Fail mode *)

Definition fail_body (measure_frequency iteration : Z)
    : M (FailFrame * Store) unit :=
  g ← gets (λ st, run_graph st.1);
  g' ← on_store (fail g);
  local (λ f, mkFailFrame g' (diameters_on_run f) (paths_on_run f) (ga_on_run f)
                (runs_diameters_history f) (runs_path_len_history f)
                (runs_ga_fraction_history f));;
  m ← lift (Py.imod iteration measure_frequency);
  if decide (m = 0)%Z then
    ga ← on_store (measure giant_component_fraction g');
    local (λ f, mkFailFrame (run_graph f) (diameters_on_run f) (paths_on_run f)
                  (ga_on_run f ++ [ga])
                  (runs_diameters_history f) (runs_path_len_history f)
                  (runs_ga_fraction_history f))
  else mret ().

(** The body of [for _ in range(number_of_runs)]. *)
Definition run_body (src_graph : ref) (nodes_to_remove measure_frequency : Z)
    (_ : Z) : M (FailFrame * Store) unit :=
  local (λ f, mkFailFrame src_graph [] [] []
                (runs_diameters_history f) (runs_path_len_history f)
                (runs_ga_fraction_history f));;
  for_each (range nodes_to_remove) (fail_body measure_frequency);;
  local (λ f, mkFailFrame (run_graph f) (diameters_on_run f) (paths_on_run f)
                (ga_on_run f)
                (runs_diameters_history f ++ [diameters_on_run f])
                (runs_path_len_history f ++ [paths_on_run f])
                (runs_ga_fraction_history f ++ [ga_on_run f])).

Definition fail_loop (src_graph : ref)
    (number_of_runs nodes_to_remove measure_frequency : Z)
    (s : Store) : (FailFrame * Store) * result unit :=
  for_each (range number_of_runs)
           (run_body src_graph nodes_to_remove measure_frequency)
           (mkFailFrame src_graph [] [] [] [] [] [], s).

Definition robustness_by_fail (src_graph : ref)
    (number_of_runs nodes_to_remove measure_frequency : Z) : M Store unit := λ s,
  match fail_loop src_graph number_of_runs nodes_to_remove measure_frequency s with
  | ((f, s'), Ok _) =>
      dump_history ROBUSTNESS_FAIL_HISTORY true
        (runs_diameters_history f) (runs_path_len_history f)
        (runs_ga_fraction_history f) s'
  | ((_, s'), Raise e) => (s', Raise e)
  | ((_, s'), Timeout) => (s', Timeout)
  end.

(** *** Reading the histories back *)

Definition normalized_robustness (data : list Py.float) : result (list Py.float) :=
  comprehension (λ value, d0 ← Py.getitem data 0; Py.fdiv value d0) data.

(** [[float(val) for line in attack_file for val in line.split()]]. *)
Definition read_attack_history : M Store (list Py.float) :=
  content ← open_r ROBUSTNESS_ATTACK_HISTORY;
  lift (comprehension float (line ← Text.lines content; Text.split line)).

(** The body of [for run in range(num_of_runs)] over the remaining
    lines of the fail file. *)
Fixpoint read_fail_runs (runs : nat) (rest : list string)
    : result (list (list Py.float)) :=
  match runs with
  | O => Ok []
  | S runs' =>
      match rest with
      | _ :: line :: rest' =>
          vals ← comprehension float (Text.split_sep " " (Text.drop_last line));
          vals ← normalized_robustness vals;
          more ← read_fail_runs runs' rest';
          Ok (vals :: more)
      | _ => Raise StopIteration
      end
  end.

(** [plot_robustness] up to the series it hands to the plot calls. *)
Definition plot_robustness : M Store (list Py.float * list (list Py.float)) :=
  attack_history ← read_attack_history;
  attack_history ← lift (normalized_robustness attack_history);
  content ← open_r ROBUSTNESS_FAIL_HISTORY;
  fail_history ← lift (read_fail_runs 5 (Text.lines content));
  mret (attack_history, fail_history).

End Simulation.

(** ** Value-level views

    What the two strategies compute from the value of the graph they are
    given, apart from the store. *)

(** What [attack_degree] computes from the value of its argument: the
    node it picks and the graph it returns. *)
Definition attack_degree_pick (g : nx.Graph) : result nx.node :=
  let degrees := nx.degree (nx.new_Graph g) in
  max_degree ← Py.max degrees.*2;
  Py.getitem (filter (λ kv, kv.2 = max_degree) degrees).*1 0.

Definition attack_degree_value (g : nx.Graph) : result nx.Graph :=
  k ← attack_degree_pick g; nx.remove_node (nx.new_Graph g) k.

(** The node [fail] picks when the random source draws [i]. *)
Definition fail_value (i : nat) (g : nx.Graph) : result nx.Graph :=
  n ← Py.getitem (nx.nodes (nx.new_Graph g)) i;
  nx.remove_node (nx.new_Graph g) n.

(** The object a removal leaves at the new reference: the result, or
    the untouched copy when the removal raised. *)
Definition new_object (g : nx.Graph) (r : result nx.Graph) : nx.Graph :=
  match r with Ok g' => g' | _ => nx.new_Graph g end.


(** The graphs reached from [g] by [k] successful removals. *)
Inductive after_removals (step : nx.Graph → nx.Graph → Prop)
    : nat → nx.Graph → nx.Graph → Prop :=
  | removals_none g : after_removals step 0 g g
  | removals_more k g g' g'' :
      after_removals step k g g' → step g' g'' → after_removals step (S k) g g''.

Definition attack_step (g g' : nx.Graph) : Prop := attack_degree_value g = Ok g'.
Definition fail_step (g g' : nx.Graph) : Prop := ∃ i, fail_value i g = Ok g'.



(** Every entry of [hist] is [metric] of a graph reached from [g] by one
    removal or more, and the first entry by exactly one. *)
Definition recorded_after (step : nx.Graph → nx.Graph → Prop)
    (metric : nx.Graph → result Py.float) (g : nx.Graph)
    (hist : list Py.float) : Prop :=
  (∀ x, head hist = Some x → ∃ g1, step g g1 ∧ metric g1 = Ok x)
  ∧ ∀ x, x ∈ hist →
      ∃ k gk, after_removals step (S k) g gk ∧ metric gk = Ok x.


(** The series of finished runs in fail mode. *)
Definition run_hists (fr : FailFrame)
    : list (list Py.float) * list (list Py.float) * list (list Py.float) :=
  (runs_diameters_history fr, runs_path_len_history fr, runs_ga_fraction_history fr).


(** The three series of an attack run. *)
Definition hists (fr : AttackFrame) : list Py.float * list Py.float * list Py.float :=
  (diameters_history fr, path_len_history fr, ga_fraction_history fr).

(** What one iteration of the attack loop does to the local variables,
    when [graph] held [gi] before: which step ended it, and what was
    appended. *)
Inductive attack_body_outcome (f i : Z) (gi : nx.Graph)
    (fr fr' : AttackFrame) (r : result ()) : Prop :=
  | removal_raised :
      (∀ g1, attack_degree_value gi ≠ Ok g1) →
      r = (attack_degree_value gi ≫= λ _, Ok ()) →
      fr' = fr →
      attack_body_outcome f i gi fr fr' r
  | modulo_raised g1 :
      attack_degree_value gi = Ok g1 →
      (∀ m, Py.imod i f ≠ Ok m) →
      r = (Py.imod i f ≫= λ _, Ok ()) →
      hists fr' = hists fr →
      attack_body_outcome f i gi fr fr' r
  | not_sampled g1 m :
      attack_degree_value gi = Ok g1 →
      Py.imod i f = Ok m → m ≠ 0%Z →
      r = Ok () →
      hists fr' = hists fr →
      attack_body_outcome f i gi fr fr' r
  | path_length_raised g1 :
      attack_degree_value gi = Ok g1 →
      Py.imod i f = Ok 0%Z →
      (∀ x, diameter_and_avg_path_length g1 ≠ Ok x) →
      r = (diameter_and_avg_path_length g1 ≫= λ _, Ok ()) →
      hists fr' = hists fr →
      attack_body_outcome f i gi fr fr' r
  | fraction_raised g1 diameter avg_path_len :
      attack_degree_value gi = Ok g1 →
      Py.imod i f = Ok 0%Z →
      diameter_and_avg_path_length g1 = Ok (diameter, avg_path_len) →
      (∀ q, giant_component_fraction g1 ≠ Ok q) →
      r = (giant_component_fraction g1 ≫= λ _, Ok ()) →
      hists fr' = (diameters_history fr ++ [Py.Finite (Py.of_nat diameter)],
                   path_len_history fr ++ [avg_path_len],
                   ga_fraction_history fr) →
      attack_body_outcome f i gi fr fr' r
  | sampled g1 diameter avg_path_len ga :
      attack_degree_value gi = Ok g1 →
      Py.imod i f = Ok 0%Z →
      diameter_and_avg_path_length g1 = Ok (diameter, avg_path_len) →
      giant_component_fraction g1 = Ok ga →
      r = Ok () →
      hists fr' = (diameters_history fr ++ [Py.Finite (Py.of_nat diameter)],
                   path_len_history fr ++ [avg_path_len],
                   ga_fraction_history fr ++ [ga]) →
      attack_body_outcome f i gi fr fr' r.

(** A concrete random source for examples: a counter reduced modulo the
    bound. *)
Definition counter_randbelow (r n : nat) : nat * nat := (r `mod` n, S r).

(** Python's [str] and [float] on the three numbers of the history
    example: [str(2) = '2'], [str(0.5) = '0.5'], [str(0.25) = '0.25'], on
    the infinities and on nan, and [float] of these strings. *)
Definition str_sample (v : Py.float) : string :=
  match v with
  | Py.Finite q =>
      if Qeq_bool q 2 then "2"
      else if Qeq_bool q (1 # 2) then "0.5"
      else if Qeq_bool q (1 # 4) then "0.25"
      else "nan"
  | Py.Inf false => "inf"
  | Py.Inf true => "-inf"
  | Py.NaN => "nan"
  end.

Definition float_sample (t : string) : result Py.float :=
  if decide (t = "2") then Ok (Py.Finite 2)
  else if decide (t = "0.5") then Ok (Py.Finite (1 # 2))
  else if decide (t = "0.25") then Ok (Py.Finite (1 # 4))
  else if decide (t = "inf") then Ok (Py.Inf false)
  else if decide (t = "-inf") then Ok (Py.Inf true)
  else if decide (t = "nan") then Ok Py.NaN
  else Raise ValueError.

(** A store that holds the path graph 1-2-3 at reference 0. *)
Definition path3_store : Store nat := mkStore [path3] 0 ∅.

(** [g] without the node [n] and its edges. *)
Definition without (g : nx.Graph) (n : nx.node) : nx.Graph :=
  (λ '(k, nbrs), (k, filter (λ v, v ≠ n) nbrs)) <$> filter (λ e, e.1 ≠ n) g.

(** ** Graph-theoretic vocabulary *)

Module Spec.

(** [v] is a neighbour of [u]. *)
Definition edge (g : nx.Graph) (u v : nx.node) : Prop :=
  ∃ nbrs, nx.adj_get g u = Some nbrs ∧ v ∈ nbrs.

(** The invariants networkx keeps of an undirected graph: each key once,
    neighbours are nodes, adjacency is symmetric. *)
Record wf (g : nx.Graph) : Prop := mk_wf {
  wf_nodes : NoDup (nx.nodes g);
  wf_nbrs : ∀ u nbrs, nx.adj_get g u = Some nbrs → NoDup nbrs;
  wf_closed : ∀ u v, edge g u v → v ∈ nx.nodes g;
  wf_sym : ∀ u v, edge g u v → edge g v u
}.

(** A walk of [n] edges from [s] to [t]. *)
Inductive walk (g : nx.Graph) (s : nx.node) : nx.node → nat → Prop :=
  | walk_start : walk g s s 0
  | walk_step u t n : walk g s u n → edge g u t → walk g s t (S n).

(** [d] is the shortest-path distance from [s] to [t]. *)
Definition dist (g : nx.Graph) (s t : nx.node) (d : nat) : Prop :=
  walk g s t d ∧ ∀ d', walk g s t d' → d ≤ d'.

Definition reachable (g : nx.Graph) (s t : nx.node) : Prop :=
  ∃ n, walk g s t n.

(** The table of all shortest-path distances between ordered pairs of
    nodes of [g]: one row per pair joined by a walk. *)
Definition distance_table (g : nx.Graph)
    (tbl : list (nx.node * nx.node * nat)) : Prop :=
  NoDup tbl.*1 ∧
  ∀ s t d, (s, t, d) ∈ tbl ↔ s ∈ nx.nodes g ∧ dist g s t d.

End Spec.

(** ** Vocabulary of the proofs *)

(** [n] deleted from the neighbours of the nodes in [done_]: the state
    of [remove_node] part-way through its loop. *)
Definition del_in (n : nx.node) (done_ : list nx.node) (g : nx.Graph) : nx.Graph :=
  (λ '(k, ns), if bool_decide (k ∈ done_) then (k, filter (λ v, v ≠ n) ns)
               else (k, ns)) <$> g.

(** The state of the level search before level [L]: [seen] holds the
    nodes closer than [L] with their distances, [frontier] the candidates
    at [L]. *)
Record bfs_inv (g : nx.Graph) (s : nx.node) (L : nat)
    (seen : list (nx.node * nat)) (frontier : list nx.node) : Prop := mk_bfs_inv {
  inv_nodup : NoDup seen.*1;
  inv_sound : ∀ t d, (t, d) ∈ seen →
    Spec.walk g s t d ∧ d < L ∧ ∀ d', Spec.walk g s t d' → d ≤ d';
  inv_complete : ∀ t d, Spec.walk g s t d → d < L → t ∈ seen.*1;
  inv_front : ∀ t, t ∈ frontier → Spec.walk g s t L;
  inv_next : ∀ t, Spec.walk g s t L → t ∈ frontier ∨ t ∈ seen.*1;
  inv_nodes : ∀ t, t ∈ frontier → t ∈ nx.nodes g;
  inv_seen_nodes : ∀ t, t ∈ seen.*1 → t ∈ nx.nodes g
}.

(** The rows of the distance table with source [s]. *)
Definition rows (s : nx.node) (m : list (nx.node * nat))
    : list (nx.node * nx.node * nat) :=
  (λ '(t, d), (s, t, d)) <$> m.

(** A list of the nodes reachable from some node of [g], each once. *)
Definition is_component (g : nx.Graph) (c : list nx.node) : Prop :=
  NoDup c ∧ ∃ v, v ∈ nx.nodes g ∧ ∀ t, t ∈ c ↔ Spec.reachable g v t.

(** Objects present before a store computation are the same after it. *)
Definition heap_kept {Rng} (s s' : Store Rng) : Prop :=
  ∀ j x, heap s !! j = Some x → heap s' !! j = Some x.

Definition no_space (t : string) : Prop :=
  Forall (λ x, Text.is_space x = false) (String.list_ascii_of_string t).

Definition no_newline (t : string) : Prop :=
  Forall (λ x, x ≠ Text.newline) (String.list_ascii_of_string t).

Definition no_cr (t : string) : Prop :=
  Forall (λ x, x ≠ Text.carriage_return) (String.list_ascii_of_string t).

(** A series whose numbers print as tokens that parse back. *)
Definition printable (str : Py.float → string) (float : string → result Py.float)
    (vs : list Py.float) : Prop :=
  Forall (λ v, float (str v) = Ok v ∧ Text.token (str v)) vs.

(** The line [dump_history] writes for a series. *)
Definition line (str : Py.float → string) (vs : list Py.float) : string :=
  join_values str vs +:+ Text.nl.

(** The degree of [k] in [g], by key. *)
Definition degree_at (g : nx.Graph) (k : nx.node) : nat :=
  from_option (nx.degree_of k) 0 (nx.adj_get g k).

(** The iterations of a run of [n] that take a sample at cadence [f]. *)
Definition sampled_iterations (n f : Z) : list Z :=
  filter (λ i, (i `mod` f = 0)%Z) (range n).

(** A graph without edges. *)
Definition edgeless (g : nx.Graph) : Prop := ∀ u v, ¬ Spec.edge g u v.

(** Only the file at [path] may differ between the two stores. *)
Definition only_file_changed {Rng} (path : string) (s s' : Store Rng) : Prop :=
  heap s' = heap s ∧ rng s' = rng s
  ∧ ∀ q, q ≠ path → files s' !! q = files s !! q.

(** The body of the fail-mode loop of [dump_history]. *)
Definition dump_run {Rng} (str : Py.float → string) (path : string)
    (ga_fractions : list (list Py.float)) (run : Z) : M (Store Rng) () :=
  write path (pretty run +:+ Text.nl);;
  ga ← lift (Py.getitem ga_fractions (Z.to_nat run));
  write path (join_values str ga +:+ Text.nl).

(** The lines of a fail-mode history file for the runs numbered from
    [i]: the number of the run, then its fractions. *)
Fixpoint fail_lines (str : Py.float → string) (i : nat)
    (ga_fractions : list (list Py.float)) : list string :=
  match ga_fractions with
  | [] => []
  | ga :: rest =>
      (pretty (Z.of_nat i) +:+ Text.nl) :: line str ga :: fail_lines str (S i) rest
  end.

(** The same lines as the text of the file. *)
Definition fail_text (str : Py.float → string) (i : nat)
    (ga_fractions : list (list Py.float)) : string :=
  foldr String.append "" (fail_lines str i ga_fractions).

(** A store with an attack file of one line and a fail file of five
    runs. *)
Definition history_store : Store nat :=
  mkStore [] 0
    (<["attack_history" := line str_sample [Py.Finite 2; Py.Finite (1 # 2)]]>
       (<["fail_history" := fail_text str_sample 0 (replicate 5 [Py.Finite 2; Py.Finite (1 # 2)])]> ∅)).

(** * Properties *)

(** ** Effects of the removal strategies on the store *)

Section StoreFacts.

Context {Rng : Type} (randbelow : Rng → nat → nat * Rng).

Abbreviation St := (Store Rng).

Lemma attack_degree_eq (src : ref) (g : nx.Graph) (s : St) :
  heap s !! src = Some g →
  attack_degree src s =
    (mkStore (heap s ++ [new_object g (attack_degree_value g)]) (rng s) (files s),
     attack_degree_value g ≫= λ _, Ok (length (heap s))).
Proof.
  intros Hsrc. unfold attack_degree, Graph, attack_degree_value, attack_degree_pick.
  cbv [mbind M_bind result_bind deref alloc lift]. rewrite Hsrc. cbn [heap rng files].
  rewrite lookup_app_r by lia. rewrite Nat.sub_diag; cbn [lookup list_lookup].
  destruct (Py.max _) as [d| |]; [|done..].
  destruct (Py.getitem _ _) as [k| |]; [|done..].
  unfold remove_node. cbv [mbind M_bind result_bind deref lift assign modify].
  cbn [heap rng files].
  rewrite lookup_app_r by lia. rewrite Nat.sub_diag; cbn [lookup list_lookup].
  destruct (nx.remove_node _ k) as [g'| |]; cbn; [|done..].
  rewrite insert_app_r_alt by lia. by rewrite Nat.sub_diag.
Qed.

Lemma fail_eq (src : ref) (g : nx.Graph) (s : St) :
  heap s !! src = Some g →
  fail randbelow src s =
    match nx.nodes (nx.new_Graph g) with
    | [] => (mkStore (heap s ++ [nx.new_Graph g]) (rng s) (files s), Raise IndexError)
    | _ :: _ =>
        let '(i, r') := randbelow (rng s) (length (nx.nodes (nx.new_Graph g))) in
        (mkStore (heap s ++ [new_object g (fail_value i g)]) r' (files s),
         fail_value i g ≫= λ _, Ok (length (heap s)))
    end.
Proof.
  intros Hsrc. unfold fail, Graph, fail_value.
  cbv [mbind M_bind result_bind deref alloc lift random_choice].
  rewrite Hsrc. cbn [heap rng files].
  rewrite lookup_app_r by lia. rewrite Nat.sub_diag; cbn [lookup list_lookup].
  destruct (nx.nodes _) as [|n0 ns] eqn:Hn; [done|].
  destruct (randbelow _ _) as [i r'].
  destruct (Py.getitem _ _) as [k| |]; [|done..].
  unfold remove_node. cbv [mbind M_bind result_bind deref lift assign modify].
  cbn [heap rng files].
  rewrite lookup_app_r by lia. rewrite Nat.sub_diag; cbn [lookup list_lookup].
  destruct (nx.remove_node _ k) as [g'| |]; cbn; [|done..].
  rewrite insert_app_r_alt by lia. by rewrite Nat.sub_diag.
Qed.

End StoreFacts.

(** ** The adjacency dictionary *)

Section AdjacencyFacts.

Import nx Spec.
Implicit Types (g : nx.Graph) (u v n k : nx.node) (nbrs ks ns : list nx.node).

Lemma adj_get_elem g u nbrs : adj_get g u = Some nbrs → (u, nbrs) ∈ g.
Proof.
  induction g as [|[k ns] g IH]; simpl; [done|].
  case_decide; [intros [= <-]; subst; left | right; auto].
Qed.

Lemma adj_get_None g u : adj_get g u = None ↔ u ∉ nodes g.
Proof.
  unfold nodes. induction g as [|[k ns] g IH]; simpl.
  - split; [intros _; apply not_elem_of_nil | done].
  - rewrite not_elem_of_cons. case_decide; naive_solver.
Qed.

Lemma adj_get_is_Some g u : is_Some (adj_get g u) ↔ u ∈ nodes g.
Proof.
  rewrite <-not_eq_None_Some, adj_get_None.
  split; [apply dec_stable | auto].
Qed.

Lemma elem_adj_get g u nbrs :
  NoDup (nodes g) → (u, nbrs) ∈ g → adj_get g u = Some nbrs.
Proof.
  unfold nodes. induction g as [|[k ns] g IH]; simpl.
  - by intros _ ?%elem_of_nil.
  - intros [Hk Hnd]%NoDup_cons [[= -> ->]|Hin]%elem_of_cons.
    + by rewrite decide_True.
    + rewrite decide_False; [auto|]. intros ->. apply Hk.
      apply list_elem_of_fmap. by exists (u, nbrs).
Qed.

Lemma edge_source g u v : edge g u v → u ∈ nodes g.
Proof. intros (nbrs & H & _). apply adj_get_is_Some; eauto. Qed.

Lemma adj_Ok g u : u ∈ nodes g → ∃ nbrs, adj g u = Ok nbrs ∧ adj_get g u = Some nbrs.
Proof. intros [nbrs H]%adj_get_is_Some. exists nbrs. unfold adj. by rewrite H. Qed.

(** *** Keys of a dictionary *)

Lemma elem_of_set_key ks v k : k ∈ set_key ks v ↔ k ∈ ks ∨ k = v.
Proof.
  unfold set_key. case_bool_decide; [naive_solver|].
  rewrite elem_of_app, list_elem_of_singleton. done.
Qed.

Lemma NoDup_set_key ks v : NoDup ks → NoDup (set_key ks v).
Proof.
  unfold set_key. case_bool_decide; [done|]. intros.
  apply NoDup_app; split_and!; [done| |apply NoDup_singleton].
  intros k ? ->%list_elem_of_singleton. done.
Qed.

Lemma elem_of_update ks other k : k ∈ update ks other ↔ k ∈ ks ∨ k ∈ other.
Proof.
  unfold update. revert ks. induction other as [|v other IH]; intros ks; simpl.
  - rewrite elem_of_nil. naive_solver.
  - rewrite IH, elem_of_set_key, elem_of_cons. naive_solver.
Qed.

Lemma NoDup_update ks other : NoDup ks → NoDup (update ks other).
Proof.
  unfold update. revert ks. induction other; simpl; auto using NoDup_set_key.
Qed.

(** *** Building graphs *)

Lemma nodes_adj_set g u v : nodes (adj_set g u v) = nodes g.
Proof.
  unfold nodes, adj_set. rewrite <-list_fmap_compose.
  apply list_fmap_ext. intros _ [k ns] _; simpl. by case_decide.
Qed.

Lemma adj_get_adj_set g u v k :
  adj_get (adj_set g u v) k =
    if decide (k = u) then (λ ns, set_key ns v) <$> adj_get g k else adj_get g k.
Proof.
  unfold adj_set. induction g as [|[k' ns] g IH]; simpl; [by case_decide|].
  destruct (decide (k' = u)) as [->|Hk']; simpl.
  - destruct (decide (u = k)) as [->|?]; [by rewrite decide_True|].
    apply IH.
  - destruct (decide (k' = k)) as [->|?]; [by rewrite decide_False|].
    apply IH.
Qed.

Lemma nodes_add_node g n :
  nodes (add_node g n) = if has_node g n then nodes g else nodes g ++ [n].
Proof.
  unfold add_node, nodes. destruct (has_node g n); [done|].
  by rewrite fmap_app.
Qed.

Lemma add_node_id g n : n ∈ nodes g → add_node g n = g.
Proof.
  intros Hn. unfold add_node, has_node. by rewrite (bool_decide_eq_true_2 _ Hn).
Qed.

Lemma elem_of_nodes_add_node g n k :
  k ∈ nodes (add_node g n) ↔ k ∈ nodes g ∨ k = n.
Proof.
  rewrite nodes_add_node. unfold has_node. case_bool_decide; [naive_solver|].
  rewrite elem_of_app, list_elem_of_singleton. done.
Qed.

Lemma adj_get_app g g' k :
  adj_get (g ++ g') k =
    match adj_get g k with Some ns => Some ns | None => adj_get g' k end.
Proof.
  induction g as [|[k' ns] g IH]; simpl; [done|]. by case_decide.
Qed.

Lemma adj_get_add_node g n k :
  adj_get (add_node g n) k =
    match adj_get g k with
    | Some ns => Some ns
    | None => if decide (n = k) then Some [] else None
    end.
Proof.
  unfold add_node, has_node. case_bool_decide as Hn.
  - destruct (adj_get g k) eqn:Hk; [done|]. case_decide; [subst|done].
    by apply adj_get_None in Hk.
  - by rewrite adj_get_app.
Qed.

Lemma edge_add_node g n u v : edge (add_node g n) u v ↔ edge g u v.
Proof.
  unfold edge. setoid_rewrite adj_get_add_node.
  destruct (adj_get g u) eqn:Hu; [done|].
  case_decide; split; intros (ns & ? & Hv); simplify_eq.
  by apply elem_of_nil in Hv.
Qed.

Lemma edge_adj_set g a b u v :
  a ∈ nodes g →
  edge (adj_set g a b) u v ↔ edge g u v ∨ (u = a ∧ v = b).
Proof.
  intros [ns0 Ha]%adj_get_is_Some. unfold edge.
  setoid_rewrite adj_get_adj_set. case_decide as Hu; [subst u|naive_solver].
  rewrite Ha; simpl. split.
  - intros (ns & [= <-] & [?| ->]%elem_of_set_key); eauto.
  - intros [(ns & [= <-] & ?)|[_ ->]]; eexists; split; try done;
      apply elem_of_set_key; auto.
Qed.

Lemma nodes_add_edge g u v :
  nodes (add_edge g u v) = nodes (add_node (add_node g u) v).
Proof. unfold add_edge. by rewrite !nodes_adj_set. Qed.

Lemma elem_of_nodes_add_edge g u v k :
  k ∈ nodes (add_edge g u v) ↔ k ∈ nodes g ∨ k = u ∨ k = v.
Proof.
  rewrite nodes_add_edge, !elem_of_nodes_add_node. naive_solver.
Qed.

Lemma nodes_add_edge_id g u v :
  u ∈ nodes g → v ∈ nodes g → nodes (add_edge g u v) = nodes g.
Proof.
  intros Hu Hv. rewrite nodes_add_edge.
  by rewrite (add_node_id g u), (add_node_id g v).
Qed.

Lemma edge_add_edge g a b u v :
  edge (add_edge g a b) u v ↔ edge g u v ∨ (u = a ∧ v = b) ∨ (u = b ∧ v = a).
Proof.
  unfold add_edge. rewrite edge_adj_set.
  2:{ rewrite nodes_adj_set, !elem_of_nodes_add_node. auto. }
  rewrite edge_adj_set by (rewrite !elem_of_nodes_add_node; auto).
  rewrite !edge_add_node. naive_solver.
Qed.

Lemma wf_empty : wf empty.
Proof.
  split; unfold empty, edge; simpl; try naive_solver. constructor.
Qed.

Lemma wf_add_node g n : wf g → wf (add_node g n).
Proof.
  intros [Hn Hd Hc Hs]. split.
  - rewrite nodes_add_node. unfold has_node. case_bool_decide; [done|].
    apply NoDup_app; split_and!; [done| |apply NoDup_singleton].
    by intros k ? ->%list_elem_of_singleton.
  - intros u nbrs. rewrite adj_get_add_node.
    destruct (adj_get g u) eqn:Hu; [intros [= <-]; eauto|].
    case_decide; [intros [= <-]; constructor|done].
  - intros u v ?%edge_add_node. apply elem_of_nodes_add_node; eauto.
  - intros u v. rewrite !edge_add_node. auto.
Qed.

Lemma wf_adj_set2 g u v :
  u ∈ nodes g → v ∈ nodes g → wf g → wf (adj_set (adj_set g u v) v u).
Proof.
  intros Hu Hv [Hn Hd Hc Hs].
  assert (∀ a b, edge (adj_set (adj_set g u v) v u) a b ↔
                 edge g a b ∨ (a = u ∧ b = v) ∨ (a = v ∧ b = u)) as He.
  { intros a b. rewrite edge_adj_set by (by rewrite nodes_adj_set).
    rewrite edge_adj_set by done. naive_solver. }
  split.
  - by rewrite !nodes_adj_set.
  - intros a nbrs. rewrite !adj_get_adj_set.
    repeat case_decide; subst;
      destruct (adj_get g _) eqn:Ha; simpl; intros [= <-];
      eauto using NoDup_set_key.
  - intros a b [?|[[-> ->]|[-> ->]]]%He; rewrite !nodes_adj_set; eauto.
  - intros a b. rewrite !He. naive_solver.
Qed.

Lemma wf_add_edge g u v : wf g → wf (add_edge g u v).
Proof.
  intros Hwf. unfold add_edge. apply wf_adj_set2.
  - rewrite !elem_of_nodes_add_node; auto.
  - rewrite !elem_of_nodes_add_node; auto.
  - by do 2 apply wf_add_node.
Qed.


(** *** Copies *)

Lemma nodes_foldl_add_node g ns :
  NoDup (nodes g ++ ns) → nodes (foldl add_node g ns) = nodes g ++ ns.
Proof.
  revert g. induction ns as [|n ns IH]; intros g Hnd; simpl.
  - by rewrite app_nil_r.
  - assert (n ∉ nodes g) as Hn.
    { apply NoDup_app in Hnd as (_ & Hd & _). intros ?%Hd. set_solver. }
    assert (nodes (add_node g n) = nodes g ++ [n]) as Hn'.
    { rewrite nodes_add_node. unfold has_node.
      by rewrite (bool_decide_eq_false_2 _ Hn). }
    rewrite IH; rewrite Hn', <-app_assoc; done.
Qed.

Lemma edge_foldl_add_node g ns u v : edge (foldl add_node g ns) u v ↔ edge g u v.
Proof.
  revert g. induction ns as [|n ns IH]; intros g; simpl; [done|].
  by rewrite IH, edge_add_node.
Qed.

Lemma wf_foldl_add_node g ns : wf g → wf (foldl add_node g ns).
Proof. revert g. induction ns; simpl; auto using wf_add_node. Qed.

Lemma wf_add_edges_from g es : wf g → wf (add_edges_from g es).
Proof.
  unfold add_edges_from. revert g.
  induction es as [|[u v] es IH]; simpl; auto using wf_add_edge.
Qed.

Lemma nodes_add_edges_from g es :
  (∀ u v, (u, v) ∈ es → u ∈ nodes g ∧ v ∈ nodes g) →
  nodes (add_edges_from g es) = nodes g.
Proof.
  unfold add_edges_from. revert g.
  induction es as [|[u v] es IH]; intros g Hes; simpl; [done|].
  destruct (Hes u v) as [Hu Hv]; [left|].
  rewrite IH; rewrite nodes_add_edge_id by done; [done|].
  intros a b Hab. apply Hes. by right.
Qed.

Lemma edge_add_edges_from g es u v :
  edge (add_edges_from g es) u v ↔ edge g u v ∨ (u, v) ∈ es ∨ (v, u) ∈ es.
Proof.
  unfold add_edges_from. revert g.
  induction es as [|[a b] es IH]; intros g; simpl.
  - rewrite !elem_of_nil. naive_solver.
  - rewrite IH, edge_add_edge, !elem_of_cons. naive_solver.
Qed.

Lemma elem_of_adjacency_pairs g u v :
  (u, v) ∈ adjacency_pairs g ↔ ∃ nbrs, (u, nbrs) ∈ g ∧ v ∈ nbrs.
Proof.
  unfold adjacency_pairs. rewrite list_elem_of_bind. split.
  - intros ([k ns] & Hin & Hg). apply list_elem_of_fmap in Hin as (w & [= -> ->] & ?).
    eauto.
  - intros (ns & Hg & Hv). exists (u, ns). split; [|done].
    apply list_elem_of_fmap. eauto.
Qed.

Lemma adjacency_pairs_edge g u v :
  NoDup (nodes g) → (u, v) ∈ adjacency_pairs g ↔ edge g u v.
Proof.
  intros Hnd. rewrite elem_of_adjacency_pairs. unfold edge. split.
  - intros (ns & ?%elem_adj_get & ?); eauto.
  - intros (ns & ?%adj_get_elem & ?); eauto.
Qed.

Lemma new_Graph_eq g :
  new_Graph g = add_edges_from (foldl add_node empty (nodes g)) (adjacency_pairs g).
Proof. done. Qed.

Lemma wf_from_edges es : wf (from_edges es).
Proof. apply wf_add_edges_from, wf_empty. Qed.

Lemma wf_new_Graph g : wf (new_Graph g).
Proof.
  rewrite new_Graph_eq. apply wf_add_edges_from, wf_foldl_add_node, wf_empty.
Qed.

Lemma nodes_new_Graph g : wf g → nodes (new_Graph g) = nodes g.
Proof.
  intros Hwf. rewrite new_Graph_eq.
  assert (nodes (foldl add_node empty (nodes g)) = nodes g) as Hn.
  { rewrite nodes_foldl_add_node; [done|]. apply Hwf. }
  rewrite nodes_add_edges_from; [done|]. rewrite Hn.
  intros u v Huv%adjacency_pairs_edge; [|apply Hwf]. split.
  - by eapply edge_source.
  - by eapply wf_closed.
Qed.

Lemma edge_new_Graph g u v : wf g → edge (new_Graph g) u v ↔ edge g u v.
Proof.
  intros Hwf. rewrite new_Graph_eq, edge_add_edges_from, edge_foldl_add_node.
  rewrite !adjacency_pairs_edge by apply Hwf. split.
  - intros [(ns & [=] & _)|[?|?%(wf_sym g)]]; done.
  - auto.
Qed.

Lemma order_new_Graph g : wf g → order (new_Graph g) = order g.
Proof.
  intros Hwf. unfold order.
  rewrite <-(length_fmap fst (new_Graph g)), <-(length_fmap fst g).
  f_equal. by apply nodes_new_Graph.
Qed.

(** *** Removing a node *)

Lemma adj_del_first g u n nbrs :
  NoDup (nodes g) → adj_get g u = Some nbrs → n ∈ nbrs →
  adj_del g u n =
    Ok ((λ '(k, ns), if decide (k = u) then (k, filter (λ v, v ≠ n) ns)
                     else (k, ns)) <$> g).
Proof.
  unfold nodes. induction g as [|[k ns] g IH]; [done|].
  intros [Hk Hnd]%NoDup_cons. cbn [adj_get adj_del fmap list_fmap].
  destruct (decide (k = u)) as [->|Hne].
  - intros [= ->] Hn. unfold del_key. rewrite (bool_decide_eq_true_2 _ Hn).
    cbn. do 2 f_equal.
    etrans; [symmetry; apply list_fmap_id|].
    apply list_fmap_ext. intros i [k' ns'] Hi. rewrite decide_False; [done|].
    intros ->. apply Hk. apply list_elem_of_fmap. exists (u, ns'). split; [done|].
    by eapply list_elem_of_lookup_2.
  - intros Hu Hn. rewrite (IH Hnd Hu Hn). done.
Qed.

Lemma nodes_del_in n S g : nodes (del_in n S g) = nodes g.
Proof.
  unfold nodes, del_in. rewrite <-list_fmap_compose.
  apply list_fmap_ext. intros _ [k ns] _; simpl. by case_bool_decide.
Qed.

Lemma adj_get_del_in n S g k :
  adj_get (del_in n S g) k =
    if bool_decide (k ∈ S) then filter (λ v, v ≠ n) <$> adj_get g k
    else adj_get g k.
Proof.
  unfold del_in. induction g as [|[k' ns] g IH]; cbn [adj_get fmap list_fmap].
  - by case_bool_decide.
  - destruct (decide (k' = k)) as [->|Hne].
    + destruct (bool_decide (k ∈ S)); cbn [adj_get]; by rewrite decide_True.
    + destruct (bool_decide (k' ∈ S)); cbn [adj_get];
        rewrite decide_False by done; apply IH.
Qed.

Lemma foldl_adj_del g n S us :
  NoDup (nodes g) → NoDup (S ++ us) →
  (∀ u, u ∈ us → ∃ ns, adj_get g u = Some ns ∧ n ∈ ns) →
  foldl (λ acc u, h ← acc; adj_del h u n) (Ok (del_in n S g)) us
  = Ok (del_in n (S ++ us) g).
Proof.
  intros Hg. revert S. induction us as [|u us IH]; intros S Hnd Hus; simpl.
  - by rewrite app_nil_r.
  - destruct (Hus u) as (ns & Hu & Hn); [left|].
    assert (u ∉ S) as HuS.
    { apply NoDup_app in Hnd as (_ & Hd & _). intros ?%Hd. set_solver. }
    cbn [mbind result_bind].
    erewrite adj_del_first; [| by rewrite nodes_del_in | | done].
    2:{ rewrite adj_get_del_in. by rewrite (bool_decide_eq_false_2 _ HuS). }
    replace (_ <$> del_in n S g) with (del_in n (S ++ [u]) g).
    + rewrite IH; [by rewrite <-app_assoc| by rewrite <-app_assoc |].
      intros u' ?. apply Hus. by right.
    + unfold del_in. rewrite <-list_fmap_compose. apply list_fmap_ext.
      intros _ [k ns'] _; simpl.
      destruct (decide (k = u)) as [->|Hne].
      * rewrite bool_decide_eq_true_2 by set_solver.
        rewrite (bool_decide_eq_false_2 _ HuS). by rewrite decide_True.
      * case_bool_decide as H1; case_bool_decide as H2;
          try rewrite decide_False by done; try done; set_solver.
Qed.

Lemma filter_ne_id n ns : n ∉ ns → filter (λ v, v ≠ n) ns = ns.
Proof.
  induction ns as [|v ns IH]; [done|]. intros [? ?]%not_elem_of_cons.
  rewrite filter_cons_True by done. f_equal; auto.
Qed.

Lemma filter_del_in n S g :
  (∀ k ns, (k, ns) ∈ g → k ≠ n → k ∉ S → n ∉ ns) →
  filter (λ e, e.1 ≠ n) (del_in n S g) = without g n.
Proof.
  unfold del_in, without. induction g as [|[k ns] g IH]; intros Hg; [done|].
  cbn [fmap list_fmap]. rewrite (filter_cons (λ e, e.1 ≠ n) (k, ns)).
  assert (filter (λ e : node * list node, e.1 ≠ n)
            ((λ '(k, ns), if bool_decide (k ∈ S)
                          then (k, filter (λ v, v ≠ n) ns) else (k, ns)) <$> g)
          = (λ '(k, nbrs), (k, filter (λ v, v ≠ n) nbrs))
              <$> filter (λ e, e.1 ≠ n) g) as IH'.
  { apply IH. intros k' ns' ?. apply Hg. by right. }
  destruct (decide (k = n)) as [->|Hne]; cbn [fst].
  - rewrite decide_False by (intros ?; done).
    rewrite <-IH'. destruct (bool_decide (n ∈ S)); by rewrite filter_cons_False by auto.
  - rewrite decide_True by done. cbn [fmap list_fmap]. rewrite <-IH'.
    case_bool_decide as Hk; rewrite filter_cons_True by done; [done|].
    do 2 f_equal. symmetry. apply filter_ne_id.
    apply (Hg k ns); [left|done..].
Qed.

Lemma remove_node_without g n :
  wf g → n ∈ nodes g → remove_node g n = Ok (without g n).
Proof.
  intros Hwf Hn. unfold remove_node.
  apply adj_get_is_Some in Hn as [nbrs Hnbrs]. rewrite Hnbrs.
  assert (del_in n [] g = g) as Hnil.
  { unfold del_in. etrans; [|apply list_fmap_id]. apply list_fmap_ext.
    intros _ [k ns] _. rewrite bool_decide_eq_false_2; [done|]. apply not_elem_of_nil. }
  rewrite <-Hnil at 1. rewrite foldl_adj_del; [|apply Hwf|by eapply wf_nbrs|].
  2:{ intros u Hu. apply (wf_sym g Hwf n u). by exists nbrs. }
  cbn. f_equal. apply filter_del_in. intros k ns Hk _ HkS Hnk. apply HkS.
  assert (edge g n k) as (ns' & ? & ?); [|by simplify_eq].
  apply (wf_sym g Hwf). exists ns. split; [|done].
  apply elem_adj_get; [apply Hwf|done].
Qed.

Lemma nodes_without g n : nodes (without g n) = filter (λ k, k ≠ n) (nodes g).
Proof.
  unfold without, nodes. induction g as [|[k ns] g IH]; [done|].
  cbn [fmap list_fmap]. rewrite (filter_cons _ (k, ns)), (filter_cons _ k).
  cbn [fst]. case_decide; cbn [fmap list_fmap]; by rewrite IH.
Qed.

Lemma adj_get_without g n k :
  adj_get (without g n) k =
    if decide (k = n) then None else filter (λ v, v ≠ n) <$> adj_get g k.
Proof.
  unfold without. induction g as [|[k' ns] g IH]; [by case_decide|].
  rewrite (filter_cons _ (k', ns)). cbn [fst adj_get].
  destruct (decide (k' ≠ n)) as [Hne|Heq%dec_stable]; cbn [fmap list_fmap adj_get].
  - destruct (decide (k' = k)) as [->|?]; [by rewrite decide_False|apply IH].
  - subst k'. rewrite IH. destruct (decide (n = k)) as [->|?]; [|done].
    by case_decide.
Qed.

Lemma edge_without g n u v :
  edge (without g n) u v ↔ edge g u v ∧ u ≠ n ∧ v ≠ n.
Proof.
  unfold edge. setoid_rewrite adj_get_without. case_decide as Hu.
  - split; [intros (? & [=] & _) | intros (_ & ? & _); done].
  - destruct (adj_get g u) as [ns|]; simpl; [|naive_solver]. split.
    + intros (? & [= <-] & [? ?]%list_elem_of_filter). eauto.
    + intros ((? & [= <-] & ?) & _ & ?). eexists; split; [done|].
      by apply list_elem_of_filter.
Qed.

Lemma wf_without g n : wf g → wf (without g n).
Proof.
  intros [Hn Hd Hc Hs]. split.
  - rewrite nodes_without. by apply NoDup_filter.
  - intros u nbrs. rewrite adj_get_without. case_decide; [done|].
    destruct (adj_get g u) eqn:Hu; simpl; intros [= <-].
    apply NoDup_filter; eauto.
  - intros u v (Huv & ? & ?)%edge_without. rewrite nodes_without.
    apply list_elem_of_filter; eauto.
  - intros u v. rewrite !edge_without. naive_solver.
Qed.

Lemma order_without g n :
  NoDup (nodes g) → n ∈ nodes g → S (order (without g n)) = order g.
Proof.
  intros Hnd Hn. unfold order.
  rewrite <-(length_fmap fst (without g n)), <-(length_fmap fst g).
  fold (nodes (without g n)) (nodes g). rewrite nodes_without.
  revert Hnd Hn. generalize (nodes g) as l. induction l as [|k l IH]; intros Hnd Hn.
  - by apply elem_of_nil in Hn.
  - apply NoDup_cons in Hnd as [Hk Hnd]. rewrite filter_cons.
    destruct (decide (k ≠ n)) as [Hne|Heq%dec_stable].
    + apply elem_of_cons in Hn as [->|Hn]; [done|]. simpl. f_equal. auto.
    + subst k. by rewrite filter_ne_id.
Qed.

(** *** The node [attack_degree] picks *)

Lemma foldl_max_ge x xs : x ≤ foldl Nat.max x xs ∧ ∀ y, y ∈ xs → y ≤ foldl Nat.max x xs.
Proof.
  revert x. induction xs as [|z xs IH]; intros x; simpl.
  - split; [done|]. by intros y ?%elem_of_nil.
  - destruct (IH (Nat.max x z)) as [H1 H2]. split; [lia|].
    intros y [->|?]%elem_of_cons; [lia|auto].
Qed.

Lemma foldl_max_elem x xs : foldl Nat.max x xs ∈ x :: xs.
Proof.
  revert x. induction xs as [|z xs IH]; intros x; simpl; [left|].
  pose proof (IH (Nat.max x z)) as [Heq|?]%elem_of_cons; [|right; by right].
  rewrite Heq. destruct (Nat.max_spec x z) as [[? Hm]|[? Hm]]; rewrite Hm; [right|]; left.
Qed.

Lemma Py_max_Ok xs : xs ≠ [] →
  ∃ m, Py.max xs = Ok m ∧ m ∈ xs ∧ ∀ y, y ∈ xs → y ≤ m.
Proof.
  destruct xs as [|x xs]; [done|]. intros _. eexists; split; [done|].
  split; [apply foldl_max_elem|].
  destruct (foldl_max_ge x xs) as [H1 H2].
  intros y [->|?]%elem_of_cons; auto.
Qed.

Lemma nodes_degree g : (degree g).*1 = nodes g.
Proof.
  unfold degree, nodes. rewrite <-list_fmap_compose.
  apply list_fmap_ext. by intros _ [k ns] _.
Qed.

Lemma attack_degree_pick_Ok g :
  wf g → g ≠ [] → ∃ k, attack_degree_pick g = Ok k ∧ k ∈ nodes g.
Proof.
  intros Hwf Hne. unfold attack_degree_pick.
  destruct (Py_max_Ok (degree (new_Graph g)).*2) as (m & -> & Hm & _).
  { intros Hnil%fmap_nil_inv%fmap_nil_inv.
    pose proof (order_new_Graph g Hwf) as Ho. unfold order in Ho.
    rewrite Hnil in Ho. by destruct g. }
  cbn [mbind result_bind].
  apply list_elem_of_fmap in Hm as ([k d] & -> & Hkd). unfold Py.getitem.
  destruct (filter _ _) as [|[k' d'] l] eqn:Hf.
  - exfalso. eapply (filter_nil_not_elem_of _ _ (k, d)); done.
  - cbn. exists k'. split; [done|].
    rewrite <-(nodes_new_Graph g Hwf), <-nodes_degree.
    apply list_elem_of_fmap. exists (k', d'). split; [done|].
    eapply list_elem_of_filter. rewrite Hf. left.
Qed.

Lemma attack_degree_value_Ok g :
  wf g → g ≠ [] →
  ∃ k, attack_degree_pick g = Ok k ∧ k ∈ nodes g
       ∧ attack_degree_value g = Ok (without (new_Graph g) k).
Proof.
  intros Hwf Hne. destruct (attack_degree_pick_Ok g Hwf Hne) as (k & Hk & Hin).
  exists k. split_and!; [done..|]. unfold attack_degree_value. rewrite Hk.
  cbn [mbind result_bind]. apply remove_node_without; [apply wf_new_Graph|].
  by rewrite nodes_new_Graph.
Qed.

Lemma attack_degree_value_empty : attack_degree_value [] = Raise ValueError.
Proof. done. Qed.

Lemma attack_degree_value_order g g' :
  wf g → attack_degree_value g = Ok g' → wf g' ∧ S (order g') = order g.
Proof.
  intros Hwf Hg'. destruct g as [|e g0]; [done|].
  destruct (attack_degree_value_Ok (e :: g0)) as (k & _ & Hk & Heq); [done..|].
  rewrite Heq in Hg'. injection Hg' as <-. split.
  - apply wf_without, wf_new_Graph.
  - rewrite order_without, order_new_Graph; [done..|apply wf_new_Graph|].
    by rewrite nodes_new_Graph.
Qed.

End AdjacencyFacts.

(** ** Breadth-first search computes shortest-path distances *)

Section BreadthFirst.

Import nx Spec.
Context (g : nx.Graph) (Hclosed : ∀ u v, edge g u v → v ∈ nodes g).
Implicit Types (s t u v : nx.node) (seen : list (nx.node * nat))
               (th next new frontier : list nx.node) (L d fuel : nat).

Lemma level_keys new L : ((λ v, (v, L)) <$> new).*1 = new.
Proof.
  rewrite <-list_fmap_compose. etrans; [|apply list_fmap_id].
  by apply list_fmap_ext.
Qed.

(** One level: the unseen nodes of [th], each once, get level [L]; their
    neighbours join [next]. *)
Lemma sssp_level_spec L th seen next :
  (∀ v, v ∈ th → v ∈ nodes g) →
  ∃ new next',
    sssp_level g L th seen next = Ok (seen ++ ((λ v, (v, L)) <$> new), next')
    ∧ NoDup new
    ∧ (∀ v, v ∈ new ↔ v ∈ th ∧ v ∉ seen.*1)
    ∧ (∀ t, t ∈ next' ↔ t ∈ next ∨ ∃ v, v ∈ new ∧ edge g v t).
Proof.
  revert seen next. induction th as [|v th IH]; intros seen next Hth.
  - exists [], next. rewrite app_nil_r. split_and!; [done|constructor|..].
    + intros v. rewrite !elem_of_nil. naive_solver.
    + intros t. setoid_rewrite elem_of_nil. naive_solver.
  - cbn [sssp_level]. case_bool_decide as Hv.
    + destruct (IH seen next) as (new & next' & -> & Hnd & Hnew & Hnext).
      { intros ??. apply Hth. by right. }
      exists new, next'. split_and!; [done..| |done].
      intros v'. rewrite Hnew, elem_of_cons. naive_solver.
    + destruct (adj_Ok g v) as (nbrs & -> & Hnbrs); [apply Hth; left|].
      cbn [mbind result_bind].
      destruct (IH (seen ++ [(v, L)]) (update next nbrs))
        as (new & next' & -> & Hnd & Hnew & Hnext).
      { intros ??. apply Hth. by right. }
      assert (∀ v', v' ∉ (seen ++ [(v, L)]).*1 ↔ (v' ∉ seen.*1) ∧ v' ≠ v) as Hseen.
      { intros v'. rewrite fmap_app, not_elem_of_app. cbn.
        by rewrite list_elem_of_singleton. }
      exists (v :: new), next'. split_and!.
      * by rewrite <-app_assoc.
      * constructor; [|done]. rewrite Hnew, Hseen. naive_solver.
      * intros v'. rewrite !elem_of_cons, Hnew, Hseen.
        destruct (decide (v' = v)); naive_solver.
      * intros t. rewrite Hnext, elem_of_update.
        setoid_rewrite elem_of_cons. unfold edge at 2. split.
        -- intros [[?|?]|(w & ? & ?)]; eauto 8.
        -- intros [?|(w & [->|?] & Hw)]; eauto.
           destruct Hw as (ns & ? & ?). simplify_eq. auto.
Qed.

Lemma bfs_inv_start s : s ∈ nodes g → bfs_inv g s 0 [] [s].
Proof.
  intros Hs. split; cbn.
  - constructor.
  - by intros ?? ?%elem_of_nil.
  - lia.
  - intros t ->%list_elem_of_singleton. constructor.
  - intros t Hw. inversion Hw. left. by apply list_elem_of_singleton.
  - by intros t ->%list_elem_of_singleton.
  - by intros ? ?%elem_of_nil.
Qed.

Lemma bfs_inv_step s L seen frontier new next' :
  bfs_inv g s L seen frontier →
  NoDup new →
  (∀ v, v ∈ new ↔ v ∈ frontier ∧ v ∉ seen.*1) →
  (∀ t, t ∈ next' ↔ t ∈ [] ∨ ∃ v, v ∈ new ∧ edge g v t) →
  bfs_inv g s (S L) (seen ++ ((λ v, (v, L)) <$> new)) next'.
Proof.
  intros [Hnd Hsound Hcompl Hfront Hnext Hnodes Hsn] Hnew_nd Hnew Hnext'.
  assert (∀ t, t ∈ (seen ++ ((λ v, (v, L)) <$> new)).*1 ↔ t ∈ seen.*1 ∨ t ∈ new)
    as Hkeys.
  { intros t. by rewrite fmap_app, level_keys, elem_of_app. }
  assert (∀ t d, walk g s t d → d < S L →
                 t ∈ (seen ++ ((λ v, (v, L)) <$> new)).*1) as Hcompl'.
  { intros t d Hw Hd. apply Hkeys.
    destruct (decide (d < L)) as [?|?]; [left; eauto|].
    assert (d = L) as -> by lia.
    destruct (Hnext t Hw) as [Hf|?]; [|by left].
    destruct (decide (t ∈ seen.*1)); [by left|right]. by apply Hnew. }
  split.
  - rewrite fmap_app, level_keys. apply NoDup_app. split_and!; [done| |done].
    intros t ? [_ ?]%Hnew. done.
  - intros t d [Hin|Hin]%elem_of_app.
    + destruct (Hsound t d Hin) as (? & ? & ?). split_and!; [done|lia|done].
    + apply list_elem_of_fmap in Hin as (v & [= -> ->] & [Hf Hns]%Hnew).
      split_and!; [by apply Hfront|lia|].
      intros d' Hw. destruct (decide (d' < L)); [|lia].
      destruct Hns. eauto.
  - done.
  - intros t [[]%elem_of_nil|(v & [Hv _]%Hnew & He)]%Hnext'.
    econstructor; [by apply Hfront|done].
  - intros t Hw. inversion Hw as [|u t' n Hu He]; subst.
    assert (u ∈ (seen ++ ((λ v, (v, L)) <$> new)).*1) as [Hold|Hn]%Hkeys
      by (eapply Hcompl'; [done|lia]).
    + right. apply list_elem_of_fmap in Hold as ([u' du] & -> & Hin).
      destruct (Hsound u' du Hin) as (Hwu & ? & _).
      apply (Hcompl' t (S du)); [by econstructor|lia].
    + left. apply Hnext'. right. eauto.
  - intros t [[]%elem_of_nil|(v & _ & He)]%Hnext'. eauto.
  - intros t [?|[? _]%Hnew]%Hkeys; auto.
Qed.

(** When the frontier is empty every node a walk reaches is in [seen]. *)
Lemma bfs_inv_closed s L seen t n :
  bfs_inv g s L seen [] → walk g s t n → t ∈ seen.*1.
Proof.
  intros [Hnd Hsound Hcompl Hfront Hnext Hnodes Hsn].
  assert (∀ t d, walk g s t d → d ≤ L → t ∈ seen.*1) as Hle.
  { intros t' d Hw Hd. destruct (decide (d < L)); [eauto|].
    assert (d = L) as -> by lia.
    by destruct (Hnext t' Hw) as [?%elem_of_nil|?]. }
  induction 1 as [|u t n Hw IH He].
  - apply (Hle s 0); [constructor|lia].
  - apply list_elem_of_fmap in IH as ([u' du] & -> & Hin).
    destruct (Hsound u' du Hin) as (Hwu & ? & _).
    apply (Hle t (S du)); [by econstructor|lia].
Qed.

Lemma seen_bounded seen :
  NoDup seen.*1 → (∀ t, t ∈ seen.*1 → t ∈ nodes g) → length seen ≤ length g.
Proof.
  intros Hnd Hsub. rewrite <-(length_fmap fst seen), <-(length_fmap fst g).
  apply submseteq_length, NoDup_submseteq; done.
Qed.

(** The loop ends within its fuel and returns exactly the distances. *)
Lemma sssp_loop_spec fuel s L seen frontier :
  bfs_inv g s L seen frontier →
  frontier = [] ∨ length g < fuel + length seen →
  ∃ m, sssp_loop fuel g seen L frontier = Ok m
       ∧ NoDup m.*1 ∧ (∀ t d, (t, d) ∈ m ↔ dist g s t d)
       ∧ ∀ t n, walk g s t n → t ∈ m.*1.
Proof.
  revert L seen frontier.
  induction fuel as [|fuel IH]; intros L seen frontier Hinv Hfuel.
  - destruct frontier as [|v frontier].
    + exists seen. split_and!; [done|apply Hinv| |intros ??; by eapply bfs_inv_closed].
      intros t d. split.
      * intros (? & _ & ?)%(inv_sound _ _ _ _ _ Hinv). by split.
      * intros [Hw Hmin].
        pose proof (bfs_inv_closed _ _ _ _ _ Hinv Hw) as Hin.
        apply list_elem_of_fmap in Hin as ([t' d'] & -> & Hin).
        destruct (inv_sound _ _ _ _ _ Hinv _ _ Hin) as (Hw' & _ & Hmin').
        cbn in *. pose proof (Hmin _ Hw'). pose proof (Hmin' _ Hw).
        by replace d with d' by lia.
    + destruct Hfuel as [?|Hfuel]; [done|].
      pose proof (seen_bounded seen (inv_nodup _ _ _ _ _ Hinv)
                    (inv_seen_nodes _ _ _ _ _ Hinv)). cbn in Hfuel. lia.
  - destruct frontier as [|v frontier].
    + destruct (IH L seen []) as (m & Hm & ?); [done|by left|].
      exists m. by destruct fuel.
    + cbn [sssp_loop].
      destruct (sssp_level_spec L (v :: frontier) seen [])
        as (new & next' & -> & Hnd & Hnew & Hnext); [apply Hinv|].
      cbn [mbind result_bind]. apply IH.
      * by eapply bfs_inv_step.
      * destruct new as [|v' new].
        -- left. destruct next' as [|t next']; [done|].
           destruct (proj1 (Hnext t)) as [[]%elem_of_nil|(? & []%elem_of_nil & _)].
           left.
        -- right. destruct Hfuel as [?|Hfuel]; [done|].
           rewrite length_app, length_fmap. cbn in *. lia.
Qed.

Lemma single_source_shortest_path_length_spec s :
  s ∈ nodes g →
  ∃ m, single_source_shortest_path_length g s = Ok m
       ∧ NoDup m.*1 ∧ (∀ t d, (t, d) ∈ m ↔ dist g s t d)
       ∧ ∀ t n, walk g s t n → t ∈ m.*1.
Proof.
  intros Hs. unfold single_source_shortest_path_length, has_node.
  rewrite (bool_decide_eq_true_2 _ Hs).
  apply sssp_loop_spec; [by apply bfs_inv_start|].
  right. unfold order. cbn. lia.
Qed.

End BreadthFirst.

(** ** The path-length metric *)

Section PathLength.

Import nx Spec.

Lemma Qred_inject_Z z : Qred (inject_Z z) = inject_Z z.
Proof. unfold inject_Z. apply Qcanon.Qred_identity. apply Z.gcd_1_r. Qed.

Lemma fadd_inject_Z a b : Py.fadd (inject_Z a) (inject_Z b) = inject_Z (a + b).
Proof.
  unfold Py.fadd. f_equal. rewrite <-(Qred_inject_Z (a + b)).
  apply Qred_complete. by rewrite inject_Z_plus.
Qed.

Lemma Py_sum_sum_list xs : Py.sum xs = sum_list xs.
Proof.
  unfold Py.sum. assert (∀ a, foldl Nat.add a xs = a + sum_list xs) as H.
  { induction xs as [|x xs IH]; intros a; simpl; [lia|]. rewrite IH. lia. }
  apply H.
Qed.

Lemma foldl_max_list a xs : foldl Nat.max a xs = Nat.max a (max_list xs).
Proof.
  revert a. induction xs as [|x xs IH]; intros a; simpl; [lia|].
  rewrite IH. lia.
Qed.

Lemma max_list_app (xs ys : list nat) :
  max_list (xs ++ ys) = Nat.max (max_list xs) (max_list ys).
Proof. induction xs as [|x xs IH]; simpl; [done|]. rewrite IH. lia. Qed.

Context (g : nx.Graph) (Hwf : wf g).

Lemma rows_values s m : (rows s m).*2 = m.*2.
Proof.
  unfold rows. rewrite <-list_fmap_compose. apply list_fmap_ext.
  by intros _ [t d] _.
Qed.

Lemma elem_of_rows s m s' t d : (s', t, d) ∈ rows s m ↔ s' = s ∧ (t, d) ∈ m.
Proof.
  unfold rows. rewrite list_elem_of_fmap. split.
  - intros ([t' d'] & [= -> -> ->] & ?). done.
  - intros [-> ?]. by exists (t, d).
Qed.

Lemma path_length_loop_spec ns mx z :
  NoDup ns → (∀ n, n ∈ ns → n ∈ nodes g) →
  ∃ tbl,
    path_length_loop g ns mx (inject_Z z)
    = Ok (Nat.max mx (max_list tbl.*2),
          Py.Finite (inject_Z (z + Z.of_nat (sum_list tbl.*2))))
    ∧ NoDup tbl.*1
    ∧ ∀ s t d, (s, t, d) ∈ tbl ↔ s ∈ ns ∧ dist g s t d.
Proof.
  revert mx z. induction ns as [|n ns IH]; intros mx z Hnd Hns.
  - exists []. cbn. split_and!.
    + do 4 f_equal; lia.
    + constructor.
    + intros s t d. rewrite !elem_of_nil. naive_solver.
  - apply NoDup_cons in Hnd as [Hn Hnd]. cbn [path_length_loop].
    destruct (single_source_shortest_path_length_spec g (wf_closed g Hwf) n)
      as (m & -> & Hm_nd & Hm & _); [apply Hns; left|].
    cbn [mbind result_bind].
    assert ((n, 0) ∈ m) as Hn0.
    { apply Hm. split; [constructor|lia]. }
    destruct m.*2 as [|d0 ds] eqn:Hvals.
    { apply fmap_nil_inv in Hvals. subst m. by apply elem_of_nil in Hn0. }
    cbn [Py.max mbind result_bind]. rewrite foldl_max_list.
    change (Nat.max d0 (max_list ds)) with (max_list (d0 :: ds)).
    rewrite <-Hvals. unfold Py.of_nat. rewrite fadd_inject_Z, Py_sum_sum_list.
    destruct (IH (if (mx <? max_list m.*2)%nat then max_list m.*2 else mx)
                 (z + Z.of_nat (sum_list m.*2))%Z) as (tbl & -> & Htbl_nd & Htbl).
    { done. } { intros ??. apply Hns. by right. }
    exists (rows n m ++ tbl). split_and!.
    + rewrite !fmap_app, rows_values, max_list_app, sum_list_with_app.
      do 2 f_equal; [|do 2 f_equal; lia].
      destruct (Nat.ltb_spec mx (max_list m.*2)); lia.
    + rewrite fmap_app. apply NoDup_app. split_and!; [| |done].
      * replace (rows n m).*1 with (pair n <$> m.*1).
        -- apply NoDup_fmap_2; [|done]. by intros ?? [=].
        -- unfold rows. rewrite <-!list_fmap_compose. apply list_fmap_ext.
           by intros _ [??] _.
      * intros [s t] ([[s' t'] d] & [= <- <-] & [-> _]%elem_of_rows)%list_elem_of_fmap.
        intros ([[s' t'] d'] & [= <- <-] & [? _]%Htbl)%list_elem_of_fmap. done.
    + intros s t d. rewrite elem_of_app, elem_of_rows, Htbl, Hm, elem_of_cons.
      naive_solver.
Qed.

Lemma distance_table_exists :
  ∃ tbl, distance_table g tbl ∧
    diameter_and_avg_path_length g =
      Ok (max_list tbl.*2,
          Py.Finite
            (if decide (order g ≤ 1) then 0%Q
             else Qred (inject_Z (Z.of_nat (sum_list tbl.*2))
                        / inject_Z (Z.of_nat (order g) * (Z.of_nat (order g) - 1))))).
Proof.
  destruct (path_length_loop_spec (nodes g) 0 0) as (tbl & Hloop & Hnd & Htbl);
    [apply Hwf|done|].
  exists tbl. split; [done|]. unfold diameter_and_avg_path_length.
  change (inject_Z 0) with 0%Q in Hloop. rewrite Hloop. cbn [mbind result_bind].
  rewrite Z.add_0_l, Nat.max_0_l. unfold Py.fdiv, Py.of_int, Py.is_zero.
  case_decide as Ho.
  - replace (Z.of_nat (order g) * (Z.of_nat (order g) - 1))%Z with 0%Z by nia.
    done.
  - destruct (Qeq_bool _ 0) eqn:Hz; [|done].
    apply Qeq_bool_eq in Hz. unfold Qeq in Hz. cbn in Hz. nia.
Qed.

End PathLength.

(** ** Connected components *)

Section Components.

Import nx Spec.
Context (g : nx.Graph) (Hwf : wf g).
Implicit Types (s t u v : nx.node) (seen : list (nx.node * nat))
               (c th next vs : list nx.node) (L fuel : nat).

(** [_plain_bfs] is the level search without the levels. *)
Lemma bfs_level_sssp L th seen next :
  bfs_level g th seen.*1 next =
    match sssp_level g L th seen next with
    | Ok (a, b) => Ok (a.*1, b)
    | Raise e => Raise e
    | Timeout => Timeout
    end.
Proof.
  revert seen next. induction th as [|v th IH]; intros seen next; [done|].
  cbn [bfs_level sssp_level]. case_bool_decide; [apply IH|].
  destruct (adj g v) as [nbrs| |]; [|done..]. cbn [mbind result_bind].
  rewrite <-IH. by rewrite fmap_app.
Qed.

Lemma bfs_loop_sssp fuel L seen next :
  bfs_loop fuel g seen.*1 next =
    match sssp_loop fuel g seen L next with
    | Ok m => Ok m.*1
    | Raise e => Raise e
    | Timeout => Timeout
    end.
Proof.
  revert L seen next. induction fuel as [|fuel IH]; intros L seen next;
    destruct next as [|v next]; try done.
  cbn [bfs_loop sssp_loop]. rewrite (bfs_level_sssp L).
  destruct (sssp_level _ _ _ _ _) as [[a b]| |]; [|done..].
  cbn [mbind result_bind]. apply IH.
Qed.

Lemma reachable_nodes s t : s ∈ nodes g → reachable g s t → t ∈ nodes g.
Proof.
  intros Hs [n Hw]. induction Hw; [done|]. by eapply wf_closed.
Qed.

Lemma plain_bfs_spec v :
  v ∈ nodes g →
  ∃ c, plain_bfs g v = Ok c ∧ NoDup c ∧ ∀ t, t ∈ c ↔ reachable g v t.
Proof.
  intros Hv. unfold plain_bfs.
  change (@nil node) with ((@nil (node * nat)).*1) at 1.
  rewrite (bfs_loop_sssp _ 0).
  destruct (sssp_loop_spec g (wf_closed g Hwf) (S (order g)) v 0 [] [v])
    as (m & -> & Hnd & Hm & Hall).
  { by apply bfs_inv_start. } { right. unfold order. cbn. lia. }
  exists m.*1. split_and!; [done..|]. intros t. split.
  - intros ([t' d] & -> & [Hw _]%Hm)%list_elem_of_fmap. by exists d.
  - intros [n Hw]. eauto.
Qed.

Lemma components_from_spec vs (done_ : list nx.node) :
  (∀ v, v ∈ vs → v ∈ nodes g) →
  ∃ cs, components_from g vs done_ = Ok cs
        ∧ Forall (is_component g) cs
        ∧ ((∃ v, v ∈ vs ∧ v ∉ done_) → cs ≠ [])
        ∧ ∀ v, v ∈ vs → v ∈ done_ ∨ ∃ c, c ∈ cs ∧ v ∈ c.
Proof.
  revert done_. induction vs as [|v vs IH]; intros done_ Hvs.
  - exists []. split_and!; [done|constructor| |].
    + by intros (v & ?%elem_of_nil & _).
    + by intros v ?%elem_of_nil.
  - cbn [components_from]. case_bool_decide as Hv.
    + destruct (IH done_) as (cs & -> & Hcs & Hne & Hcov).
      { intros ??. apply Hvs. by right. }
      exists cs. split_and!; [done..| |].
      * intros (v' & [->|?]%elem_of_cons & ?); [done|]. apply Hne. eauto.
      * intros v' [->|?]%elem_of_cons; auto.
    + destruct (plain_bfs_spec v) as (c & -> & Hnd & Hc); [apply Hvs; left|].
      cbn [mbind result_bind].
      destruct (IH (update done_ c)) as (cs & -> & Hcs & _ & Hcov).
      { intros ??. apply Hvs. by right. }
      exists (c :: cs). cbn. split_and!; [done| |done|].
      * constructor; [|done]. split; [done|]. exists v. split; [|done].
        apply Hvs. left.
      * intros v' [->|Hv']%elem_of_cons.
        -- right. exists c. split; [left|]. apply Hc. exists 0. constructor.
        -- destruct (Hcov v' Hv') as [[?|?]%elem_of_update|(c' & ? & ?)].
           ++ by left.
           ++ right. exists c. split; [left|done].
           ++ right. exists c'. split; [by right|done].
Qed.

Lemma connected_components_spec :
  ∃ cs, connected_components g = Ok cs
        ∧ Forall (is_component g) cs
        ∧ (g ≠ [] → cs ≠ [])
        ∧ ∀ v, v ∈ nodes g → ∃ c, c ∈ cs ∧ v ∈ c.
Proof.
  destruct (components_from_spec (nodes g) []) as (cs & Hcs & Hall & Hne & Hcov);
    [done|].
  exists cs. split_and!; [done..| |].
  - intros Hg. apply Hne. destruct g as [|[k ns] g']; [done|].
    exists k. split; [left|apply not_elem_of_nil].
  - intros v Hv. by destruct (Hcov v Hv) as [?%elem_of_nil|?].
Qed.

Lemma is_component_nodes c t : is_component g c → t ∈ c → t ∈ nodes g.
Proof.
  intros (_ & v & Hv & Hc) Ht%Hc. by eapply reachable_nodes.
Qed.

(** The node count of the induced subgraph is the size of the
    component. *)
Lemma order_subgraph c : is_component g c → order (subgraph g c) = length c.
Proof.
  intros Hc. unfold order, subgraph. rewrite length_fmap.
  assert (length (filter (λ e : node * list node, e.1 ∈ c) g)
          = length (filter (λ k, k ∈ c) (nodes g))) as ->.
  { unfold nodes. clear. induction g as [|[k ns] g' IH]; [done|].
    rewrite (filter_cons _ (k, ns)). cbn [fmap list_fmap fst].
    rewrite (filter_cons _ k). case_decide; simpl; by rewrite IH. }
  apply Permutation_length, NoDup_Permutation.
  - apply NoDup_filter, Hwf.
  - apply Hc.
  - intros t. rewrite list_elem_of_filter. split; [by intros [? _]|].
    intros ?. split; [done|]. by eapply is_component_nodes.
Qed.

End Components.

Section Sorted.

Context {A : Type} (key : A → nat).

Lemma head_insert_desc x l :
  head (Py.insert_desc key x l) =
    match head l with
    | Some y => if (key x <? key y)%nat then Some y else Some x
    | None => Some x
    end.
Proof.
  destruct l as [|y l]; [done|]. cbn [Py.insert_desc head].
  by destruct (key x <? key y)%nat.
Qed.

(** [sorted(xs, key=key, reverse=True)[0]] is the first element of [xs]
    with the largest key. *)
Lemma sorted_reverse_head xs :
  xs ≠ [] →
  ∃ x i, head (Py.sorted_reverse key xs) = Some x
         ∧ xs !! i = Some x
         ∧ (∀ y, y ∈ xs → key y ≤ key x)
         ∧ ∀ j y, j < i → xs !! j = Some y → key y < key x.
Proof.
  induction xs as [|x xs IH]; [done|]. intros _.
  change (Py.sorted_reverse key (x :: xs))
    with (Py.insert_desc key x (Py.sorted_reverse key xs)).
  rewrite head_insert_desc. destruct xs as [|x' xs'].
  - exists x, 0. cbn. split_and!; [done..| |lia].
    by intros y ->%list_elem_of_singleton.
  - destruct IH as (h & i & -> & Hi & Hmax & Hfirst); [done|].
    destruct (Nat.ltb_spec (key x) (key h)).
    + exists h, (S i). split_and!; [done..| |].
      * intros y [->|?]%elem_of_cons; [lia|auto].
      * intros [|j] y Hj; cbn; [intros [= <-]; lia|]. apply Hfirst. lia.
    + exists x, 0. split_and!; [done..| |lia].
      intros y [->|Hy]%elem_of_cons; [lia|]. specialize (Hmax y Hy). lia.
Qed.

End Sorted.

(** ** The giant-component metric *)

Section GiantComponent.

Import nx Spec.

Lemma fmul_inject_Z_1 z : Py.fmul (inject_Z z) 1%Q = inject_Z z.
Proof.
  unfold Py.fmul. f_equal. rewrite <-(Qred_inject_Z z) at 2.
  apply Qred_complete, Qmult_1_r.
Qed.

Lemma fdiv_pos (a : Q) (n : nat) :
  0 < n → Py.fdiv a (Py.of_nat n) = Ok (Py.Finite (Qred (a / Py.of_nat n))).
Proof.
  intros Hn. unfold Py.fdiv, Py.of_nat, Py.is_zero.
  destruct (Qeq_bool _ 0) eqn:Hz; [|done].
  apply Qeq_bool_eq in Hz. unfold Qeq in Hz. cbn in Hz. lia.
Qed.

(** On a graph with a node the metric picks the first component with
    the most nodes and divides its edge count by the node count of the
    graph. *)
Lemma giant_component_fraction_spec (g : nx.Graph) :
  wf g → g ≠ [] →
  ∃ cs c i,
    connected_components g = Ok cs
    ∧ Forall (is_component g) cs
    ∧ cs !! i = Some c
    ∧ (∀ c', c' ∈ cs → length c' ≤ length c)
    ∧ (∀ j c', j < i → cs !! j = Some c' → length c' < length c)
    ∧ giant_component_fraction g
      = Ok (Py.Finite (Qred (Py.of_nat (size (subgraph g c)) / Py.of_nat (order g)))).
Proof.
  intros Hwf Hne.
  destruct (connected_components_spec g Hwf) as (cs & Hcs & Hall & Hcne & _).
  destruct (sorted_reverse_head order (map (subgraph g) cs))
    as (x & i & Hhead & Hi & Hmax & Hfirst).
  { intros ?%fmap_nil_inv. by apply Hcne. }
  change (map (subgraph g) cs) with (subgraph g <$> cs) in Hi.
  apply list_lookup_fmap_Some in Hi as (c & -> & Hc).
  assert (∀ c', c' ∈ cs → order (subgraph g c') = length c') as Hlen.
  { intros c' Hc'. apply order_subgraph; [done|].
    by eapply Forall_forall in Hall. }
  exists cs, c, i. split_and!; [done..| | |].
  - intros c' Hc'. rewrite <-!Hlen; [|by eapply list_elem_of_lookup_2|done].
    apply Hmax. change (map (subgraph g) cs) with (subgraph g <$> cs).
    apply list_elem_of_fmap. eauto.
  - intros j c' Hj Hc'.
    rewrite <-!Hlen; [|by eapply list_elem_of_lookup_2..].
    apply (Hfirst j); [done|].
    change (map (subgraph g) cs) with (subgraph g <$> cs).
    by rewrite list_lookup_fmap, Hc'.
  - unfold giant_component_fraction, connected_component_subgraphs.
    rewrite Hcs. cbn [mbind result_bind]. unfold Py.getitem.
    rewrite <-head_lookup, Hhead. cbn [mbind result_bind].
    unfold Py.of_nat at 2. rewrite fmul_inject_Z_1.
    unfold nodes. rewrite length_fmap. apply fdiv_pos.
    destruct g; [done|]. cbn. lia.
Qed.

Lemma giant_component_fraction_Ok (g : nx.Graph) :
  wf g → g ≠ [] → ∃ q, giant_component_fraction g = Ok q.
Proof.
  intros Hwf Hne.
  destruct (giant_component_fraction_spec g Hwf Hne) as (?&?&?&?&?&?&?&?&->).
  eauto.
Qed.

End GiantComponent.

Lemma comprehension_Ok {A B} (f : A → result B) (h : A → B) xs :
  (∀ x, x ∈ xs → f x = Ok (h x)) → comprehension f xs = Ok (h <$> xs).
Proof.
  induction xs as [|x xs IH]; intros Hf; [done|]. cbn [comprehension].
  rewrite Hf by left. cbn [mbind result_bind]. rewrite IH; [done|].
  intros y ?. apply Hf. by right.
Qed.

(** ** The attack loop *)

Section AttackLoop.

Context {Rng : Type}.
Implicit Types (s : Store Rng) (fr : AttackFrame) (g : nx.Graph) (f i : Z).

Lemma attack_body_cases f i fr s gi fr' s' r :
  heap s !! graph fr = Some gi →
  attack_body f i (fr, s) = ((fr', s'), r) →
  files s' = files s
  ∧ attack_body_outcome f i gi fr fr' r
  ∧ ∀ g1, attack_degree_value gi = Ok g1 → heap s' !! graph fr' = Some g1.
Proof.
  intros Hgi. unfold attack_body.
  cbv [mbind M_bind gets on_store local modify lift measure]. cbn [fst snd].
  rewrite (attack_degree_eq _ gi s Hgi).
  destruct (attack_degree_value gi) as [g1| |] eqn:Hval;
    cbn [mbind result_bind new_object].
  2,3: intros [= <- <- <-]; split_and!; [done| |done];
       apply removal_raised; rewrite ?Hval; done.
  assert (∀ h : list nx.Graph, (h ++ [g1]) !! length h = Some g1) as Hnew.
  { intros h. by rewrite lookup_app_r, Nat.sub_diag by lia. }
  destruct (Py.imod i f) as [m| |] eqn:Hmod.
  2,3: intros [= <- <- <-]; cbn; split_and!; [done| |by intros ? [= <-]];
       eapply modulo_raised; rewrite ?Hmod; done.
  case_decide as Hm; [subst m|].
  2:{ intros [= <- <- <-]; cbn; split_and!; [done| |by intros ? [= <-]].
      by eapply not_sampled. }
  unfold deref. cbn [fst snd heap]. rewrite Hnew.
  destruct (diameter_and_avg_path_length g1) as [[diameter avg]| |] eqn:Hd.
  2,3: intros [= <- <- <-]; cbn; split_and!; [done| |by intros ? [= <-]];
       eapply path_length_raised; rewrite ?Hd; done.
  cbn [fst snd heap graph]. rewrite Hnew.
  destruct (giant_component_fraction g1) as [ga| |] eqn:Hga.
  2,3: intros [= <- <- <-]; cbn; split_and!; [done| |by intros ? [= <-]];
       eapply fraction_raised; rewrite ?Hga; done.
  intros [= <- <- <-]; cbn; split_and!; [done| |by intros ? [= <-]].
  by eapply sampled.
Qed.

Lemma for_each_cons {S A} (x : A) (xs : list A) (body : A → M S ()) (st : S) :
  for_each (x :: xs) body st =
    match body x st with
    | (st', Ok _) => for_each xs body st'
    | (st', Raise e) => (st', Raise e)
    | (st', Timeout) => (st', Timeout)
    end.
Proof. done. Qed.

Lemma imod_not_Ok i f : (∀ m, Py.imod i f ≠ Ok m) → Py.imod i f = Raise ZeroDivisionError.
Proof.
  unfold Py.imod. case_decide; [done|]. intros Hno. by destruct (Hno (i `mod` f)%Z).
Qed.

(** With more iterations than nodes the loop ends in an exception. *)
Lemma attack_loop_exhausts f (k i0 : nat) fr s gi :
  heap s !! graph fr = Some gi → Spec.wf gi → nx.order gi < k →
  ∃ fr' s' e,
    for_each (Z.of_nat <$> seq i0 k) (attack_body f) (fr, s) = ((fr', s'), Raise e)
    ∧ files s' = files s.
Proof.
  revert i0 fr s gi. induction k as [|k IH]; intros i0 fr s gi Hgi Hwf Hk; [lia|].
  cbn [seq fmap list_fmap]. rewrite for_each_cons.
  destruct (attack_body f (Z.of_nat i0) (fr, s)) as [[fr1 s1] r1] eqn:Hbody.
  destruct (attack_body_cases _ _ _ _ _ _ _ _ Hgi Hbody) as (Hfiles & Hout & Hheap).
  assert (∀ g1, attack_degree_value gi = Ok g1 →
            ∃ fr' s' e,
              for_each (Z.of_nat <$> seq (S i0) k) (attack_body f) (fr1, s1)
              = ((fr', s'), Raise e) ∧ files s' = files s) as Hnext.
  { intros g1 Hg1. destruct (attack_degree_value_order gi g1 Hwf Hg1) as [Hwf1 Ho].
    destruct (IH (S i0) fr1 s1 g1) as (fr' & s' & e & ? & ?); [auto|done|lia|].
    exists fr', s', e. split; [done|congruence]. }
  destruct Hout as [Hno -> _|g1 Hg1 Hno -> _|g1 m Hg1 _ _ -> _
                   |g1 Hg1 _ Hno -> _|g1 d a Hg1 _ _ Hno -> _|g1 d a q Hg1 _ _ _ -> _].
  - destruct gi as [|e0 gi0].
    + rewrite attack_degree_value_empty. cbn. eauto.
    + destruct (attack_degree_value_Ok (e0 :: gi0)) as (? & _ & _ & Hval); [done..|].
      by destruct (Hno _ Hval).
  - rewrite (imod_not_Ok _ _ Hno). cbn. eauto.
  - eauto.
  - destruct (attack_degree_value_order gi g1 Hwf Hg1) as [Hwf1 _].
    destruct (distance_table_exists g1 Hwf1) as (? & _ & Hd). by destruct (Hno _ Hd).
  - destruct (attack_degree_value_order gi g1 Hwf Hg1) as [Hwf1 _].
    destruct g1 as [|e1 g1'].
    + cbn. eauto.
    + destruct (giant_component_fraction_Ok (e1 :: g1')) as [q Hq]; [done..|].
      by destruct (Hno _ Hq).
  - eauto.
Qed.

Lemma recorded_after_snoc step metric g hist (k : nat) gk g1 x :
  recorded_after step metric g hist →
  after_removals step k g gk → (hist = [] → k = 0) →
  step gk g1 → metric g1 = Ok x →
  recorded_after step metric g (hist ++ [x]).
Proof.
  intros [Hhead Hall] Hk Hnil Hstep Hx. split.
  - destruct hist as [|y hist]; [|by apply Hhead].
    intros ? [= <-]. rewrite (Hnil eq_refl) in Hk. inversion Hk; subst. eauto.
  - intros y [?| ->%list_elem_of_singleton]%elem_of_app; [auto|].
    exists k, g1. split; [by econstructor|done].
Qed.

Lemma imod_0 f m : Py.imod 0 f = Ok m → m = 0%Z.
Proof. unfold Py.imod. case_decide; [done|]. rewrite Z.mod_0_l by done. congruence. Qed.



End AttackLoop.

(** ** The fail loop *)

Section FailLoop.

Context {Rng : Type} (randbelow : Rng → nat → nat * Rng).
Implicit Types (s : Store Rng) (fr : FailFrame) (g : nx.Graph) (f i : Z).

Lemma heap_kept_app s (tl : list nx.Graph) r fs :
  heap_kept s (mkStore (heap s ++ tl) r fs).
Proof. intros j x Hj. cbn. by apply lookup_app_l_Some. Qed.

Lemma fail_body_cases f i fr s gi fr' s' r :
  heap s !! run_graph fr = Some gi →
  fail_body randbelow f i (fr, s) = ((fr', s'), r) →
  heap_kept s s'
  ∧ diameters_on_run fr' = diameters_on_run fr
  ∧ paths_on_run fr' = paths_on_run fr
  ∧ run_hists fr' = run_hists fr
  ∧ ((ga_on_run fr' = ga_on_run fr
      ∧ (r = Ok () →
         ∃ g1 m, fail_step gi g1 ∧ heap s' !! run_graph fr' = Some g1
                 ∧ Py.imod i f = Ok m ∧ m ≠ 0%Z))
     ∨ ∃ g1 q, fail_step gi g1 ∧ heap s' !! run_graph fr' = Some g1
               ∧ Py.imod i f = Ok 0%Z
               ∧ giant_component_fraction g1 = Ok q
               ∧ ga_on_run fr' = ga_on_run fr ++ [q]).
Proof.
  intros Hgi. unfold fail_body.
  cbv [mbind M_bind gets on_store local modify lift measure]. cbn [fst snd].
  rewrite (fail_eq randbelow _ gi s Hgi).
  destruct (nx.nodes (nx.new_Graph gi)) as [|n0 ns] eqn:Hnodes.
  { intros [= <- <- <-]. split_and!; [apply heap_kept_app|done..|]. by left. }
  destruct (randbelow _ _) as [k rng'].
  destruct (fail_value k gi) as [g1| |] eqn:Hval; cbn [mbind result_bind new_object].
  2,3: intros [= <- <- <-]; split_and!; [apply (heap_kept_app s)|done..|]; by left.
  assert (∀ h : list nx.Graph, (h ++ [g1]) !! length h = Some g1) as Hnew.
  { intros h. by rewrite lookup_app_r, Nat.sub_diag by lia. }
  destruct (Py.imod i f) as [m| |] eqn:Hmod.
  2,3: intros [= <- <- <-]; split_and!; [apply (heap_kept_app s)|done..|]; by left.
  case_decide as Hm; [subst m|].
  2:{ intros [= <- <- <-]; split_and!; [apply (heap_kept_app s)|done..|]. left.
      split; [done|]. intros _. exists g1, m. split_and!; [by exists k|apply Hnew|done..]. }
  unfold deref. cbn [fst snd heap run_graph]. rewrite Hnew.
  destruct (giant_component_fraction g1) as [q| |] eqn:Hq.
  2,3: intros [= <- <- <-]; split_and!; [apply (heap_kept_app s)|done..|]; by left.
  intros [= <- <- <-]; split_and!; [apply (heap_kept_app s)|done..|]. right.
  exists g1, q. split_and!; [by exists k|apply Hnew|done..].
Qed.

(** The entries one run records, from a state reached after [n] removals. *)
Lemma fail_run_recorded f (k n : nat) fr s g gn fr' s' r :
  heap s !! run_graph fr = Some gn →
  after_removals fail_step n g gn →
  (0 < n → ga_on_run fr ≠ []) →
  recorded_after fail_step giant_component_fraction g (ga_on_run fr) →
  for_each (Z.of_nat <$> seq n k) (fail_body randbelow f) (fr, s) = ((fr', s'), r) →
  heap_kept s s'
  ∧ diameters_on_run fr' = diameters_on_run fr
  ∧ paths_on_run fr' = paths_on_run fr
  ∧ run_hists fr' = run_hists fr
  ∧ recorded_after fail_step giant_component_fraction g (ga_on_run fr').
Proof.
  revert n fr s gn. induction k as [|k IH]; intros n fr s gn Hgn Hn Hne Hrec.
  { intros [= <- <- <-]. split_and!; [by intros ??|done..]. }
  cbn [seq fmap list_fmap]. rewrite for_each_cons.
  destruct (fail_body randbelow f (Z.of_nat n) (fr, s)) as [[fr1 s1] r1] eqn:Hbody.
  destruct (fail_body_cases _ _ _ _ _ _ _ _ Hgn Hbody)
    as (Hkept & Hd & Hp & Hruns & Hcases).
  assert (ga_on_run fr = [] → n = 0) as Hnil.
  { intros Hga. destruct n; [done|]. destruct Hne; [lia|done]. }
  assert (recorded_after fail_step giant_component_fraction g (ga_on_run fr1)) as Hrec1.
  { destruct Hcases as [[-> _]|(g1 & q & Hstep & _ & _ & Hq & ->)]; [done|].
    by eapply recorded_after_snoc. }
  assert (∀ fr2 s2 r2, (fr1, s1, r1) = (fr2, s2, r2) →
            heap_kept s s2
            ∧ diameters_on_run fr2 = diameters_on_run fr
            ∧ paths_on_run fr2 = paths_on_run fr
            ∧ run_hists fr2 = run_hists fr
            ∧ recorded_after fail_step giant_component_fraction g (ga_on_run fr2))
    as Hstop by (by intros ??? [= <- <- <-]).
  destruct r1 as [[]| |]; [|apply Hstop..]. intros Hrest. clear Hstop.
  assert (∃ g1, heap s1 !! run_graph fr1 = Some g1
                ∧ after_removals fail_step (S n) g g1
                ∧ ga_on_run fr1 ≠ []) as (g1 & Hg1 & Hn1 & Hne1).
  { destruct Hcases as [[Hga Hok]|(g1 & q & Hstep & Hg1 & _ & _ & Hga)].
    - destruct (Hok eq_refl) as (g1 & m & Hstep & Hg1 & Hm & Hm0).
      exists g1. split_and!; [done|by econstructor|]. rewrite Hga. apply Hne.
      destruct n; [|lia]. by destruct Hm0, (imod_0 f m).
    - exists g1. split_and!; [done|by econstructor|]. rewrite Hga.
      by intros [_ [=]]%app_nil. }
  eapply IH in Hrest as (Hkept' & -> & -> & -> & Hrec'); [|done..].
  split_and!; [|done..]. intros j x Hj. by apply Hkept', Hkept.
Qed.



End FailLoop.

(** ** The history file *)

Section TextFacts.

Import Text.
Implicit Types (a b c t : string) (cur : list ascii) (toks : list string).

Lemma append_cons (x : ascii) a b : String x a +:+ b = String x (a +:+ b).
Proof. done. Qed.

Lemma append_assoc a b c : (a +:+ b) +:+ c = a +:+ (b +:+ c).
Proof. induction a as [|x a IH]; [done|]. by rewrite !append_cons, IH. Qed.

Lemma append_nil_r a : a +:+ "" = a.
Proof. induction a as [|x a IH]; [done|]. by rewrite append_cons, IH. Qed.

Lemma list_ascii_append a b :
  String.list_ascii_of_string (a +:+ b)
  = String.list_ascii_of_string a ++ String.list_ascii_of_string b.
Proof.
  induction a as [|x a IH]; [done|]. rewrite append_cons.
  cbn [String.list_ascii_of_string app]. by rewrite IH.
Qed.

Lemma string_of_list_ascii_app (l k : list ascii) :
  String.string_of_list_ascii (l ++ k)
  = String.string_of_list_ascii l +:+ String.string_of_list_ascii k.
Proof.
  induction l as [|x l IH]; [done|].
  cbn [String.string_of_list_ascii app]. by rewrite append_cons, IH.
Qed.

Lemma no_space_no_newline t : no_space t → no_newline t.
Proof. intros Ht. eapply Forall_impl; [exact Ht|]. by intros x Hx ->. Qed.

Lemma split_go_no_space cur t rest :
  no_space t →
  split_go cur (t +:+ rest) = split_go (rev (String.list_ascii_of_string t) ++ cur) rest.
Proof.
  revert cur. induction t as [|x t IH]; intros cur Ht; [done|].
  apply Forall_cons in Ht as [Hx Ht]. rewrite append_cons. cbn [split_go].
  rewrite Hx, IH by done. cbn [String.list_ascii_of_string rev].
  by rewrite <-app_assoc.
Qed.

Lemma split_go_token t x rest :
  token t → is_space x = true →
  split_go [] (t +:+ String x rest) = t :: split_go [] rest.
Proof.
  intros [Hne Ht] Hx. rewrite split_go_no_space by done. rewrite app_nil_r.
  cbn [split_go]. rewrite Hx.
  destruct (rev (String.list_ascii_of_string t)) as [|y l] eqn:Hrev.
  - apply (f_equal (@rev ascii)) in Hrev. rewrite rev_involutive in Hrev.
    apply (f_equal String.string_of_list_ascii) in Hrev.
    rewrite String.string_of_list_ascii_of_string in Hrev. by destruct Hne.
  - rewrite <-Hrev, rev_involutive, String.string_of_list_ascii_of_string. done.
Qed.

(** Splitting a written line gives back the printed values. *)
Lemma split_join toks :
  Forall token toks → split (join " " toks +:+ nl) = toks.
Proof.
  unfold split. induction toks as [|t toks IH]; intros Htoks; [done|].
  apply Forall_cons in Htoks as [Ht Htoks]. destruct toks as [|t' toks].
  - cbn [join]. unfold nl. by rewrite split_go_token.
  - change (join " " (t :: t' :: toks)) with (t +:+ " " +:+ join " " (t' :: toks)).
    rewrite !append_assoc.
    change (" " +:+ ?r)%string with (String " "%char r).
    rewrite split_go_token by done. f_equal. by apply IH.
Qed.

Lemma no_newline_join toks : Forall token toks → no_newline (join " " toks).
Proof.
  induction toks as [|t toks IH]; intros Htoks; [constructor|].
  apply Forall_cons in Htoks as [[_ Ht] Htoks]. destruct toks as [|t' toks].
  - by apply no_space_no_newline.
  - change (join " " (t :: t' :: toks)) with (t +:+ " " +:+ join " " (t' :: toks)).
    unfold no_newline. rewrite !list_ascii_append. rewrite !Forall_app. split_and!.
    + by apply no_space_no_newline.
    + by repeat constructor.
    + by apply IH.
Qed.

Lemma lines_go_no_newline cur t rest :
  no_newline t →
  lines_go cur (t +:+ rest) = lines_go (rev (String.list_ascii_of_string t) ++ cur) rest.
Proof.
  revert cur. induction t as [|x t IH]; intros cur Ht; [done|].
  apply Forall_cons in Ht as [Hx Ht]. rewrite append_cons. cbn [lines_go].
  rewrite decide_False by done. rewrite IH by done.
  cbn [String.list_ascii_of_string rev]. by rewrite <-app_assoc.
Qed.

Lemma lines_go_line t rest :
  no_newline t → lines_go [] ((t +:+ nl) +:+ rest) = (t +:+ nl) :: lines_go [] rest.
Proof.
  intros Ht. rewrite append_assoc, lines_go_no_newline by done. rewrite app_nil_r.
  unfold nl at 1. rewrite append_cons. cbn [lines_go].
  rewrite decide_True by done. f_equal.
  cbn [rev]. rewrite rev_involutive, string_of_list_ascii_app.
  by rewrite String.string_of_list_ascii_of_string.
Qed.

Lemma no_space_no_cr t : no_space t → no_cr t.
Proof. intros Ht. eapply Forall_impl; [exact Ht|]. by intros x Hx ->. Qed.

Lemma no_cr_app a b : no_cr a → no_cr b → no_cr (a +:+ b).
Proof. intros Ha Hb. unfold no_cr. rewrite list_ascii_append. by apply Forall_app. Qed.

Lemma no_cr_nl : no_cr nl.
Proof. by repeat constructor. Qed.

Lemma no_cr_join toks : Forall no_space toks → no_cr (join " " toks).
Proof.
  induction toks as [|t toks IH]; intros Htoks; [constructor|].
  apply Forall_cons in Htoks as [Ht Htoks]. destruct toks as [|t' toks].
  - by apply no_space_no_cr.
  - change (join " " (t :: t' :: toks)) with (t +:+ " " +:+ join " " (t' :: toks)).
    apply no_cr_app; [by apply no_space_no_cr|].
    apply no_cr_app; [by repeat constructor|by apply IH].
Qed.

(** Universal newlines leave a text without carriage returns as it
    is. *)
Lemma universal_newlines_app a b :
  no_cr a → universal_newlines (a +:+ b) = a +:+ universal_newlines b.
Proof.
  induction a as [|x a IH]; intros Ha; [done|].
  apply Forall_cons in Ha as [Hx Ha]. rewrite !append_cons.
  cbn [universal_newlines]. rewrite decide_False by done. by rewrite IH.
Qed.

Lemma lines_app a b :
  no_cr a → lines (a +:+ b) = lines_go [] (a +:+ universal_newlines b).
Proof. intros Ha. unfold lines. by rewrite universal_newlines_app. Qed.

Lemma lines_no_cr a : no_cr a → lines a = lines_go [] a.
Proof.
  intros Ha. rewrite <-(append_nil_r a) at 1. rewrite lines_app by done.
  by rewrite append_nil_r.
Qed.

End TextFacts.

Section HistoryFile.

Context {Rng : Type} (str : Py.float → string) (float : string → result Py.float).
Context (path : string).
Implicit Types (s : Store Rng) (d p ga : list Py.float).

Lemma dump_history_attack s d p ga :
  dump_history str path false d p ga s =
    (mkStore (heap s) (rng s) (<[path := line str d +:+ line str p +:+ line str ga]> (files s)),
     Ok ()).
Proof.
  unfold dump_history, open_w, write.
  cbv [mbind M_bind modify for_each mret M_ret]. cbn [files heap rng].
  rewrite !lookup_insert_eq. cbn [default]. rewrite !insert_insert_eq.
  unfold id, line. change ("" +:+ ?t)%string with t. by rewrite !append_assoc.
Qed.

Lemma comprehension_app {A B} (f : A → result B) xs ys xs' ys' :
  comprehension f xs = Ok xs' → comprehension f ys = Ok ys' →
  comprehension f (xs ++ ys) = Ok (xs' ++ ys').
Proof.
  revert xs'. induction xs as [|x xs IH]; intros xs'; cbn [comprehension app].
  - by intros [= <-].
  - destruct (f x) as [y| |]; [|done..]. cbn [mbind result_bind].
    destruct (comprehension f xs) as [zs| |]; [|done..]. cbn [mbind result_bind].
    intros [= <-] Hys. by rewrite (IH zs eq_refl Hys).
Qed.

Lemma read_line vs :
  printable str float vs → comprehension float (Text.split (line str vs)) = Ok vs.
Proof.
  intros Hvs. unfold line, join_values. rewrite split_join.
  - induction Hvs as [|v vs [Hv _] _ IH]; [done|]. cbn [fmap list_fmap comprehension].
    rewrite Hv. cbn [mbind result_bind]. by rewrite IH.
  - apply Forall_fmap. eapply Forall_impl; [done|]. by intros v [_ ?].
Qed.

Lemma no_newline_line_body vs : printable str float vs → no_newline (join_values str vs).
Proof.
  intros Hvs. apply no_newline_join, Forall_fmap.
  eapply Forall_impl; [done|]. by intros v [_ ?].
Qed.

Lemma no_cr_line vs : printable str float vs → no_cr (line str vs).
Proof.
  intros Hvs. apply no_cr_app; [|apply no_cr_nl]. apply no_cr_join, Forall_fmap.
  eapply Forall_impl; [done|]. by intros v [_ [_ ?]].
Qed.

(** The reader returns the three written series as one flat list. *)
Lemma read_attack_history_after_dump s d p ga :
  printable str float d → printable str float p → printable str float ga →
  ∃ s1, dump_history str path false d p ga s = (s1, Ok ())
        ∧ read_attack_history float path s1 = (s1, Ok (d ++ p ++ ga)).
Proof.
  intros Hd Hp Hga. eexists. split; [apply dump_history_attack|].
  unfold read_attack_history, open_r. cbv [mbind M_bind lift]. cbn [files].
  rewrite lookup_insert_eq. f_equal.
  rewrite lines_no_cr
    by (apply no_cr_app; [|apply no_cr_app]; by apply no_cr_line).
  rewrite <-(append_nil_r (line str ga)), <-!append_assoc. unfold line at 1 2 3.
  rewrite !append_assoc.
  rewrite <-(append_assoc (join_values str d) Text.nl).
  rewrite lines_go_line by by apply no_newline_line_body.
  rewrite <-(append_assoc (join_values str p) Text.nl).
  rewrite lines_go_line by by apply no_newline_line_body.
  rewrite <-(append_assoc (join_values str ga) Text.nl).
  rewrite lines_go_line by by apply no_newline_line_body.
  cbn [Text.lines_go mbind list_bind app]. rewrite app_nil_r.
  apply comprehension_app; [by apply read_line|].
  apply comprehension_app; by apply read_line.
Qed.

End HistoryFile.

(** * Further properties of the module *)

(** ** Degrees survive the copy *)

Section Degrees.

Import nx Spec.
Implicit Types (g : nx.Graph) (k u v : nx.node) (ns : list nx.node).

Lemma degree_by_key g :
  NoDup (nodes g) → degree g = (λ k, (k, degree_at g k)) <$> nodes g.
Proof.
  unfold degree, nodes, degree_at. induction g as [|[k ns] g IH]; [done|].
  intros [Hk Hnd]%NoDup_cons. cbn [fmap list_fmap fst adj_get].
  rewrite decide_True by done. cbn [from_option]. f_equal.
  rewrite IH by done. apply list_fmap_ext. intros i k' Hi.
  rewrite decide_False; [done|]. intros ->. apply Hk.
  by eapply list_elem_of_lookup_2.
Qed.

Lemma degree_at_ext g g' k :
  wf g → wf g' → (∀ u v, edge g u v ↔ edge g' u v) →
  k ∈ nodes g → k ∈ nodes g' → degree_at g k = degree_at g' k.
Proof.
  intros Hwf Hwf' He [ns Hns]%adj_get_is_Some [ns' Hns']%adj_get_is_Some.
  unfold degree_at. rewrite Hns, Hns'. cbn [from_option]. unfold degree_of.
  assert (∀ v, v ∈ ns ↔ v ∈ ns') as Hin.
  { intros v. split; intros Hv.
    - destruct (proj1 (He k v)) as (? & ? & ?); [by exists ns|]. by simplify_eq.
    - destruct (proj2 (He k v)) as (? & ? & ?); [by exists ns'|]. by simplify_eq. }
  assert (ns ≡ₚ ns') as Hperm.
  { apply NoDup_Permutation;
      [by apply (wf_nbrs g Hwf k)|by apply (wf_nbrs g' Hwf' k)|done]. }
  rewrite (Permutation_length Hperm). f_equal.
  case_bool_decide as H1; case_bool_decide as H2; try done; by apply Hin in H1 || apply Hin in H2.
Qed.

Lemma degree_new_Graph g : wf g → degree (new_Graph g) = degree g.
Proof.
  intros Hwf. rewrite !degree_by_key; [|apply Hwf|apply wf_new_Graph].
  rewrite nodes_new_Graph by done. apply list_fmap_ext. intros i k Hi.
  f_equal. apply degree_at_ext; [apply wf_new_Graph|done| |..].
  - intros u v. by apply edge_new_Graph.
  - rewrite nodes_new_Graph by done. by eapply list_elem_of_lookup_2.
  - by eapply list_elem_of_lookup_2.
Qed.

(** The pick is the first key of maximal degree. *)
Lemma attack_degree_pick_first g k :
  wf g → attack_degree_pick g = Ok k →
  ∃ i d, degree g !! i = Some (k, d)
         ∧ (∀ e, e ∈ degree g → e.2 ≤ d)
         ∧ ∀ j e, j < i → degree g !! j = Some e → e.2 < d.
Proof.
  intros Hwf. unfold attack_degree_pick. rewrite degree_new_Graph by done.
  destruct (degree g).*2 as [|d0 ds] eqn:Hvals; [done|].
  destruct (Py_max_Ok (d0 :: ds)) as (m & Hm & _ & Hmax); [done|].
  rewrite Hm. cbn [mbind result_bind]. unfold Py.getitem.
  destruct (filter _ (degree g)) as [|[k' d] fl] eqn:Hf; [done|].
  cbn. intros [= ->]. rewrite <-Hvals in Hmax.
  assert (head (filter (λ kv : node * nat, kv.2 = m) (degree g)) = Some (k, d))
    as Hhead by (by rewrite Hf).
  assert (d = m) as ->.
  { apply head_Some_elem_of, list_elem_of_filter in Hhead as [? _]. done. }
  apply head_filter_Some in Hhead as (l1 & l2 & Hl & Hl1). cbn [fst snd] in *.
  exists (length l1), m. split_and!.
  - rewrite Hl. by rewrite lookup_app_r, Nat.sub_diag by lia.
  - intros e He. apply Hmax. apply list_elem_of_fmap. eauto.
  - intros j e Hj He. rewrite Hl, lookup_app_l in He by done.
    eapply Forall_lookup_1 in Hl1; [|done]. cbn in Hl1.
    assert (e.2 ≤ m); [|lia]. apply Hmax, list_elem_of_fmap. exists e. split; [done|].
    rewrite Hl. apply elem_of_app. left. by eapply list_elem_of_lookup_2.
Qed.

End Degrees.

(** ** Runs that stay within the graph *)

Section CompleteRuns.

Context {Rng : Type}.
Implicit Types (s : Store Rng) (fr : AttackFrame) (g : nx.Graph) (f i : Z).

Lemma imod_Ok i f m : Py.imod i f = Ok m → f ≠ 0%Z ∧ m = (i `mod` f)%Z.
Proof. unfold Py.imod. case_decide; [done|]. by intros [= <-]. Qed.

Lemma fail_value_Ok (k : nat) g :
  Spec.wf g → k < nx.order g →
  ∃ n, nx.nodes g !! k = Some n
       ∧ fail_value k g = Ok (without (nx.new_Graph g) n).
Proof.
  intros Hwf Hk. unfold fail_value. rewrite nodes_new_Graph by done.
  destruct (lookup_lt_is_Some_2 (nx.nodes g) k) as [n Hn].
  { unfold nx.nodes. by rewrite length_fmap. }
  exists n. split; [done|]. unfold Py.getitem. rewrite Hn. cbn [mbind result_bind].
  apply remove_node_without; [apply wf_new_Graph|]. rewrite nodes_new_Graph by done.
  by eapply list_elem_of_lookup_2.
Qed.

Lemma after_removals_prepend (step : nx.Graph → nx.Graph → Prop) (k : nat) a b c :
  step a b → after_removals step k b c → after_removals step (S k) a c.
Proof.
  intros Hab Hbc. revert Hab. induction Hbc as [b|k b c c' Hbc IH Hstep]; intros Hab.
  - econstructor; [constructor|done].
  - econstructor; [by apply IH|done].
Qed.

(** One iteration adds one graph object and touches nothing else. *)
Lemma attack_body_heap f i fr s gi fr' s' r :
  heap s !! graph fr = Some gi →
  attack_body f i (fr, s) = ((fr', s'), r) →
  ∃ x, heap s' = heap s ++ [x] ∧ rng s' = rng s
       ∧ (r = Ok () → graph fr' = length (heap s)).
Proof.
  intros Hgi. unfold attack_body.
  cbv [mbind M_bind gets on_store local modify lift measure]. cbn [fst snd].
  rewrite (attack_degree_eq _ gi s Hgi).
  destruct (attack_degree_value gi) as [g1| |] eqn:Hval;
    cbn [mbind result_bind new_object].
  2,3: intros [= <- <- <-]; eexists; split_and!; done.
  assert (∀ h : list nx.Graph, (h ++ [g1]) !! length h = Some g1) as Hnew.
  { intros h. by rewrite lookup_app_r, Nat.sub_diag by lia. }
  destruct (Py.imod i f) as [m| |] eqn:Hmod.
  2,3: intros [= <- <- <-]; eexists; split_and!; done.
  case_decide as Hm; [subst m|].
  2:{ intros [= <- <- <-]; eexists; split_and!; done. }
  unfold deref. cbn [fst snd heap]. rewrite Hnew.
  destruct (diameter_and_avg_path_length g1) as [[diameter avg]| |] eqn:Hd.
  2,3: intros [= <- <- <-]; eexists; split_and!; done.
  cbn [fst snd heap graph]. rewrite Hnew.
  destruct (giant_component_fraction g1) as [ga| |] eqn:Hga;
    intros [= <- <- <-]; eexists; split_and!; done.
Qed.

(** A whole attack loop only appends graph objects. *)
Lemma attack_loop_heap f (its : list Z) fr s gi fr' s' r :
  heap s !! graph fr = Some gi →
  for_each its (attack_body f) (fr, s) = ((fr', s'), r) →
  heap s `prefix_of` heap s' ∧ files s' = files s ∧ rng s' = rng s.
Proof.
  revert fr s gi. induction its as [|i its IH]; intros fr s gi Hgi.
  { by intros [= <- <- <-]. }
  rewrite for_each_cons.
  destruct (attack_body f i (fr, s)) as [[fr1 s1] r1] eqn:Hbody.
  destruct (attack_body_heap _ _ _ _ _ _ _ _ Hgi Hbody) as (x & Hheap & Hrng & Hnew).
  destruct (attack_body_cases _ _ _ _ _ _ _ _ Hgi Hbody) as (Hfiles & _ & _).
  assert (heap s `prefix_of` heap s1) as Hpre by (rewrite Hheap; by apply prefix_app_r).
  destruct r1 as [[]| |]; [|by intros [= <- <- <-]..].
  intros Hrest. eapply IH in Hrest as (? & ? & ?).
  - split_and!; [by etrans|congruence..].
  - rewrite (Hnew eq_refl), Hheap. by rewrite lookup_app_r, Nat.sub_diag by lia.
Qed.

(** With fewer iterations than nodes every iteration succeeds. *)
Lemma attack_loop_completes f (k i0 : nat) fr s gi :
  heap s !! graph fr = Some gi → Spec.wf gi → (k ≠ 0 → k < nx.order gi) →
  f ≠ 0%Z →
  ∃ fr' s' gk,
    for_each (Z.of_nat <$> seq i0 k) (attack_body f) (fr, s) = ((fr', s'), Ok ())
    ∧ heap s' !! graph fr' = Some gk
    ∧ Spec.wf gk
    ∧ nx.order gk + k = nx.order gi
    ∧ after_removals attack_step k gi gk
    ∧ ∃ d p ga,
        hists fr' = (diameters_history fr ++ d, path_len_history fr ++ p,
                     ga_fraction_history fr ++ ga)
        ∧ length d = length (filter (λ i, (i `mod` f = 0)%Z) (Z.of_nat <$> seq i0 k))
        ∧ length p = length d ∧ length ga = length d.
Proof.
  intros Hgi Hwf Hk Hf. revert i0 fr s gi Hgi Hwf Hk.
  induction k as [|k IH]; intros i0 fr s gi Hgi Hwf Hk.
  { exists fr, s, gi. split_and!; [done..|lia|constructor|].
    exists [], [], []. by rewrite !app_nil_r. }
  assert (S k < nx.order gi) as Hk' by (apply Hk; lia). clear Hk.
  cbn [seq fmap list_fmap]. rewrite for_each_cons.
  destruct (attack_body f (Z.of_nat i0) (fr, s)) as [[fr1 s1] r1] eqn:Hbody.
  destruct (attack_body_cases _ _ _ _ _ _ _ _ Hgi Hbody) as (_ & Hout & Hheap).
  assert (gi ≠ []) as Hne by (intros ->; cbn in Hk'; lia).
  destruct (attack_degree_value_Ok gi Hwf Hne) as (n & _ & _ & Hval).
  destruct (attack_degree_value_order gi _ Hwf Hval) as [Hwf1 Ho1].
  destruct (distance_table_exists _ Hwf1) as (? & _ & Hd).
  destruct (giant_component_fraction_Ok (without (nx.new_Graph gi) n)) as [q Hq];
    [done|intros Hnil; rewrite Hnil in Ho1; cbn in Ho1; lia|].
  assert (∃ d p ga,
            r1 = Ok ()
            ∧ hists fr1 = (diameters_history fr ++ d, path_len_history fr ++ p,
                           ga_fraction_history fr ++ ga)
            ∧ length d = length (filter (λ i, (i `mod` f = 0)%Z) [Z.of_nat i0])
            ∧ length p = length d ∧ length ga = length d)
    as (d & p & ga & -> & Hh & Hld & Hlp & Hlga).
  { destruct Hout as [Hno _ _|g1 Hg1 Hno _ _|g1 m Hg1 Hm Hm0 -> Hh
                     |g1 Hg1 _ Hno _ _|g1 d a Hg1 _ _ Hno _ _
                     |g1 d a q' Hg1 Hm _ _ -> Hh].
    - by destruct (Hno _ Hval).
    - destruct (Hno (Z.of_nat i0 `mod` f)%Z). unfold Py.imod. by rewrite decide_False.
    - apply imod_Ok in Hm as [_ ->]. exists [], [], [].
      rewrite !app_nil_r, filter_cons_False by done. done.
    - rewrite Hval in Hg1. injection Hg1 as <-. by destruct (Hno _ Hd).
    - rewrite Hval in Hg1. injection Hg1 as <-. by destruct (Hno _ Hq).
    - apply imod_Ok in Hm as [_ Hm]. eexists [_], [_], [_].
      rewrite filter_cons_True by done. done. }
  destruct (IH (S i0) fr1 s1 _ (Hheap _ Hval) Hwf1)
    as (fr' & s' & gk & Hrest & Hgk & Hwfk & Hok & Hrem & d' & p' & ga' & Hh' & Hld' & Hlp' & Hlga');
    [lia|].
  exists fr', s', gk. split_and!; [done..|lia| |].
  - by eapply after_removals_prepend.
  - injection Hh as Hh1 Hh2 Hh3. exists (d ++ d'), (p ++ p'), (ga ++ ga').
    rewrite Hh'. rewrite Hh1, Hh2, Hh3, <-!app_assoc. split; [done|].
    change (Z.of_nat i0 :: (Z.of_nat <$> seq (S i0) k))
      with ([Z.of_nat i0] ++ (Z.of_nat <$> seq (S i0) k)).
    rewrite filter_app, !length_app. lia.
Qed.

End CompleteRuns.

Section CompleteFailRuns.

Context {Rng : Type} (randbelow : Rng → nat → nat * Rng).
Context (randbelow_lt : ∀ r n, 0 < n → (randbelow r n).1 < n).
Implicit Types (s : Store Rng) (fr : FailFrame) (g : nx.Graph) (f i : Z).

(** On a graph with two nodes or more an iteration of a fail run
    succeeds, adds one graph object and records at most one fraction. *)
Lemma fail_body_completes f i fr s gi :
  heap s !! run_graph fr = Some gi → Spec.wf gi → 2 ≤ nx.order gi → f ≠ 0%Z →
  ∃ fr' s' g1 ga,
    fail_body randbelow f i (fr, s) = ((fr', s'), Ok ())
    ∧ heap s' = heap s ++ [g1] ∧ files s' = files s
    ∧ run_graph fr' = length (heap s)
    ∧ Spec.wf g1 ∧ S (nx.order g1) = nx.order gi
    ∧ diameters_on_run fr' = diameters_on_run fr
    ∧ paths_on_run fr' = paths_on_run fr
    ∧ run_hists fr' = run_hists fr
    ∧ ga_on_run fr' = ga_on_run fr ++ ga
    ∧ length ga = length (filter (λ i, (i `mod` f = 0)%Z) [i]).
Proof.
  intros Hgi Hwf Ho Hf. unfold fail_body.
  cbv [mbind M_bind gets on_store local modify lift measure]. cbn [fst snd].
  rewrite (fail_eq randbelow _ gi s Hgi). rewrite nodes_new_Graph by done.
  assert (length (nx.nodes gi) = nx.order gi) as Hlen.
  { unfold nx.nodes, nx.order. by rewrite length_fmap. }
  destruct (nx.nodes gi) as [|n0 ns] eqn:Hnodes; [cbn in Hlen; lia|].
  pose proof (randbelow_lt (rng s) (length (n0 :: ns))) as Hlt.
  destruct (randbelow _ _) as [k rng'] eqn:Hrand. cbn [fst] in Hlt.
  destruct (fail_value_Ok k gi Hwf) as (n & Hn & Hval);
    [rewrite <-Hlen; apply Hlt; cbn; lia|].
  rewrite Hval. cbn [mbind result_bind new_object].
  set (g1 := without (nx.new_Graph gi) n).
  assert (Spec.wf g1) as Hwf1 by apply wf_without, wf_new_Graph.
  assert (S (nx.order g1) = nx.order gi) as Ho1.
  { unfold g1. rewrite order_without, order_new_Graph; [done..|apply wf_new_Graph|].
    rewrite nodes_new_Graph by done. by eapply list_elem_of_lookup_2. }
  destruct (giant_component_fraction_Ok g1) as [q Hq];
    [done|intros Hnil; rewrite Hnil in Ho1; cbn in Ho1; lia|].
  assert (∀ h : list nx.Graph, (h ++ [g1]) !! length h = Some g1) as Hnew.
  { intros h. by rewrite lookup_app_r, Nat.sub_diag by lia. }
  unfold Py.imod. rewrite decide_False by done.
  destruct (decide (i `mod` f = 0)%Z) as [Hm|Hm].
  - unfold deref. cbn [fst snd heap run_graph]. rewrite Hnew, Hq.
    assert (length (filter (λ i, (i `mod` f = 0)%Z) [i]) = 1) as Hone
      by (by rewrite filter_cons_True).
    eexists _, _, g1, [q]. split; [done|]. split_and!; done.
  - assert (length (filter (λ i, (i `mod` f = 0)%Z) [i]) = 0) as Hzero
      by (by rewrite filter_cons_False).
    eexists _, _, g1, []. split; [done|]. cbn [ga_on_run fst snd].
    rewrite app_nil_r. split_and!; done.
Qed.

Lemma fail_run_completes f (k i0 : nat) fr s gi :
  heap s !! run_graph fr = Some gi → Spec.wf gi → (k ≠ 0 → k < nx.order gi) →
  f ≠ 0%Z →
  ∃ fr' s' ga,
    for_each (Z.of_nat <$> seq i0 k) (fail_body randbelow f) (fr, s)
    = ((fr', s'), Ok ())
    ∧ heap s `prefix_of` heap s' ∧ files s' = files s
    ∧ diameters_on_run fr' = diameters_on_run fr
    ∧ paths_on_run fr' = paths_on_run fr
    ∧ run_hists fr' = run_hists fr
    ∧ ga_on_run fr' = ga_on_run fr ++ ga
    ∧ length ga = length (filter (λ i, (i `mod` f = 0)%Z) (Z.of_nat <$> seq i0 k)).
Proof.
  intros Hgi Hwf Hk Hf. revert i0 fr s gi Hgi Hwf Hk.
  induction k as [|k IH]; intros i0 fr s gi Hgi Hwf Hk.
  { exists fr, s, []. by rewrite app_nil_r. }
  assert (S k < nx.order gi) as Hk' by (apply Hk; lia). clear Hk.
  cbn [seq fmap list_fmap]. rewrite for_each_cons.
  destruct (fail_body_completes f (Z.of_nat i0) fr s gi)
    as (fr1 & s1 & g1 & ga & -> & Hheap & Hfiles & Hnew & Hwf1 & Ho1
        & Hd & Hp & Hr & Hga & Hlga); [done|done|lia|done|].
  destruct (IH (S i0) fr1 s1 g1)
    as (fr' & s' & ga' & -> & Hpre & Hfiles' & Hd' & Hp' & Hr' & Hga' & Hlga');
    [|done|lia|].
  { rewrite Hnew, Hheap. by rewrite lookup_app_r, Nat.sub_diag by lia. }
  exists fr', s', (ga ++ ga'). split_and!; [done| |congruence..| |].
  - etrans; [|done]. rewrite Hheap. by apply prefix_app_r.
  - by rewrite Hga', Hga, <-app_assoc.
  - change (Z.of_nat i0 :: (Z.of_nat <$> seq (S i0) k))
      with ([Z.of_nat i0] ++ (Z.of_nat <$> seq (S i0) k)).
    rewrite filter_app, !length_app. lia.
Qed.

(** A whole fail loop: one series of fractions per run, all of the same
    length, and empty diameter and path series. *)
Lemma fail_loop_completes (src : ref) (n f : Z) (runs : list Z) fr s g :
  heap s !! src = Some g → Spec.wf g → (n < Z.of_nat (nx.order g))%Z → f ≠ 0%Z →
  ∃ fr' s' gas,
    for_each runs (run_body randbelow src n f) (fr, s) = ((fr', s'), Ok ())
    ∧ heap s `prefix_of` heap s' ∧ files s' = files s
    ∧ run_hists fr'
      = (runs_diameters_history fr ++ replicate (length runs) [],
         runs_path_len_history fr ++ replicate (length runs) [],
         runs_ga_fraction_history fr ++ gas)
    ∧ length gas = length runs
    ∧ Forall (λ ga, length ga = length (sampled_iterations n f)) gas.
Proof.
  intros Hsrc Hwf Hn Hf. revert fr s Hsrc.
  induction runs as [|run runs IH]; intros fr s Hsrc.
  { exists fr, s, []. cbn. by rewrite !app_nil_r. }
  rewrite for_each_cons. unfold run_body at 1.
  cbv [mbind M_bind local modify]. cbn [fst snd]. unfold range.
  edestruct (fail_run_completes f (Z.to_nat n) 0)
    as (fr1 & s1 & ga & -> & Hpre & Hfiles & Hd & Hp & Hr & Hga & Hlga);
    [exact Hsrc|done|lia|done|].
  cbn [fst snd run_graph diameters_on_run paths_on_run ga_on_run
       runs_diameters_history runs_path_len_history runs_ga_fraction_history] in *.
  injection Hr as Hr1 Hr2 Hr3.
  match goal with
  | |- context [for_each runs _ (?fr2, s1)] =>
      destruct (IH fr2 s1)
        as (fr' & s' & gas & -> & Hpre' & Hfiles' & Hr' & Hlgas & Hall)
  end.
  { destruct Hpre as [tl ->]. by apply lookup_app_l_Some. }
  injection Hr' as Hr1' Hr2' Hr3'. cbn in Hr1', Hr2', Hr3'.
  exists fr', s', (ga :: gas). split_and!; [done|by etrans|congruence| |cbn; lia|].
  - unfold run_hists. rewrite Hr1', Hr2', Hr3', Hr1, Hr2, Hr3, Hd, Hp, Hga.
    cbn [length replicate app]. by rewrite <-!app_assoc.
  - constructor; [|done]. by rewrite Hlga.
Qed.

End CompleteFailRuns.

(** ** Writing and reading, further *)

Section FailFile.

Context {Rng : Type} (str : Py.float → string) (path : string).
Implicit Types (s : Store Rng).

Lemma only_file_changed_refl s : only_file_changed path s s.
Proof. by split_and!. Qed.

Lemma only_file_changed_trans s1 s2 s3 :
  only_file_changed path s1 s2 → only_file_changed path s2 s3 → only_file_changed path s1 s3.
Proof.
  intros (?&?&H1) (?&?&H2). split_and!; [congruence..|].
  intros q Hq. by rewrite H2, H1.
Qed.

Lemma write_only_file s data : only_file_changed path s (write path data s).1.
Proof.
  unfold write, modify. split_and!; [done..|].
  intros q Hq. cbn [fst files]. by rewrite lookup_insert_ne.
Qed.

Lemma open_w_only_file s : only_file_changed path s (open_w path s).1.
Proof.
  unfold open_w, modify. split_and!; [done..|].
  intros q Hq. cbn [fst files]. by rewrite lookup_insert_ne.
Qed.

Lemma dump_runs (ga_fractions : list (list Py.float)) (k i : nat) s :
  ∃ s', only_file_changed path s s'
        ∧ for_each (Z.of_nat <$> seq i k) (dump_run str path ga_fractions) s
          = (s', if decide (k = 0 ∨ i + k ≤ length ga_fractions)
                 then Ok () else Raise IndexError).
Proof.
  revert i s. induction k as [|k IH]; intros i s.
  { exists s. split; [apply only_file_changed_refl|]. by rewrite decide_True by auto. }
  cbn [seq fmap list_fmap]. rewrite for_each_cons. unfold dump_run at 1.
  cbv [mbind M_bind lift]. rewrite Nat2Z.id. unfold Py.getitem.
  pose proof (write_only_file s (pretty (Z.of_nat i) +:+ Text.nl)) as Hw1.
  destruct (write path (pretty (Z.of_nat i) +:+ Text.nl) s) as [s1 r1] eqn:H1.
  assert (r1 = Ok ()) as -> by (unfold write, modify in H1; congruence).
  cbn [fst] in Hw1.
  destruct (ga_fractions !! i) as [ga|] eqn:Hga.
  - pose proof (write_only_file s1 (join_values str ga +:+ Text.nl)) as Hw2.
    destruct (write path (join_values str ga +:+ Text.nl) s1) as [s2 r2] eqn:H2.
    assert (r2 = Ok ()) as -> by (unfold write, modify in H2; congruence).
    cbn [fst] in Hw2. destruct (IH (S i) s2) as (s' & Hs' & ->).
    exists s'. split; [by repeat (eapply only_file_changed_trans; [done|])|].
    apply lookup_lt_Some in Hga. f_equal.
    repeat case_decide; try done; lia.
  - exists s1. split; [done|]. apply lookup_ge_None in Hga.
    rewrite decide_False; [done|]. lia.
Qed.

Lemma dump_history_fail_runs (diameters paths ga_fractions : list (list Py.float)) s :
  dump_history str path true diameters paths ga_fractions s
  = for_each (Z.of_nat <$> seq 0 (length diameters)) (dump_run str path ga_fractions)
             (open_w path s).1.
Proof.
  unfold dump_history, range. cbv [mbind M_bind open_w modify]. cbn [fst].
  by rewrite Nat2Z.id.
Qed.

End FailFile.

Section ReadFacts.

Context (float : string → result Py.float).

Lemma comprehension_length {A B} (f : A → result B) xs ys :
  comprehension f xs = Ok ys → length ys = length xs.
Proof.
  revert ys. induction xs as [|x xs IH]; intros ys; cbn [comprehension].
  - by intros [= <-].
  - destruct (f x) as [y| |]; [|done..]. cbn [mbind result_bind].
    destruct (comprehension f xs) as [zs| |]; [|done..]. cbn [mbind result_bind].
    intros [= <-]. cbn. f_equal. by apply IH.
Qed.

(** With fewer than two lines per run the fail file cannot be read. *)
Lemma read_fail_runs_short (runs : nat) (rest : list string) :
  length rest < 2 * runs → ∀ out, read_fail_runs float runs rest ≠ Ok out.
Proof.
  revert rest. induction runs as [|runs IH]; intros rest Hlen out; [lia|].
  cbn [read_fail_runs]. destruct rest as [|l1 [|l2 rest]]; [done..|].
  destruct (comprehension float _) as [vals| |]; [|done..]. cbn [mbind result_bind].
  destruct (normalized_robustness vals) as [vals'| |]; [|done..].
  cbn [mbind result_bind].
  destruct (read_fail_runs float runs rest) as [more| |] eqn:Hmore; [|done..].
  destruct (IH rest) with more; [cbn in Hlen; lia|done].
Qed.

End ReadFacts.

(** ** The fraction on graphs without edges *)

Section Edgeless.

Import nx Spec.

Lemma size_edgeless (g : nx.Graph) :
  Forall (λ e : node * list node, e.2 = []) g → size g = 0.
Proof.
  intros Hg. unfold size. rewrite Py_sum_sum_list.
  assert (sum_list (degree g).*2 = 0) as ->; [|done].
  unfold degree. induction Hg as [|[k ns] g' Hk _ IH]; [done|].
  cbn in Hk. subst ns. cbn [fmap list_fmap snd]. cbn. exact IH.
Qed.

Lemma subgraph_edgeless (g : nx.Graph) c :
  NoDup (nodes g) → edgeless g →
  Forall (λ e : node * list node, e.2 = []) (subgraph g c).
Proof.
  intros Hnd Hg. unfold subgraph. apply Forall_fmap, Forall_forall.
  intros [k ns] [_ Hin]%list_elem_of_filter. cbn.
  apply elem_adj_get in Hin; [|done].
  destruct ns as [|v ns]; [done|]. destruct (Hg k v). exists (v :: ns).
  split; [done|left].
Qed.

Lemma giant_component_fraction_edgeless (g : nx.Graph) :
  wf g → g ≠ [] → edgeless g → giant_component_fraction g = Ok (Py.Finite 0).
Proof.
  intros Hwf Hne Hg.
  destruct (giant_component_fraction_spec g Hwf Hne) as (cs & c & i & _ & _ & _ & _ & _ & ->).
  rewrite size_edgeless by (apply subgraph_edgeless; [apply Hwf|done]).
  f_equal.
Qed.

End Edgeless.

(** ** The fail-mode history file *)

Section FailText.

Context {Rng : Type} (str : Py.float → string) (float : string → result Py.float).
Context (path : string).
Implicit Types (s : Store Rng) (ga : list Py.float) (gas pre post : list (list Py.float)).

Lemma fail_text_cons i ga gas :
  fail_text str i (ga :: gas)
  = (pretty (Z.of_nat i) +:+ Text.nl) +:+ line str ga +:+ fail_text str (S i) gas.
Proof. done. Qed.

Lemma fail_text_app i gas post :
  fail_text str i (gas ++ post)
  = fail_text str i gas +:+ fail_text str (i + length gas) post.
Proof.
  revert i. induction gas as [|ga gas IH]; intros i.
  - cbn [app length]. by rewrite Nat.add_0_r.
  - cbn [app length]. rewrite !fail_text_cons, IH, !append_assoc.
    by replace (S i + length gas) with (i + S (length gas)) by lia.
Qed.

Lemma length_fail_lines i gas : length (fail_lines str i gas) = 2 * length gas.
Proof.
  revert i. induction gas as [|ga gas IH]; intros i; [done|].
  cbn [fail_lines length]. rewrite IH. lia.
Qed.

(** What the fail-mode loop of [dump_history] appends to the file. *)
Lemma dump_runs_text pre gas post s c :
  files s !! path = Some c →
  for_each (Z.of_nat <$> seq (length pre) (length gas))
           (dump_run str path (pre ++ gas ++ post)) s
  = (mkStore (heap s) (rng s)
       (<[path := c +:+ fail_text str (length pre) gas]> (files s)), Ok ()).
Proof.
  revert pre s c. induction gas as [|ga gas IH]; intros pre s c Hc.
  - cbn. unfold fail_text. cbn. rewrite append_nil_r, insert_id by done. by destruct s.
  - cbn [length seq fmap list_fmap]. rewrite for_each_cons. unfold dump_run at 1.
    cbv [mbind M_bind lift write modify]. rewrite Nat2Z.id. cbn [files heap rng].
    change ((ga :: gas) ++ post) with (ga :: (gas ++ post)).
    unfold Py.getitem. rewrite (list_lookup_middle pre _ ga (length pre)) by done.
    rewrite Hc, lookup_insert_eq. cbn [default]. rewrite insert_insert_eq.
    replace (pre ++ ga :: gas ++ post) with ((pre ++ [ga]) ++ gas ++ post)
      by (by rewrite <-app_assoc).
    replace (S (length pre)) with (length (pre ++ [ga]))
      by (rewrite length_app; cbn; lia).
    erewrite IH; [|cbn [files]; apply lookup_insert_eq].
    cbn [heap rng files]. rewrite insert_insert_eq. unfold id.
    rewrite length_app. cbn [length]. rewrite Nat.add_1_r.
    rewrite fail_text_cons. unfold line. by rewrite !append_assoc.
Qed.

(** The file a fail-mode [dump_history] leaves. *)
Lemma dump_history_fail_text (d p gas : list (list Py.float)) s :
  length d ≤ length gas →
  dump_history str path true d p gas s
  = (mkStore (heap s) (rng s)
       (<[path := fail_text str 0 (take (length d) gas)]> (files s)), Ok ()).
Proof.
  intros Hlen. rewrite dump_history_fail_runs.
  pose proof (dump_runs_text [] (take (length d) gas) (drop (length d) gas)
                (open_w path s).1 "") as Hrun.
  cbn [app length] in Hrun. rewrite take_drop, length_take in Hrun.
  replace (length d `min` length gas) with (length d) in Hrun by lia.
  rewrite Hrun by (unfold open_w, modify; cbn; apply lookup_insert_eq).
  unfold open_w, modify. cbn [fst heap rng files].
  rewrite insert_insert_eq. by change ("" +:+ ?t)%string with t.
Qed.

End FailText.

Section FailLines.

Context (str : Py.float → string) (float : string → result Py.float).
Implicit Types (ga : list Py.float) (gas : list (list Py.float)).

Lemma pretty_N_go_no_newline (x : N) (t : string) :
  no_newline t → no_newline (pretty_N_go x t).
Proof.
  revert t. induction (N.lt_wf_0 x) as [x _ IH]; intros t Ht.
  destruct (decide (x = 0)%N) as [->|Hx]; [by rewrite pretty_N_go_0|].
  rewrite pretty_N_go_step by lia. apply IH; [apply N.div_lt; lia|].
  constructor; [|done]. unfold pretty_N_char, Text.newline.
  by repeat case_match.
Qed.

Lemma pretty_no_newline (i : nat) : no_newline (pretty (Z.of_nat i)).
Proof.
  destruct (Z.of_nat i) as [|q|q] eqn:Hi; [by repeat constructor| |lia].
  change (pretty (Z.pos q)) with (pretty (N.pos q)).
  unfold pretty, pretty_N. case_decide; [done|].
  apply pretty_N_go_no_newline. constructor.
Qed.

Lemma no_newline_join_values ga :
  (∀ v, no_newline (str v)) → no_newline (join_values str ga).
Proof.
  intros Hstr. unfold join_values. induction ga as [|v ga IH]; [constructor|].
  destruct ga as [|v' ga]; [apply Hstr|].
  change (Text.join " " (str <$> v :: v' :: ga))
    with (str v +:+ " " +:+ Text.join " " (str <$> v' :: ga)).
  unfold no_newline. rewrite !list_ascii_append, !Forall_app. split_and!.
  - apply Hstr.
  - by repeat constructor.
  - apply IH.
Qed.

Lemma pretty_N_go_no_cr (x : N) (t : string) :
  no_cr t → no_cr (pretty_N_go x t).
Proof.
  revert t. induction (N.lt_wf_0 x) as [x _ IH]; intros t Ht.
  destruct (decide (x = 0)%N) as [->|Hx]; [by rewrite pretty_N_go_0|].
  rewrite pretty_N_go_step by lia. apply IH; [apply N.div_lt; lia|].
  constructor; [|done]. unfold pretty_N_char, Text.carriage_return.
  by repeat case_match.
Qed.

Lemma pretty_no_cr (i : nat) : no_cr (pretty (Z.of_nat i)).
Proof.
  destruct (Z.of_nat i) as [|q|q] eqn:Hi; [by repeat constructor| |lia].
  change (pretty (Z.pos q)) with (pretty (N.pos q)).
  unfold pretty, pretty_N. case_decide; [done|].
  apply pretty_N_go_no_cr. constructor.
Qed.

Lemma no_cr_join_values ga :
  (∀ v, no_space (str v)) → no_cr (join_values str ga).
Proof.
  intros Hstr. apply no_cr_join, Forall_fmap, Forall_forall.
  intros v _. apply Hstr.
Qed.

Lemma no_cr_fail_text i gas :
  Forall (λ ga, no_cr (join_values str ga)) gas → no_cr (fail_text str i gas).
Proof.
  intros Hgas. revert i. induction Hgas as [|ga gas Hga _ IH]; intros i.
  { constructor. }
  rewrite fail_text_cons. unfold line.
  apply no_cr_app; [apply no_cr_app; [apply pretty_no_cr|apply no_cr_nl]|].
  apply no_cr_app; [apply no_cr_app; [done|apply no_cr_nl]|apply IH].
Qed.

(** The lines of the text of a fail-mode file. *)
Lemma lines_fail_text i gas rest :
  Forall (λ ga, no_newline (join_values str ga)) gas →
  Text.lines_go [] (fail_text str i gas +:+ rest)
  = fail_lines str i gas ++ Text.lines_go [] rest.
Proof.
  intros Hgas. revert i. induction Hgas as [|ga gas Hga _ IH]; intros i; [done|].
  rewrite fail_text_cons. unfold line. cbn [fail_lines app].
  rewrite !append_assoc.
  rewrite <-(append_assoc (pretty (Z.of_nat i)) Text.nl).
  rewrite lines_go_line by apply pretty_no_newline. f_equal.
  rewrite <-(append_assoc (join_values str ga) Text.nl).
  rewrite lines_go_line by done. f_equal. apply IH.
Qed.

Lemma drop_last_line (t : string) : Text.drop_last (t +:+ Text.nl) = t.
Proof.
  unfold Text.drop_last. rewrite list_ascii_append.
  change (String.list_ascii_of_string Text.nl) with [Text.newline].
  by rewrite removelast_last, String.string_of_list_ascii_of_string.
Qed.

Lemma split_sep_go_field (sep : ascii) cur (t rest : string) :
  Forall (λ x, x ≠ sep) (String.list_ascii_of_string t) →
  Text.split_sep_go sep cur (t +:+ rest)
  = Text.split_sep_go sep (rev (String.list_ascii_of_string t) ++ cur) rest.
Proof.
  revert cur. induction t as [|x t IH]; intros cur Ht; [done|].
  apply Forall_cons in Ht as [Hx Ht]. rewrite append_cons. cbn [Text.split_sep_go].
  rewrite decide_False by done. rewrite IH by done.
  cbn [String.list_ascii_of_string rev]. by rewrite <-app_assoc.
Qed.

Lemma no_space_no_blank (t : string) :
  no_space t → Forall (λ x, x ≠ " "%char) (String.list_ascii_of_string t).
Proof. intros Ht. eapply Forall_impl; [exact Ht|]. by intros x Hx ->. Qed.

(** [split(' ')] of a line of printed numbers gives the numbers back. *)
Lemma split_sep_join (toks : list string) :
  toks ≠ [] → Forall no_space toks →
  Text.split_sep " " (Text.join " " toks) = toks.
Proof.
  unfold Text.split_sep. intros Hne Htoks.
  induction Htoks as [|t toks Ht Htoks IH]; [done|]. clear Hne.
  destruct toks as [|t' toks].
  - cbn [Text.join]. rewrite <-(append_nil_r t) at 1.
    rewrite split_sep_go_field by by apply no_space_no_blank.
    cbn [Text.split_sep_go]. rewrite app_nil_r, rev_involutive.
    by rewrite String.string_of_list_ascii_of_string.
  - change (Text.join " " (t :: t' :: toks))
      with (t +:+ " " +:+ Text.join " " (t' :: toks)).
    rewrite split_sep_go_field by by apply no_space_no_blank.
    change (" " +:+ ?r)%string with (String " "%char r).
    cbn [Text.split_sep_go]. rewrite decide_True by done.
    rewrite app_nil_r, rev_involutive, String.string_of_list_ascii_of_string.
    f_equal. by apply IH.
Qed.

Lemma read_run_line ga :
  ga ≠ [] → printable str float ga →
  comprehension float (Text.split_sep " " (Text.drop_last (line str ga))) = Ok ga.
Proof.
  intros Hne Hga. unfold line. rewrite drop_last_line. unfold join_values.
  rewrite split_sep_join.
  - clear Hne. induction Hga as [|v ga [Hv _] _ IH]; [done|].
    cbn [fmap list_fmap comprehension]. rewrite Hv. cbn [mbind result_bind].
    by rewrite IH.
  - by destruct ga.
  - apply Forall_fmap. eapply Forall_impl; [exact Hga|]. by intros v [_ [_ ?]].
Qed.

(** The reader of [plot_robustness] on the lines of a fail-mode file. *)
Lemma read_fail_lines (k i : nat) gas (more : list string) :
  k ≤ length gas →
  Forall (λ ga, ga ≠ [] ∧ printable str float ga) (take k gas) →
  read_fail_runs float k (fail_lines str i gas ++ more)
  = comprehension normalized_robustness (take k gas).
Proof.
  revert i gas. induction k as [|k IH]; intros i gas Hk Hgas; [done|].
  destruct gas as [|ga gas]; [cbn in Hk; lia|].
  cbn [take] in Hgas. apply Forall_cons in Hgas as [[Hne Hga] Hgas].
  cbn [fail_lines app read_fail_runs take comprehension].
  rewrite read_run_line by done. cbn [mbind result_bind].
  destruct (normalized_robustness ga) as [vals| |]; [|done..].
  cbn [mbind result_bind]. rewrite IH; [done|cbn in Hk; lia|done].
Qed.

End FailLines.

(** ** Lengths of the run histories *)

Section FailLengths.

Context {Rng : Type} (randbelow : Rng → nat → nat * Rng).
Implicit Types (s : Store Rng) (fr : FailFrame) (g : nx.Graph).

Lemma run_body_lengths (src : ref) (n f run : Z) fr s g fr' s' :
  heap s !! src = Some g →
  run_body randbelow src n f run (fr, s) = ((fr', s'), Ok ()) →
  heap s' !! src = Some g
  ∧ length (runs_diameters_history fr') = S (length (runs_diameters_history fr))
  ∧ length (runs_ga_fraction_history fr') = S (length (runs_ga_fraction_history fr)).
Proof.
  intros Hsrc. unfold run_body.
  cbv [mbind M_bind local modify]. cbn [fst snd]. unfold range.
  destruct (for_each _ _ _) as [[fr1 s1] r1] eqn:Hrun.
  eapply (fail_run_recorded randbelow f _ 0 _ s g g) in Hrun
    as (Hkept & _ & _ & Hruns & _); cbn [run_graph ga_on_run];
    [|done|constructor|lia|].
  2:{ split; [done|]. by intros ? ?%elem_of_nil. }
  cbn in Hruns. injection Hruns as Hr1 Hr2 Hr3.
  destruct r1 as [[]| |]; [|done..]. intros [= <- <-].
  cbn [runs_diameters_history runs_ga_fraction_history].
  rewrite !length_app, Hr1, Hr3. cbn [length].
  split_and!; [by apply Hkept|lia..].
Qed.

Lemma fail_loop_lengths (src : ref) (n f : Z) (runs : list Z) fr s g fr' s' :
  heap s !! src = Some g →
  for_each runs (run_body randbelow src n f) (fr, s) = ((fr', s'), Ok ()) →
  length (runs_diameters_history fr')
  = length (runs_diameters_history fr) + length runs
  ∧ length (runs_ga_fraction_history fr')
    = length (runs_ga_fraction_history fr) + length runs.
Proof.
  revert fr s. induction runs as [|run runs IH]; intros fr s Hsrc.
  { intros [= <- <-]. cbn. lia. }
  rewrite for_each_cons.
  destruct (run_body randbelow src n f run (fr, s)) as [[fr1 s1] r1] eqn:Hrun.
  destruct r1 as [[]| |]; [|done..].
  destruct (run_body_lengths _ _ _ _ _ _ _ _ _ Hsrc Hrun) as (Hsrc1 & Hd & Hga).
  intros Hrest. destruct (IH _ _ Hsrc1 Hrest) as [-> ->].
  rewrite Hd, Hga. cbn [length]. lia.
Qed.

End FailLengths.

(** ** Normalised series *)

Section Normalized.

Lemma normalized_robustness_eq (data : list Py.float) :
  normalized_robustness data
  = match data with
    | [] => Ok []
    | x :: _ =>
        if Py.is_zero x then Raise ZeroDivisionError
        else Ok ((λ v, Py.quotient v x) <$> data)
    end.
Proof.
  destruct data as [|x xs]; [done|]. unfold normalized_robustness.
  destruct (Py.is_zero x) eqn:Hx.
  - cbn [comprehension]. unfold Py.getitem, Py.fdiv. cbn [lookup list_lookup].
    cbn [mbind result_bind]. by rewrite Hx.
  - apply comprehension_Ok. intros v _. unfold Py.getitem, Py.fdiv.
    cbn [lookup list_lookup mbind result_bind]. by rewrite Hx.
Qed.

Lemma quotient_self_finite (q : Q) :
  Py.is_zero (Py.Finite q) = false →
  Py.quotient (Py.Finite q) (Py.Finite q) = Py.Finite 1.
Proof.
  intros Hq. cbn in Hq. cbn [Py.quotient]. f_equal.
  change 1%Q with (Qred 1). apply Qred_complete. field.
  intros Hz%Qeq_eq_bool. congruence.
Qed.

(** A float divided by itself is 1.0 or nan. *)
Lemma quotient_self (x : Py.float) :
  Py.is_zero x = false →
  Py.quotient x x = Py.Finite 1 ∨ Py.quotient x x = Py.NaN.
Proof.
  destruct x as [q|s|]; intros Hx; [left; by apply quotient_self_finite|by right..].
Qed.

(** Dividing by 1.0 changes nothing in a quotient by a finite float. *)
Lemma quotient_quotient_1 (v : Py.float) (q : Q) :
  Py.is_zero (Py.Finite q) = false →
  Py.quotient (Py.quotient v (Py.Finite q)) (Py.Finite 1)
  = Py.quotient v (Py.Finite q).
Proof.
  intros Hq. destruct v as [p|s|]; cbn [Py.quotient]; [| |done].
  - f_equal. apply Qred_complete. rewrite Qred_correct. field.
    intros Hz%Qeq_eq_bool. cbn in Hq. congruence.
  - change (Py.is_negative (Py.Finite 1)) with false. by rewrite xorb_false_r.
Qed.

Lemma normalized_robustness_head (data out : list Py.float) :
  normalized_robustness data = Ok out →
  length out = length data
  ∧ (data ≠ [] → head out = Some (Py.Finite 1) ∨ head out = Some Py.NaN).
Proof.
  rewrite normalized_robustness_eq. destruct data as [|x xs]; [by intros [= <-]|].
  destruct (Py.is_zero x) eqn:Hx; [done|]. intros [= <-].
  split; [cbn [length]; f_equal; apply (length_fmap (λ v, Py.quotient v x))|].
  intros _. cbn [fmap list_fmap head].
  destruct (quotient_self x Hx) as [-> | ->]; auto.
Qed.

Lemma split_sep_go_nonempty (sep : ascii) cur (t : string) :
  Text.split_sep_go sep cur t ≠ [].
Proof.
  revert cur. induction t as [|x t IH]; intros cur; [done|].
  cbn [Text.split_sep_go]. by case_decide.
Qed.

Lemma read_fail_runs_shape (float : string → result Py.float) (runs : nat)
    (rest : list string) (out : list (list Py.float)) :
  read_fail_runs float runs rest = Ok out →
  length out = runs
  ∧ Forall (λ run, head run = Some (Py.Finite 1) ∨ head run = Some Py.NaN) out.
Proof.
  revert rest out. induction runs as [|runs IH]; intros rest out.
  { by intros [= <-]. }
  cbn [read_fail_runs]. destruct rest as [|l1 [|l2 rest]]; [done..|].
  destruct (comprehension float _) as [vals| |] eqn:Hvals; [|done..].
  cbn [mbind result_bind].
  destruct (normalized_robustness vals) as [vals'| |] eqn:Hnorm; [|done..].
  cbn [mbind result_bind].
  destruct (read_fail_runs float runs rest) as [more| |] eqn:Hmore; [|done..].
  cbn [mbind result_bind]. intros [= <-].
  destruct (IH _ _ Hmore) as [Hlen Hall].
  split; [cbn; by rewrite Hlen|]. constructor; [|done].
  apply normalized_robustness_head in Hnorm as [_ Hhead]. apply Hhead.
  apply comprehension_length in Hvals. intros ->.
  by destruct (split_sep_go_nonempty " " [] (Text.drop_last l2)),
     (Text.split_sep " " (Text.drop_last l2)) eqn:?.
Qed.

End Normalized.

(** ** The sample printer *)

Lemma str_sample_no_space (v : Py.float) : no_space (str_sample v).
Proof. unfold str_sample. repeat case_match; by repeat constructor. Qed.

Lemma printable_sample :
  printable str_sample float_sample [Py.Finite 2; Py.Finite (1 # 2)].
Proof.
  constructor; [split; [reflexivity|split; [done|by repeat constructor]]|].
  constructor; [split; [reflexivity|split; [done|by repeat constructor]]|].
  constructor.
Qed.

(** ** The first sample of a run *)

Section FirstSample.

Context {Rng : Type} (randbelow : Rng → nat → nat * Rng).
Implicit Types (s : Store Rng) (fr : FailFrame) (g : nx.Graph) (f i : Z).

(** A removal step on a graph with a node returns a new object that
    holds one node less. *)
Lemma removal_step_Ok s (src : ref) g step :
  (∀ r n, 0 < n → (randbelow r n).1 < n) →
  heap s !! src = Some g → Spec.wf g → g ≠ [] →
  step = fail randbelow ∨ step = attack_degree →
  ∃ s' g',
    step src s = (s', Ok (length (heap s)))
    ∧ heap s' = heap s ++ [g']
    ∧ S (nx.order g') = nx.order g.
Proof.
  intros Hlt Hsrc Hwf Hne [-> | ->].
  - pose proof (fail_eq randbelow src g s Hsrc) as Hrun.
    rewrite nodes_new_Graph in Hrun by done.
    assert (length (nx.nodes g) = nx.order g) as Hlen.
    { unfold nx.nodes, nx.order. by rewrite length_fmap. }
    destruct (nx.nodes g) as [|n0 ns] eqn:Hnodes; [by destruct g|].
    pose proof (Hlt (rng s) (length (n0 :: ns))) as Hi.
    destruct (randbelow _ _) as [k r']. cbn [fst] in Hi.
    destruct (fail_value_Ok k g Hwf) as (n & Hn & Hval);
      [rewrite <-Hlen; apply Hi; cbn; lia|].
    rewrite Hval in Hrun. cbn [new_object mbind result_bind] in Hrun.
    eexists _, _. split_and!; [exact Hrun|done|].
    rewrite order_without, order_new_Graph; [done..|apply wf_new_Graph|].
    rewrite nodes_new_Graph by done. by eapply list_elem_of_lookup_2.
  - pose proof (attack_degree_eq src g s Hsrc) as Hrun.
    destruct (attack_degree_value_Ok g Hwf Hne) as (k & _ & Hk & Hval).
    rewrite Hval in Hrun. cbn [new_object mbind result_bind] in Hrun.
    eexists _, _. split_and!; [exact Hrun|done|].
    rewrite order_without, order_new_Graph; [done..|apply wf_new_Graph|].
    by rewrite nodes_new_Graph.
Qed.






End FirstSample.

Lemma counter_randbelow_lt (r n : nat) : 0 < n → (counter_randbelow r n).1 < n.
Proof. intros Hn. cbn. apply Nat.mod_upper_bound. lia. Qed.

(** * The claims *)

(** C1, as stated, fails: on a path of five nodes beside a complete graph
    on four nodes the component with the most edges is the complete graph
    (six edges), but the metric is not six ninths. *)
Lemma giant_component_not_most_edges :
  ¬ ∃ cs c,
      nx.connected_component_subgraphs path5_and_K4 = Ok cs
      ∧ c ∈ cs
      ∧ (∀ c', c' ∈ cs → nx.size c' ≤ nx.size c)
      ∧ giant_component_fraction path5_and_K4
        = Py.fdiv (Py.of_nat (nx.size c)) (Py.of_nat (nx.order path5_and_K4)).
Proof.
  intros (cs & c & Hcs & Hc & Hmax & Hgcf).
  vm_compute in Hcs. injection Hcs as <-.
  assert (nx.size c = 6) as Hsize.
  { apply elem_of_cons in Hc as [->|Hc]; [exfalso|].
    - match type of Hmax with
      | ∀ c', c' ∈ [?a; ?b] → _ => specialize (Hmax b)
      end.
      vm_compute in Hmax. assert (6 ≤ 4) as ?; [|lia].
      apply Hmax. right. left.
    - apply list_elem_of_singleton in Hc as ->. by vm_compute. }
  rewrite Hsize in Hgcf. vm_compute in Hgcf. discriminate.
Qed.

(** C1, amended: on every graph with a node, [giant_component_fraction]
    takes the first connected component with the most nodes and returns
    its edge count divided by the node count of the whole graph; on the
    graph with components of 3 nodes/2 edges and 2 nodes/1 edge it returns
    2/5. *)
Theorem giant_component_fraction_most_nodes (g : nx.Graph) :
  Spec.wf g → g ≠ [] →
  (∃ cs c i,
      nx.connected_components g = Ok cs
      ∧ Forall (is_component g) cs
      ∧ cs !! i = Some c
      ∧ (∀ c', c' ∈ cs → length c' ≤ length c)
      ∧ (∀ j c', j < i → cs !! j = Some c' → length c' < length c)
      ∧ giant_component_fraction g
        = Ok (Py.Finite
                (Qred (Py.of_nat (nx.size (nx.subgraph g c)) / Py.of_nat (nx.order g)))))
  ∧ giant_component_fraction two_components = Ok (Py.Finite (2 # 5)).
Proof.
  intros Hwf Hne. split; [by apply giant_component_fraction_spec|]. by vm_compute.
Qed.

Lemma giant_component_fraction_most_nodes_witness :
  Spec.wf two_components ∧ two_components ≠ [] ∧
  ((∃ cs c i,
      nx.connected_components two_components = Ok cs
      ∧ Forall (is_component two_components) cs
      ∧ cs !! i = Some c
      ∧ (∀ c', c' ∈ cs → length c' ≤ length c)
      ∧ (∀ j c', j < i → cs !! j = Some c' → length c' < length c)
      ∧ giant_component_fraction two_components
        = Ok (Py.Finite
                (Qred (Py.of_nat (nx.size (nx.subgraph two_components c))
                       / Py.of_nat (nx.order two_components)))))
   ∧ giant_component_fraction two_components = Ok (Py.Finite (2 # 5))).
Proof.
  split; [apply wf_from_edges|]. split; [done|].
  apply (giant_component_fraction_most_nodes two_components);
    [apply wf_from_edges|done].
Defined.

(** C3, as stated, fails: on the path 1-2-3 the average path length is
    not 4/6. *)
Lemma path3_avg_path_length_not_4_6 :
  diameter_and_avg_path_length path3 ≠ Ok (2, Py.Finite (Qred (4 # 6))).
Proof. by vm_compute. Qed.

(** C3, amended: on the path graph with edges 1-2 and 2-3,
    [diameter_and_avg_path_length] returns diameter 2 and average path
    length 8/6 = 4/3: the ordered pairs contribute 2·(1+1+2) = 8. *)
Theorem path3_diameter_and_avg_path_length :
  diameter_and_avg_path_length path3 = Ok (2, Py.Finite (Qred (8 # 6)))
  ∧ Qred (8 # 6) = (4 # 3)%Q.
Proof. by vm_compute. Qed.

(** C5: on the graph without nodes [giant_component_fraction] raises
    [IndexError] (there is no first component), where the claim wants 0.0;
    the sibling metric does return 0.0 there. *)
Theorem giant_component_fraction_empty :
  giant_component_fraction nx.empty = Raise IndexError
  ∧ diameter_and_avg_path_length nx.empty = Ok (0, Py.Finite 0).
Proof. by vm_compute. Qed.

(** C8: on every graph the average path length is the sum of the
    shortest-path distances over the ordered pairs of nodes joined by a
    path, divided by N·(N−1); it is 0.0 when N ≤ 1. *)
Theorem avg_path_length_formula (g : nx.Graph) :
  Spec.wf g →
  ∃ diameter avg tbl,
    diameter_and_avg_path_length g = Ok (diameter, avg)
    ∧ Spec.distance_table g tbl
    ∧ (nx.order g ≤ 1 → avg = 0%Q)
    ∧ (1 < nx.order g →
       avg = Qred (Py.of_nat (sum_list tbl.*2)
                   / Py.of_int (Z.of_nat (nx.order g) * (Z.of_nat (nx.order g) - 1)))).
Proof.
  intros Hwf. destruct (distance_table_exists g Hwf) as (tbl & Htbl & ->).
  eexists _, _, tbl. split_and!; [done..| |]; intros ?; case_decide; done || lia.
Qed.

Lemma avg_path_length_formula_witness :
  Spec.wf path3 ∧
  ∃ diameter avg tbl,
    diameter_and_avg_path_length path3 = Ok (diameter, avg)
    ∧ Spec.distance_table path3 tbl
    ∧ (nx.order path3 ≤ 1 → avg = 0%Q)
    ∧ (1 < nx.order path3 →
       avg = Qred (Py.of_nat (sum_list tbl.*2)
                   / Py.of_int (Z.of_nat (nx.order path3)
                                * (Z.of_nat (nx.order path3) - 1)))).
Proof.
  split; [apply wf_from_edges|].
  apply (avg_path_length_formula path3), wf_from_edges.
Defined.

(** C9, as stated, fails: a series that starts with an infinity has a
    first element that is not zero, and its normalised series starts with
    nan, not with 1.0: inf / inf is nan. *)
Lemma normalized_robustness_first_not_always_1 :
  ¬ ∀ (x : Py.float) (xs out : list Py.float),
      Py.is_zero x = false →
      normalized_robustness (x :: xs) = Ok out →
      head out = Some (Py.Finite 1).
Proof.
  intros H.
  specialize (H (Py.Inf false) [Py.Finite 1] [Py.NaN; Py.Finite 0] eq_refl eq_refl).
  discriminate H.
Qed.

(** C9, amended: on a series whose first element is not zero,
    [normalized_robustness] divides every element by the first; when the
    first element is finite the output starts with 1.0; [4.0, 2.0, 1.0]
    becomes [1.0, 0.5, 0.25]. *)
Theorem normalized_robustness_first (x : Py.float) (xs : list Py.float) :
  Py.is_zero x = false →
  normalized_robustness (x :: xs)
  = Ok (Py.quotient x x :: ((λ v, Py.quotient v x) <$> xs))
  ∧ (∀ q, x = Py.Finite q → Py.quotient x x = Py.Finite 1)
  ∧ normalized_robustness [Py.Finite 4; Py.Finite 2; Py.Finite 1]
    = Ok [Py.Finite 1; Py.Finite (1 # 2); Py.Finite (1 # 4)].
Proof.
  intros Hx. split_and!; [| |by vm_compute].
  - unfold normalized_robustness.
    rewrite (comprehension_Ok _ (λ v, Py.quotient v x)); [done|].
    intros v _. cbn. unfold Py.fdiv. by rewrite Hx.
  - intros q ->. cbn in Hx. cbn [Py.quotient]. f_equal.
    change 1%Q with (Qred 1). apply Qred_complete. field.
    intros Hq%Qeq_eq_bool. congruence.
Qed.

Lemma normalized_robustness_first_witness :
  Py.is_zero (Py.Finite 4) = false ∧
  (normalized_robustness [Py.Finite 4; Py.Finite 2; Py.Finite 1]
   = Ok (Py.quotient (Py.Finite 4) (Py.Finite 4)
         :: ((λ v, Py.quotient v (Py.Finite 4)) <$> [Py.Finite 2; Py.Finite 1]))
   ∧ (∀ q, Py.Finite 4 = Py.Finite q
           → Py.quotient (Py.Finite 4) (Py.Finite 4) = Py.Finite 1)
   ∧ normalized_robustness [Py.Finite 4; Py.Finite 2; Py.Finite 1]
     = Ok [Py.Finite 1; Py.Finite (1 # 2); Py.Finite (1 # 4)]).
Proof.
  split; [reflexivity|].
  apply (normalized_robustness_first (Py.Finite 4) [Py.Finite 2; Py.Finite 1]).
  reflexivity.
Defined.

(** C6, as stated, fails: on a graph without nodes neither step returns
    a graph; both raise after taking the copy. *)
Lemma removal_step_does_not_always_return :
  (¬ ∀ (s : Store nat) (src : ref) (g : nx.Graph),
       heap s !! src = Some g →
       ∃ s' new, attack_degree src s = (s', Ok new))
  ∧ (¬ ∀ (s : Store nat) (src : ref) (g : nx.Graph),
         heap s !! src = Some g →
         ∃ s' new, fail counter_randbelow src s = (s', Ok new)).
Proof.
  split; intros H;
    destruct (H (mkStore [nx.empty] 0 ∅) 0 nx.empty eq_refl) as (s' & new & Hrun);
    vm_compute in Hrun; discriminate Hrun.
Qed.

(** C6, amended: a removal step, [fail] or [attack_degree], whatever
    its outcome, leaves every graph object of the store as it was, its
    argument included, so the node and edge counts of the argument are
    unchanged, and a reference it returns is to an object that did not
    exist before.  On a graph with at least one node (and, for [fail], a
    random source that draws below its bound) the step does return: the
    new object holds one node less. *)
Theorem removal_keeps_input {Rng} (randbelow : Rng → nat → nat * Rng)
    (s : Store Rng) (src : ref) (g : nx.Graph) :
  heap s !! src = Some g →
  ∀ step, step = fail randbelow ∨ step = attack_degree →
  (∀ s' r, step src s = (s', r) →
     heap s' !! src = Some g
     ∧ take (length (heap s)) (heap s') = heap s
     ∧ files s' = files s
     ∧ ∀ new, r = Ok new →
         new ≠ src ∧ heap s !! new = None ∧ is_Some (heap s' !! new))
  ∧ ((∀ r n, 0 < n → (randbelow r n).1 < n) → Spec.wf g → g ≠ [] →
     ∃ s' new g',
       step src s = (s', Ok new)
       ∧ heap s' !! new = Some g'
       ∧ S (nx.order g') = nx.order g).
Proof.
  intros Hsrc step Hstep. split.
  - intros s' r Hrun.
    assert (∃ g', heap s' = heap s ++ [g'] ∧ files s' = files s
                  ∧ ∀ new, r = Ok new → new = length (heap s))
      as (g' & Hheap & Hfiles & Hnew).
    { destruct Hstep as [-> | ->].
      - rewrite (fail_eq randbelow src g s Hsrc) in Hrun.
        destruct (nx.nodes _); [|destruct (randbelow _ _) as [i r']];
          injection Hrun as <- <-; cbn; eexists; split_and!; try done.
        destruct (fail_value i g); cbn; by intros ? [= <-].
      - rewrite (attack_degree_eq src g s Hsrc) in Hrun.
        injection Hrun as <- <-; cbn; eexists; split_and!; try done.
        destruct (attack_degree_value g); cbn; by intros ? [= <-]. }
    pose proof (lookup_lt_Some _ _ _ Hsrc) as Hlt.
    rewrite Hheap. split_and!.
    + by rewrite lookup_app_l.
    + by rewrite take_app_length.
    + done.
    + intros new ->%Hnew. split_and!; [lia| |].
      * by apply lookup_ge_None.
      * rewrite lookup_app_r, Nat.sub_diag by lia. by eexists.
  - intros Hlt Hwf Hne.
    destruct (removal_step_Ok randbelow s src g step Hlt Hsrc Hwf Hne Hstep)
      as (s' & g' & Hrun & Hheap & Ho).
    exists s', (length (heap s)), g'. split_and!; [done| |done].
    rewrite Hheap. by rewrite lookup_app_r, Nat.sub_diag by lia.
Qed.

Lemma removal_keeps_input_witness :
  heap path3_store !! 0 = Some path3 ∧
  (∀ r n, 0 < n → (counter_randbelow r n).1 < n) ∧ Spec.wf path3 ∧ path3 ≠ [] ∧
  ∀ step, step = fail counter_randbelow ∨ step = attack_degree →
  (∀ s' r, step 0 path3_store = (s', r) →
     heap s' !! 0 = Some path3
     ∧ take (length (heap path3_store)) (heap s') = heap path3_store
     ∧ files s' = files path3_store
     ∧ ∀ new, r = Ok new →
         new ≠ 0 ∧ heap path3_store !! new = None ∧ is_Some (heap s' !! new))
  ∧ (∃ s' new g',
       step 0 path3_store = (s', Ok new)
       ∧ heap s' !! new = Some g'
       ∧ S (nx.order g') = nx.order path3).
Proof.
  split; [reflexivity|]. split; [exact counter_randbelow_lt|].
  split; [apply wf_from_edges|]. split; [done|].
  intros step Hstep.
  destruct (removal_keeps_input counter_randbelow path3_store 0 path3 eq_refl
              step Hstep) as [Hframe Hreturns].
  split; [exact Hframe|].
  apply Hreturns; [exact counter_randbelow_lt|apply wf_from_edges|done].
Defined.

(** C7: [attack_degree] is deterministic: two calls on the same graph
    with a node, the second after the first, both succeed, remove the same
    node and return two distinct objects holding equal graphs. *)
Theorem attack_degree_deterministic {Rng} (s : Store Rng) (src : ref) (g : nx.Graph) :
  heap s !! src = Some g → Spec.wf g → g ≠ [] →
  ∃ k s1 s2 r1 r2,
    attack_degree src s = (s1, Ok r1)
    ∧ attack_degree src s1 = (s2, Ok r2)
    ∧ r1 ≠ r2
    ∧ k ∈ nx.nodes g
    ∧ attack_degree_pick g = Ok k
    ∧ heap s2 !! r1 = Some (without (nx.new_Graph g) k)
    ∧ heap s2 !! r2 = Some (without (nx.new_Graph g) k)
    ∧ nx.nodes (without (nx.new_Graph g) k) = filter (λ n, n ≠ k) (nx.nodes g).
Proof.
  intros Hsrc Hwf Hne.
  destruct (attack_degree_value_Ok g Hwf Hne) as (k & Hk & Hin & Hval).
  pose proof (lookup_lt_Some _ _ _ Hsrc) as Hlt.
  pose proof (attack_degree_eq src g s Hsrc) as H1. rewrite Hval in H1.
  cbn [new_object mbind result_bind] in H1.
  set (s1 := mkStore (heap s ++ [without (nx.new_Graph g) k]) (rng s) (files s)) in *.
  assert (heap s1 !! src = Some g) as Hsrc1 by (cbn; by rewrite lookup_app_l).
  pose proof (attack_degree_eq src g s1 Hsrc1) as H2. rewrite Hval in H2.
  cbn [new_object mbind result_bind] in H2.
  eexists k, _, _, _, _. split_and!; [exact H1|exact H2|..|done|done| | |].
  - cbn. rewrite length_app. cbn. lia.
  - cbn. rewrite lookup_app_l by (rewrite length_app; cbn; lia).
    by rewrite lookup_app_r, Nat.sub_diag by lia.
  - cbn. by rewrite lookup_app_r, Nat.sub_diag by lia.
  - by rewrite nodes_without, nodes_new_Graph.
Qed.

Lemma attack_degree_deterministic_witness :
  heap path3_store !! 0 = Some path3 ∧ Spec.wf path3 ∧ path3 ≠ [] ∧
  ∃ k s1 s2 r1 r2,
    attack_degree 0 path3_store = (s1, Ok r1)
    ∧ attack_degree 0 s1 = (s2, Ok r2)
    ∧ r1 ≠ r2
    ∧ k ∈ nx.nodes path3
    ∧ attack_degree_pick path3 = Ok k
    ∧ heap s2 !! r1 = Some (without (nx.new_Graph path3) k)
    ∧ heap s2 !! r2 = Some (without (nx.new_Graph path3) k)
    ∧ nx.nodes (without (nx.new_Graph path3) k) = filter (λ n, n ≠ k) (nx.nodes path3).
Proof.
  split; [reflexivity|]. split; [apply wf_from_edges|]. split; [done|].
  apply (attack_degree_deterministic path3_store 0 path3);
    [reflexivity|apply wf_from_edges|done].
Defined.

(** C2, as stated, fails: on the path 1-2-3 with four removals requested
    and a sample every 50 iterations, the run does not halt early; the
    fourth [attack_degree] takes [max] of an empty degree list and the
    run ends in [ValueError]. *)
Lemma attack_beyond_node_count_fails :
  (robustness_by_attack (λ _, "0") "attack_history" 0 4 50 path3_store).2
  = Raise ValueError.
Proof. by vm_compute. Qed.

(** C2, amended: with more removals requested than the graph has nodes,
    [robustness_by_attack] does not halt early: the run ends in an
    exception and no history file is written. *)
Theorem attack_beyond_node_count_raises {Rng} (str : Py.float → string)
    (ROBUSTNESS_ATTACK_HISTORY : string) (s : Store Rng) (src : ref)
    (g : nx.Graph) (nodes_to_remove measure_frequency : Z) :
  heap s !! src = Some g → Spec.wf g →
  (Z.of_nat (nx.order g) < nodes_to_remove)%Z →
  ∃ s' e,
    robustness_by_attack str ROBUSTNESS_ATTACK_HISTORY src
      nodes_to_remove measure_frequency s = (s', Raise e)
    ∧ files s' = files s.
Proof.
  intros Hsrc Hwf Hn. unfold robustness_by_attack, attack_loop, range.
  destruct (attack_loop_exhausts measure_frequency (Z.to_nat nodes_to_remove) 0
              (mkAttackFrame src [] [] []) s g) as (fr' & s' & e & -> & Hfiles);
    [done|done|lia|].
  by exists s', e.
Qed.

Lemma attack_beyond_node_count_raises_witness :
  heap path3_store !! 0 = Some path3 ∧ Spec.wf path3 ∧
  (Z.of_nat (nx.order path3) < 4)%Z ∧
  ∃ s' e,
    robustness_by_attack (λ _, "0") "attack_history" 0 4 50 path3_store
    = (s', Raise e)
    ∧ files s' = files path3_store.
Proof.
  split; [reflexivity|]. split; [apply wf_from_edges|]. split; [by vm_compute|].
  apply (attack_beyond_node_count_raises (λ _, "0") "attack_history"
           path3_store 0 path3 4 50);
    [reflexivity|apply wf_from_edges|by vm_compute].
Defined.



(** C4: the reader of [plot_robustness] does not give back the three
    series: for every attack-mode history whose numbers print as tokens
    that parse back, reading the dumped file yields one flat list, the
    diameters, path lengths and fractions concatenated (and
    [plot_robustness] then divides all of it by the first diameter). *)
Theorem attack_history_read_back_flat {Rng} (str : Py.float → string)
    (float : string → result Py.float) (path : string) (s : Store Rng)
    (diameters paths ga_fractions : list Py.float) :
  printable str float diameters → printable str float paths →
  printable str float ga_fractions →
  ∃ s1, dump_history str path false diameters paths ga_fractions s = (s1, Ok ())
        ∧ read_attack_history float path s1
          = (s1, Ok (diameters ++ paths ++ ga_fractions)).
Proof. apply read_attack_history_after_dump. Qed.

Lemma attack_history_read_back_flat_witness :
  printable str_sample float_sample [Py.Finite 2] ∧
  printable str_sample float_sample [Py.Finite (1 # 2)] ∧
  printable str_sample float_sample [Py.Finite (1 # 4)] ∧
  ∃ s1, dump_history str_sample "attack_history" false
          [Py.Finite 2] [Py.Finite (1 # 2)] [Py.Finite (1 # 4)] path3_store = (s1, Ok ())
        ∧ read_attack_history float_sample "attack_history" s1
          = (s1, Ok ([Py.Finite 2] ++ [Py.Finite (1 # 2)] ++ [Py.Finite (1 # 4)])).
Proof.
  assert (∀ v, float_sample (str_sample v) = Ok v → Text.token (str_sample v) →
               printable str_sample float_sample [v]) as Hone.
  { intros v ??. constructor; [by split|constructor]. }
  assert (printable str_sample float_sample [Py.Finite 2]) as H1.
  { apply Hone; [reflexivity|]. split; [done|]. by repeat constructor. }
  assert (printable str_sample float_sample [Py.Finite (1 # 2)]) as H2.
  { apply Hone; [reflexivity|]. split; [done|]. by repeat constructor. }
  assert (printable str_sample float_sample [Py.Finite (1 # 4)]) as H3.
  { apply Hone; [reflexivity|]. split; [done|]. by repeat constructor. }
  split; [exact H1|]. split; [exact H2|]. split; [exact H3|].
  exact (attack_history_read_back_flat str_sample float_sample "attack_history"
           path3_store [Py.Finite 2] [Py.Finite (1 # 2)] [Py.Finite (1 # 4)] H1 H2 H3).
Defined.

(** What [plot_robustness] then plots for that history: every number
    divided by the first diameter. *)
Example flat_history_normalized :
  normalized_robustness ([Py.Finite 2] ++ [Py.Finite (1 # 2)] ++ [Py.Finite (1 # 4)])
  = Ok [Py.Finite 1; Py.Finite (1 # 4); Py.Finite (1 # 8)].
Proof. by vm_compute. Qed.

(** * Further theorems *)

(** X1: on a graph with a node, [attack_degree] removes the first node,
    in insertion order, among those of the largest degree: the new graph
    has the other nodes in their order and exactly the edges that do not
    touch the removed node. *)
Theorem attack_degree_removes_first_max_degree {Rng} (s : Store Rng) (src : ref)
    (g : nx.Graph) :
  heap s !! src = Some g → Spec.wf g → g ≠ [] →
  ∃ i k d s' new g',
    nx.degree g !! i = Some (k, d)
    ∧ (∀ e, e ∈ nx.degree g → e.2 ≤ d)
    ∧ (∀ j e, j < i → nx.degree g !! j = Some e → e.2 < d)
    ∧ attack_degree src s = (s', Ok new)
    ∧ heap s' !! new = Some g'
    ∧ nx.nodes g' = filter (λ n, n ≠ k) (nx.nodes g)
    ∧ ∀ u v, Spec.edge g' u v ↔ Spec.edge g u v ∧ u ≠ k ∧ v ≠ k.
Proof.
  intros Hsrc Hwf Hne.
  destruct (attack_degree_value_Ok g Hwf Hne) as (k & Hk & Hin & Hval).
  destruct (attack_degree_pick_first g k Hwf Hk) as (i & d & Hi & Hmax & Hfirst).
  pose proof (attack_degree_eq src g s Hsrc) as Hrun. rewrite Hval in Hrun.
  cbn [new_object mbind result_bind] in Hrun.
  eexists i, k, d, _, _, _. split_and!; [done..|exact Hrun| | |].
  - cbn. by rewrite lookup_app_r, Nat.sub_diag by lia.
  - by rewrite nodes_without, nodes_new_Graph.
  - intros u v. rewrite edge_without. by rewrite edge_new_Graph.
Qed.

Lemma attack_degree_removes_first_max_degree_witness :
  heap path3_store !! 0 = Some path3 ∧ Spec.wf path3 ∧ path3 ≠ [] ∧
  ∃ i k d s' new g',
    nx.degree path3 !! i = Some (k, d)
    ∧ (∀ e, e ∈ nx.degree path3 → e.2 ≤ d)
    ∧ (∀ j e, j < i → nx.degree path3 !! j = Some e → e.2 < d)
    ∧ attack_degree 0 path3_store = (s', Ok new)
    ∧ heap s' !! new = Some g'
    ∧ nx.nodes g' = filter (λ n, n ≠ k) (nx.nodes path3)
    ∧ ∀ u v, Spec.edge g' u v ↔ Spec.edge path3 u v ∧ u ≠ k ∧ v ≠ k.
Proof.
  split; [reflexivity|]. split; [apply wf_from_edges|]. split; [done|].
  apply (attack_degree_removes_first_max_degree path3_store 0 path3);
    [reflexivity|apply wf_from_edges|done].
Defined.

(** X2: on a graph without nodes both strategies raise after making the
    copy: [attack_degree] raises [ValueError] ([max] of no degrees),
    [fail] raises [IndexError] ([random.choice] of no nodes) without
    drawing a random number. *)
Theorem removal_on_empty_graph_raises {Rng} (randbelow : Rng → nat → nat * Rng)
    (s : Store Rng) (src : ref) :
  heap s !! src = Some nx.empty →
  attack_degree src s
  = (mkStore (heap s ++ [nx.empty]) (rng s) (files s), Raise ValueError)
  ∧ fail randbelow src s
    = (mkStore (heap s ++ [nx.empty]) (rng s) (files s), Raise IndexError).
Proof.
  intros Hsrc. split.
  - by rewrite (attack_degree_eq src _ s Hsrc).
  - by rewrite (fail_eq randbelow src _ s Hsrc).
Qed.

Lemma removal_on_empty_graph_raises_witness :
  heap (mkStore [nx.empty] 0 ∅) !! 0 = Some nx.empty ∧
  attack_degree 0 (mkStore [nx.empty] 0 ∅)
  = (mkStore ([nx.empty] ++ [nx.empty]) 0 ∅, Raise ValueError)
  ∧ fail counter_randbelow 0 (mkStore [nx.empty] 0 ∅)
    = (mkStore ([nx.empty] ++ [nx.empty]) 0 ∅, Raise IndexError).
Proof.
  split; [reflexivity|].
  apply (removal_on_empty_graph_raises counter_randbelow (mkStore [nx.empty] 0 ∅) 0).
  reflexivity.
Defined.

(** X3: with a random source that draws below its bound, [fail] on a
    graph with a node always succeeds: it removes exactly one node of the
    graph, keeps the order of the others and exactly the edges that do
    not touch it. *)
Theorem fail_removes_one_node {Rng} (randbelow : Rng → nat → nat * Rng)
    (s : Store Rng) (src : ref) (g : nx.Graph) :
  (∀ r n, 0 < n → (randbelow r n).1 < n) →
  heap s !! src = Some g → Spec.wf g → g ≠ [] →
  ∃ k s' new g',
    k ∈ nx.nodes g
    ∧ fail randbelow src s = (s', Ok new)
    ∧ heap s' !! new = Some g'
    ∧ nx.nodes g' = filter (λ n, n ≠ k) (nx.nodes g)
    ∧ S (nx.order g') = nx.order g
    ∧ ∀ u v, Spec.edge g' u v ↔ Spec.edge g u v ∧ u ≠ k ∧ v ≠ k.
Proof.
  intros Hlt Hsrc Hwf Hne.
  pose proof (fail_eq randbelow src g s Hsrc) as Hrun.
  rewrite nodes_new_Graph in Hrun by done.
  assert (length (nx.nodes g) = nx.order g) as Hlen.
  { unfold nx.nodes, nx.order. by rewrite length_fmap. }
  destruct (nx.nodes g) as [|n0 ns] eqn:Hnodes; [by destruct g|].
  pose proof (Hlt (rng s) (length (n0 :: ns))) as Hi.
  destruct (randbelow _ _) as [i r']. cbn [fst] in Hi.
  destruct (fail_value_Ok i g Hwf) as (k & Hk & Hval);
    [rewrite <-Hlen; apply Hi; cbn; lia|].
  rewrite Hval in Hrun. cbn [new_object mbind result_bind] in Hrun.
  assert (k ∈ nx.nodes g) as Hin by (by eapply list_elem_of_lookup_2).
  eexists k, _, _, _. split_and!; [by rewrite <-Hnodes|exact Hrun|..].
  - cbn. by rewrite lookup_app_r, Nat.sub_diag by lia.
  - by rewrite nodes_without, nodes_new_Graph, Hnodes.
  - rewrite order_without, order_new_Graph; [done..|apply wf_new_Graph|].
    by rewrite nodes_new_Graph.
  - intros u v. rewrite edge_without. by rewrite edge_new_Graph.
Qed.

Lemma fail_removes_one_node_witness :
  (∀ r n, 0 < n → (counter_randbelow r n).1 < n) ∧
  heap path3_store !! 0 = Some path3 ∧ Spec.wf path3 ∧ path3 ≠ [] ∧
  ∃ k s' new g',
    k ∈ nx.nodes path3
    ∧ fail counter_randbelow 0 path3_store = (s', Ok new)
    ∧ heap s' !! new = Some g'
    ∧ nx.nodes g' = filter (λ n, n ≠ k) (nx.nodes path3)
    ∧ S (nx.order g') = nx.order path3
    ∧ ∀ u v, Spec.edge g' u v ↔ Spec.edge path3 u v ∧ u ≠ k ∧ v ≠ k.
Proof.
  split; [exact counter_randbelow_lt|]. split; [reflexivity|].
  split; [apply wf_from_edges|]. split; [done|].
  apply (fail_removes_one_node counter_randbelow path3_store 0 path3);
    [exact counter_randbelow_lt|reflexivity|apply wf_from_edges|done].
Defined.

(** X4: on every graph with a node [giant_component_fraction] returns a
    value, and the value is not negative: the search for components never
    looks up a missing node and the node count is not zero. *)
Theorem giant_component_fraction_defined (g : nx.Graph) :
  Spec.wf g → g ≠ [] →
  ∃ q : Q, giant_component_fraction g = Ok (Py.Finite q) ∧ (0 <= q)%Q.
Proof.
  intros Hwf Hne.
  destruct (giant_component_fraction_spec g Hwf Hne)
    as (cs & c & i & _ & _ & _ & _ & _ & ->).
  eexists. split; [done|]. rewrite Qred_correct. unfold Qdiv.
  apply Qmult_le_0_compat; [|apply Qinv_le_0_compat];
    unfold Py.of_nat, Qle; cbn; lia.
Qed.

Lemma giant_component_fraction_defined_witness :
  Spec.wf two_components ∧ two_components ≠ [] ∧
  ∃ q : Q, giant_component_fraction two_components = Ok (Py.Finite q) ∧ (0 <= q)%Q.
Proof.
  split; [apply wf_from_edges|]. split; [done|].
  apply (giant_component_fraction_defined two_components);
    [apply wf_from_edges|done].
Defined.

(** X5: on a graph with nodes and no edges [giant_component_fraction]
    is 0, whatever the number of nodes: the numerator counts the edges of
    the chosen component, not its nodes. *)
Theorem giant_component_fraction_without_edges (g : nx.Graph) :
  Spec.wf g → g ≠ [] → edgeless g → giant_component_fraction g = Ok (Py.Finite 0).
Proof. apply giant_component_fraction_edgeless. Qed.

Lemma giant_component_fraction_without_edges_witness :
  Spec.wf [(1, []); (2, [])]%Z ∧ [(1, []); (2, [])]%Z ≠ ([] : nx.Graph) ∧
  edgeless [(1, []); (2, [])]%Z ∧
  giant_component_fraction [(1, []); (2, [])]%Z = Ok (Py.Finite 0).
Proof.
  assert (Spec.wf (nx.add_node (nx.add_node nx.empty 1) 2)) as Hwf
    by (do 2 apply wf_add_node; apply wf_empty).
  assert (edgeless [(1, []); (2, [])]%Z) as He.
  { intros u v (ns & Hns & Hv). cbn in Hns.
    repeat case_decide; simplify_eq; by apply elem_of_nil in Hv. }
  split; [exact Hwf|]. split; [done|]. split; [exact He|].
  apply (giant_component_fraction_without_edges [(1, []); (2, [])]%Z);
    [exact Hwf|done|exact He].
Defined.

(** X6: on every graph [diameter_and_avg_path_length] returns a value,
    and the diameter is the largest shortest-path distance between two
    nodes joined by a path; pairs that no path joins do not count, and the
    diameter is 0 when the graph has no nodes. *)
Theorem diameter_is_largest_distance (g : nx.Graph) :
  Spec.wf g →
  ∃ tbl diameter avg,
    Spec.distance_table g tbl
    ∧ diameter_and_avg_path_length g = Ok (diameter, avg)
    ∧ (∀ s t d, (s, t, d) ∈ tbl → d ≤ diameter)
    ∧ (g = [] ∧ diameter = 0 ∨ ∃ s t, (s, t, diameter) ∈ tbl).
Proof.
  intros Hwf. destruct (distance_table_exists g Hwf) as (tbl & Htbl & ->).
  eexists tbl, _, _. split_and!; [done..| |].
  - intros s t d Hin. apply max_list_elem_of_le, list_elem_of_fmap.
    by exists (s, t, d).
  - destruct tbl as [|row tbl'] eqn:Heq.
    + left. split; [|done]. destruct g as [|[k ns] g']; [done|].
      destruct Htbl as [_ Htbl]. exfalso. eapply elem_of_nil, (Htbl k k 0).
      split; [left|]. split; [constructor|lia].
    + right. rewrite <-Heq.
      assert (max_list tbl.*2 ∈ tbl.*2) as Hmax
        by (apply max_list_elem_of; by rewrite Heq).
      apply list_elem_of_fmap in Hmax as ([[s t] d] & Hd & Hin).
      exists s, t. cbn in Hd. by rewrite Hd.
Qed.

Lemma diameter_is_largest_distance_witness :
  Spec.wf path3 ∧
  ∃ tbl diameter avg,
    Spec.distance_table path3 tbl
    ∧ diameter_and_avg_path_length path3 = Ok (diameter, avg)
    ∧ (∀ s t d, (s, t, d) ∈ tbl → d ≤ diameter)
    ∧ (path3 = [] ∧ diameter = 0 ∨ ∃ s t, (s, t, diameter) ∈ tbl).
Proof.
  split; [apply wf_from_edges|].
  apply (diameter_is_largest_distance path3), wf_from_edges.
Defined.

(** X7: a run of [robustness_by_attack] that asks for fewer removals
    than the graph has nodes, with a cadence that is not zero, completes:
    each of the three series gets one entry per iteration whose index the
    cadence divides, the file at the history path holds exactly the three
    series, one per line, the graph left over has that many nodes fewer,
    and the caller's graph is as it was. *)
Theorem attack_run_completes {Rng} (str : Py.float → string) (path : string)
    (s : Store Rng) (src : ref) (g : nx.Graph)
    (nodes_to_remove measure_frequency : Z) :
  heap s !! src = Some g → Spec.wf g →
  (nodes_to_remove < Z.of_nat (nx.order g))%Z → measure_frequency ≠ 0%Z →
  ∃ fr s1 s' gk,
    attack_loop src nodes_to_remove measure_frequency s = ((fr, s1), Ok ())
    ∧ robustness_by_attack str path src nodes_to_remove measure_frequency s
      = (s', Ok ())
    ∧ length (diameters_history fr)
      = length (sampled_iterations nodes_to_remove measure_frequency)
    ∧ length (path_len_history fr) = length (diameters_history fr)
    ∧ length (ga_fraction_history fr) = length (diameters_history fr)
    ∧ files s'
      = <[path := line str (diameters_history fr)
                  +:+ line str (path_len_history fr)
                  +:+ line str (ga_fraction_history fr)]> (files s)
    ∧ heap s' !! graph fr = Some gk
    ∧ after_removals attack_step (Z.to_nat nodes_to_remove) g gk
    ∧ nx.order gk + Z.to_nat nodes_to_remove = nx.order g
    ∧ heap s' !! src = Some g.
Proof.
  intros Hsrc Hwf Hn Hf.
  destruct (attack_loop_completes measure_frequency (Z.to_nat nodes_to_remove) 0
              (mkAttackFrame src [] [] []) s g)
    as (fr & s1 & gk & Hloop & Hgk & _ & Ho & Hrem & d & p & ga & Hh & Hd & Hp & Hga);
    [done|done|lia|done|].
  destruct (attack_loop_heap _ _ (mkAttackFrame src [] [] []) s g _ _ _ Hsrc Hloop)
    as ([tl Hpre] & Hfiles & _).
  unfold hists in Hh. cbn [diameters_history path_len_history ga_fraction_history app] in Hh.
  injection Hh as Hhd Hhp Hhga.
  eexists fr, s1, _, gk. unfold robustness_by_attack, attack_loop, range.
  rewrite Hloop, dump_history_attack, Hhd, Hhp, Hhga. cbn [heap files].
  split_and!; try done.
  - by rewrite Hfiles.
  - rewrite Hpre. by apply lookup_app_l_Some.
Qed.

Lemma attack_run_completes_witness :
  heap path3_store !! 0 = Some path3 ∧ Spec.wf path3 ∧
  (2 < Z.of_nat (nx.order path3))%Z ∧ 1%Z ≠ 0%Z ∧
  ∃ fr s1 s' gk,
    attack_loop 0 2 1 path3_store = ((fr, s1), Ok ())
    ∧ robustness_by_attack str_sample "attack_history" 0 2 1 path3_store
      = (s', Ok ())
    ∧ length (diameters_history fr) = length (sampled_iterations 2 1)
    ∧ length (path_len_history fr) = length (diameters_history fr)
    ∧ length (ga_fraction_history fr) = length (diameters_history fr)
    ∧ files s'
      = <["attack_history" := line str_sample (diameters_history fr)
                  +:+ line str_sample (path_len_history fr)
                  +:+ line str_sample (ga_fraction_history fr)]> (files path3_store)
    ∧ heap s' !! graph fr = Some gk
    ∧ after_removals attack_step (Z.to_nat 2) path3 gk
    ∧ nx.order gk + Z.to_nat 2 = nx.order path3
    ∧ heap s' !! 0 = Some path3.
Proof.
  split; [reflexivity|]. split; [apply wf_from_edges|]. split; [by vm_compute|].
  split; [done|].
  apply (attack_run_completes str_sample "attack_history" path3_store 0 path3 2 1);
    [reflexivity|apply wf_from_edges|by vm_compute|done].
Defined.

(** X8: with a cadence of zero a run of [robustness_by_attack] on a graph
    with a node ends in [ZeroDivisionError] at the first iteration, after
    the first removal, and writes no file. *)
Theorem attack_run_zero_cadence {Rng} (str : Py.float → string) (path : string)
    (s : Store Rng) (src : ref) (g : nx.Graph) (nodes_to_remove : Z) :
  heap s !! src = Some g → Spec.wf g → g ≠ [] → (1 ≤ nodes_to_remove)%Z →
  ∃ s',
    robustness_by_attack str path src nodes_to_remove 0 s
    = (s', Raise ZeroDivisionError)
    ∧ files s' = files s
    ∧ length (heap s') = S (length (heap s)).
Proof.
  intros Hsrc Hwf Hne Hn. unfold robustness_by_attack, attack_loop, range.
  destruct (Z.to_nat nodes_to_remove) as [|k] eqn:Hk; [lia|].
  cbn [seq fmap list_fmap]. rewrite for_each_cons.
  destruct (attack_body 0 (Z.of_nat 0) (mkAttackFrame src [] [] [], s))
    as [[fr1 s1] r1] eqn:Hbody.
  destruct (attack_body_cases 0 _ (mkAttackFrame src [] [] []) s g _ _ _ Hsrc Hbody)
    as (Hfiles & Hout & _).
  destruct (attack_body_heap 0 _ (mkAttackFrame src [] [] []) s g _ _ _ Hsrc Hbody)
    as (x & Hheap & _).
  destruct (attack_degree_value_Ok g Hwf Hne) as (n & _ & _ & Hval).
  assert (r1 = Raise ZeroDivisionError) as ->.
  { destruct Hout as [Hno _ _|g1 _ _ -> _|g1 m _ Hm _ _ _
                     |g1 _ Hm _ _ _|g1 d a _ Hm _ _ _ _|g1 d a q _ Hm _ _ _ _];
      try done. by destruct (Hno _ Hval). }
  exists s1. split_and!; [done..|]. rewrite Hheap, length_app. cbn. lia.
Qed.

Lemma attack_run_zero_cadence_witness :
  heap path3_store !! 0 = Some path3 ∧ Spec.wf path3 ∧ path3 ≠ [] ∧ (1 ≤ 2)%Z ∧
  ∃ s',
    robustness_by_attack str_sample "attack_history" 0 2 0 path3_store
    = (s', Raise ZeroDivisionError)
    ∧ files s' = files path3_store
    ∧ length (heap s') = S (length (heap path3_store)).
Proof.
  split; [reflexivity|]. split; [apply wf_from_edges|]. split; [done|].
  split; [lia|].
  apply (attack_run_zero_cadence str_sample "attack_history" path3_store 0 path3 2);
    [reflexivity|apply wf_from_edges|done|lia].
Defined.

(** X9: whatever its outcome, a run of [robustness_by_attack] keeps
    every graph object that existed before it (it only adds objects),
    leaves the random state alone and touches no file but the one at the
    history path. *)
Theorem attack_run_keeps_objects {Rng} (str : Py.float → string) (path : string)
    (s : Store Rng) (src : ref) (g : nx.Graph)
    (nodes_to_remove measure_frequency : Z) (s' : Store Rng) (r : result ()) :
  heap s !! src = Some g →
  robustness_by_attack str path src nodes_to_remove measure_frequency s = (s', r) →
  heap s `prefix_of` heap s' ∧ rng s' = rng s
  ∧ ∀ q, q ≠ path → files s' !! q = files s !! q.
Proof.
  intros Hsrc. unfold robustness_by_attack, attack_loop.
  destruct (for_each _ _ _) as [[fr s1] r1] eqn:Hloop.
  destruct (attack_loop_heap _ _ (mkAttackFrame src [] [] []) s g _ _ _ Hsrc Hloop)
    as (Hpre & Hfiles & Hrng).
  destruct r1 as [[]| |].
  - rewrite dump_history_attack. intros [= <- <-]. cbn [heap rng files].
    split_and!; [done..|]. intros q Hq. by rewrite lookup_insert_ne, Hfiles.
  - intros [= <- <-]. split_and!; [done..|]. intros q _. by rewrite Hfiles.
  - intros [= <- <-]. split_and!; [done..|]. intros q _. by rewrite Hfiles.
Qed.

Lemma attack_run_keeps_objects_witness :
  heap path3_store !! 0 = Some path3 ∧
  ∀ s' r,
    robustness_by_attack str_sample "attack_history" 0 2 1 path3_store = (s', r) →
    heap path3_store `prefix_of` heap s' ∧ rng s' = rng path3_store
    ∧ ∀ q, q ≠ "attack_history" → files s' !! q = files path3_store !! q.
Proof.
  split; [reflexivity|]. intros s' r.
  apply (attack_run_keeps_objects str_sample "attack_history" path3_store 0 path3 2 1).
  reflexivity.
Defined.

(** X10: with a random source that draws below its bound, a run of
    [robustness_by_fail] that asks for fewer removals than the graph has
    nodes, with a cadence that is not zero, completes: it records one
    series of fractions per run, all of the same length, an empty
    diameter and path series per run, keeps the caller's graph and touches
    no file but the one at the history path. *)
Theorem fail_runs_complete {Rng} (randbelow : Rng → nat → nat * Rng)
    (str : Py.float → string) (path : string) (s : Store Rng) (src : ref)
    (g : nx.Graph) (number_of_runs nodes_to_remove measure_frequency : Z) :
  (∀ r n, 0 < n → (randbelow r n).1 < n) →
  heap s !! src = Some g → Spec.wf g →
  (nodes_to_remove < Z.of_nat (nx.order g))%Z → measure_frequency ≠ 0%Z →
  ∃ fr s1 s',
    fail_loop randbelow src number_of_runs nodes_to_remove measure_frequency s
    = ((fr, s1), Ok ())
    ∧ robustness_by_fail randbelow str path src number_of_runs nodes_to_remove
        measure_frequency s = (s', Ok ())
    ∧ runs_diameters_history fr = replicate (Z.to_nat number_of_runs) []
    ∧ runs_path_len_history fr = replicate (Z.to_nat number_of_runs) []
    ∧ length (runs_ga_fraction_history fr) = Z.to_nat number_of_runs
    ∧ Forall (λ ga, length ga
                = length (sampled_iterations nodes_to_remove measure_frequency))
             (runs_ga_fraction_history fr)
    ∧ heap s' !! src = Some g
    ∧ ∀ q, q ≠ path → files s' !! q = files s !! q.
Proof.
  intros Hlt Hsrc Hwf Hn Hf.
  destruct (fail_loop_completes randbelow Hlt src nodes_to_remove measure_frequency
              (range number_of_runs) (mkFailFrame src [] [] [] [] [] []) s g)
    as (fr & s1 & gas & Hloop & [tl Hpre] & Hfiles & Hh & Hlen & Hall); [done..|].
  injection Hh as Hd Hp Hga. cbn [app runs_diameters_history runs_path_len_history
                                  runs_ga_fraction_history] in *.
  assert (length (range number_of_runs) = Z.to_nat number_of_runs) as Hruns.
  { unfold range. by rewrite length_fmap, length_seq. }
  rewrite Hruns in *.
  unfold robustness_by_fail, fail_loop. rewrite Hloop, dump_history_fail_runs.
  destruct (dump_runs str path (runs_ga_fraction_history fr)
              (length (runs_diameters_history fr)) 0 (open_w path s1).1)
    as (s' & Hs' & ->).
  rewrite decide_True.
  2:{ right. rewrite Hd, Hga, length_replicate. lia. }
  pose proof (only_file_changed_trans path _ _ _ (open_w_only_file path s1) Hs')
    as (Hheap & _ & Hother).
  exists fr, s1, s'. split_and!; try done.
  - by rewrite Hga.
  - by rewrite Hga.
  - rewrite Hheap, Hpre. by apply lookup_app_l_Some.
  - intros q Hq. by rewrite Hother, Hfiles.
Qed.

Lemma fail_runs_complete_witness :
  (∀ r n, 0 < n → (counter_randbelow r n).1 < n) ∧
  heap path3_store !! 0 = Some path3 ∧ Spec.wf path3 ∧
  (2 < Z.of_nat (nx.order path3))%Z ∧ 1%Z ≠ 0%Z ∧
  ∃ fr s1 s',
    fail_loop counter_randbelow 0 3 2 1 path3_store = ((fr, s1), Ok ())
    ∧ robustness_by_fail counter_randbelow str_sample "fail_history" 0 3 2 1
        path3_store = (s', Ok ())
    ∧ runs_diameters_history fr = replicate (Z.to_nat 3) []
    ∧ runs_path_len_history fr = replicate (Z.to_nat 3) []
    ∧ length (runs_ga_fraction_history fr) = Z.to_nat 3
    ∧ Forall (λ ga, length ga = length (sampled_iterations 2 1))
             (runs_ga_fraction_history fr)
    ∧ heap s' !! 0 = Some path3
    ∧ ∀ q, q ≠ "fail_history" → files s' !! q = files path3_store !! q.
Proof.
  split; [exact counter_randbelow_lt|]. split; [reflexivity|].
  split; [apply wf_from_edges|]. split; [by vm_compute|]. split; [done|].
  apply (fail_runs_complete counter_randbelow str_sample "fail_history"
           path3_store 0 path3 3 2 1);
    [exact counter_randbelow_lt|reflexivity|apply wf_from_edges|by vm_compute|done].
Defined.

(** X11: in attack mode [dump_history] leaves a file of exactly three
    lines, the diameters, the path lengths and the fractions in this
    order; each line, split at white space and parsed, gives back its own
    series; no other file and no graph object changes. *)
Theorem attack_history_three_lines {Rng} (str : Py.float → string)
    (float : string → result Py.float) (path : string) (s : Store Rng)
    (diameters paths ga_fractions : list Py.float) :
  printable str float diameters → printable str float paths →
  printable str float ga_fractions →
  ∃ s' content,
    dump_history str path false diameters paths ga_fractions s = (s', Ok ())
    ∧ only_file_changed path s s'
    ∧ files s' !! path = Some content
    ∧ Text.lines content
      = [line str diameters; line str paths; line str ga_fractions]
    ∧ comprehension float (Text.split (line str diameters)) = Ok diameters
    ∧ comprehension float (Text.split (line str paths)) = Ok paths
    ∧ comprehension float (Text.split (line str ga_fractions)) = Ok ga_fractions.
Proof.
  intros Hd Hp Hga. eexists _, _. split; [apply dump_history_attack|].
  cbn [files]. split_and!.
  - split_and!; [done..|]. intros q Hq. cbn [files]. by rewrite lookup_insert_ne.
  - apply lookup_insert_eq.
  - rewrite lines_no_cr
      by (apply no_cr_app; [|apply no_cr_app]; by eapply no_cr_line).
    rewrite <-(append_nil_r (line str ga_fractions)), <-!append_assoc.
    unfold line at 1 2 3. rewrite !append_assoc.
    rewrite <-(append_assoc (join_values str diameters) Text.nl).
    rewrite lines_go_line by by eapply no_newline_line_body.
    rewrite <-(append_assoc (join_values str paths) Text.nl).
    rewrite lines_go_line by by eapply no_newline_line_body.
    rewrite <-(append_assoc (join_values str ga_fractions) Text.nl).
    rewrite lines_go_line by by eapply no_newline_line_body.
    by rewrite append_nil_r.
  - by apply read_line.
  - by apply read_line.
  - by apply read_line.
Qed.

Lemma attack_history_three_lines_witness :
  printable str_sample float_sample [Py.Finite 2; Py.Finite (1 # 2)] ∧
  printable str_sample float_sample [] ∧
  printable str_sample float_sample [Py.Finite 2; Py.Finite (1 # 2)] ∧
  ∃ s' content,
    dump_history str_sample "attack_history" false
      [Py.Finite 2; Py.Finite (1 # 2)] [] [Py.Finite 2; Py.Finite (1 # 2)] path3_store = (s', Ok ())
    ∧ only_file_changed "attack_history" path3_store s'
    ∧ files s' !! "attack_history" = Some content
    ∧ Text.lines content
      = [line str_sample [Py.Finite 2; Py.Finite (1 # 2)]; line str_sample [];
         line str_sample [Py.Finite 2; Py.Finite (1 # 2)]]
    ∧ comprehension float_sample (Text.split (line str_sample [Py.Finite 2; Py.Finite (1 # 2)]))
      = Ok [Py.Finite 2; Py.Finite (1 # 2)]
    ∧ comprehension float_sample (Text.split (line str_sample [])) = Ok []
    ∧ comprehension float_sample (Text.split (line str_sample [Py.Finite 2; Py.Finite (1 # 2)]))
      = Ok [Py.Finite 2; Py.Finite (1 # 2)].
Proof.
  split; [exact printable_sample|]. split; [constructor|].
  split; [exact printable_sample|].
  apply (attack_history_three_lines str_sample float_sample "attack_history"
           path3_store [Py.Finite 2; Py.Finite (1 # 2)] [] [Py.Finite 2; Py.Finite (1 # 2)]);
    [exact printable_sample|constructor|exact printable_sample].
Defined.

(** X12: in fail mode, when there are at least as many fraction series
    as diameter series, [dump_history] writes two lines per run, the
    number of the run and the fractions of the run, for as many runs as
    there are diameter series; no other file and no graph object
    changes. *)
Theorem fail_history_file_lines {Rng} (str : Py.float → string) (path : string)
    (s : Store Rng) (diameters paths ga_fractions : list (list Py.float)) :
  (∀ v, no_space (str v)) →
  length diameters ≤ length ga_fractions →
  ∃ s' content,
    dump_history str path true diameters paths ga_fractions s = (s', Ok ())
    ∧ only_file_changed path s s'
    ∧ files s' !! path = Some content
    ∧ Text.lines content
      = fail_lines str 0 (take (length diameters) ga_fractions)
    ∧ length (Text.lines content) = 2 * length diameters.
Proof.
  intros Hstr Hlen. eexists _, _. split; [by apply dump_history_fail_text|].
  cbn [files].
  assert (Text.lines (fail_text str 0 (take (length diameters) ga_fractions))
          = fail_lines str 0 (take (length diameters) ga_fractions)) as Hlines.
  { rewrite lines_no_cr
      by (apply no_cr_fail_text, Forall_forall; intros ga _;
          by apply no_cr_join_values).
    rewrite <-(append_nil_r (fail_text _ _ _)).
    rewrite lines_fail_text; [by rewrite app_nil_r|].
    apply Forall_forall. intros ga _. apply no_newline_join_values.
    intros v. apply no_space_no_newline, Hstr. }
  split_and!.
  - split_and!; [done..|]. intros q Hq. cbn [files]. by rewrite lookup_insert_ne.
  - apply lookup_insert_eq.
  - done.
  - rewrite Hlines, length_fail_lines, length_take. lia.
Qed.

Lemma fail_history_file_lines_witness :
  (∀ v, no_space (str_sample v)) ∧
  length [[]; [] : list Py.float] ≤ length [[Py.Finite 2; Py.Finite (1 # 2)]; [Py.Finite 2]] ∧
  ∃ s' content,
    dump_history str_sample "fail_history" true
      [[]; []] [[]; []] [[Py.Finite 2; Py.Finite (1 # 2)]; [Py.Finite 2]] path3_store = (s', Ok ())
    ∧ only_file_changed "fail_history" path3_store s'
    ∧ files s' !! "fail_history" = Some content
    ∧ Text.lines content
      = fail_lines str_sample 0
          (take (length [[]; [] : list Py.float]) [[Py.Finite 2; Py.Finite (1 # 2)]; [Py.Finite 2]])
    ∧ length (Text.lines content) = 2 * length [[]; [] : list Py.float].
Proof.
  split; [exact str_sample_no_space|]. split; [cbn; lia|].
  apply (fail_history_file_lines str_sample "fail_history" path3_store
           [[]; []] [[]; []] [[Py.Finite 2; Py.Finite (1 # 2)]; [Py.Finite 2]]);
    [exact str_sample_no_space|cbn; lia].
Defined.

(** X13: in fail mode [dump_history] counts the runs by the diameter
    series and indexes the fraction series with them: with fewer fraction
    series than diameter series it raises [IndexError], having touched
    only the file at its path. *)
Theorem fail_history_short_fractions {Rng} (str : Py.float → string)
    (path : string) (s : Store Rng)
    (diameters paths ga_fractions : list (list Py.float)) :
  length ga_fractions < length diameters →
  ∃ s',
    dump_history str path true diameters paths ga_fractions s
    = (s', Raise IndexError)
    ∧ only_file_changed path s s'.
Proof.
  intros Hlen. rewrite dump_history_fail_runs.
  destruct (dump_runs str path ga_fractions (length diameters) 0 (open_w path s).1)
    as (s' & Hs' & ->).
  rewrite decide_False by lia. exists s'. split; [done|].
  by eapply only_file_changed_trans; [apply open_w_only_file|].
Qed.

Lemma fail_history_short_fractions_witness :
  length [[Py.Finite 2]] < length [[]; [] : list Py.float] ∧
  ∃ s',
    dump_history str_sample "fail_history" true [[]; []] [[]; []] [[Py.Finite 2]]
      path3_store = (s', Raise IndexError)
    ∧ only_file_changed "fail_history" path3_store s'.
Proof.
  split; [cbn; lia|].
  apply (fail_history_short_fractions str_sample "fail_history" path3_store
           [[]; []] [[]; []] [[Py.Finite 2]]).
  cbn; lia.
Defined.

(** X14: [normalized_robustness] on every input: an empty series gives
    an empty series (no [IndexError]: [data[0]] is never evaluated), a
    series that starts with zero raises [ZeroDivisionError], and every
    other series is divided, element by element, by its first element. *)
Theorem normalized_robustness_outcome (data : list Py.float) :
  normalized_robustness data
  = match data with
    | [] => Ok []
    | first :: _ =>
        if Py.is_zero first then Raise ZeroDivisionError
        else Ok ((λ value, Py.quotient value first) <$> data)
    end.
Proof. apply normalized_robustness_eq. Qed.

(** X15: on a series whose first element is finite, normalising twice
    is normalising once: the series [normalized_robustness] returns is
    returned unchanged when it is normalised again.  A series that starts
    with an infinity loses more the second time: [inf, 1.0] gives
    [nan, 0.0], and that gives [nan, nan]. *)
Theorem normalized_robustness_idempotent (data out : list Py.float) :
  (∀ x, head data = Some x → ∃ q, x = Py.Finite q) →
  normalized_robustness data = Ok out →
  normalized_robustness out = Ok out
  ∧ normalized_robustness [Py.Inf false; Py.Finite 1] = Ok [Py.NaN; Py.Finite 0]
  ∧ normalized_robustness [Py.NaN; Py.Finite 0] = Ok [Py.NaN; Py.NaN].
Proof.
  intros Hfin H. split; [|by split]. rewrite normalized_robustness_eq in H.
  destruct data as [|x xs]; [by injection H as <-|].
  destruct (Hfin x eq_refl) as [q ->].
  destruct (Py.is_zero (Py.Finite q)) eqn:Hq; [done|]. injection H as <-.
  rewrite normalized_robustness_eq. cbn [fmap list_fmap].
  assert (Qred (q / q) = 1%Q) as ->
    by (by injection (quotient_self_finite q Hq)).
  change (Py.is_zero (Py.Finite 1)) with false. cbv iota. apply (f_equal Ok).
  cbn [fmap list_fmap]. f_equal.
  transitivity ((λ v, Py.quotient v (Py.Finite 1)) ∘ (λ v, Py.quotient v (Py.Finite q))
                <$> xs);
    [symmetry; apply (list_fmap_compose (λ v, Py.quotient v (Py.Finite q)))|].
  apply list_fmap_ext. intros _ v _. cbn. by apply quotient_quotient_1.
Qed.

Lemma normalized_robustness_idempotent_witness :
  (∀ x, head [Py.Finite 4; Py.Finite 2; Py.Inf true] = Some x → ∃ q, x = Py.Finite q) ∧
  normalized_robustness [Py.Finite 4; Py.Finite 2; Py.Inf true]
  = Ok [Py.Finite 1; Py.Finite (1 # 2); Py.Inf true] ∧
  normalized_robustness [Py.Finite 1; Py.Finite (1 # 2); Py.Inf true]
  = Ok [Py.Finite 1; Py.Finite (1 # 2); Py.Inf true]
  ∧ normalized_robustness [Py.Inf false; Py.Finite 1] = Ok [Py.NaN; Py.Finite 0]
  ∧ normalized_robustness [Py.NaN; Py.Finite 0] = Ok [Py.NaN; Py.NaN].
Proof.
  assert (∀ x, head [Py.Finite 4; Py.Finite 2; Py.Inf true] = Some x
               → ∃ q, x = Py.Finite q) as Hfin by (intros x [= <-]; by eexists).
  split; [exact Hfin|]. split; [by vm_compute|].
  apply (normalized_robustness_idempotent [Py.Finite 4; Py.Finite 2; Py.Inf true]
           [Py.Finite 1; Py.Finite (1 # 2); Py.Inf true]); [exact Hfin|by vm_compute].
Defined.

(** X16: when [plot_robustness] gets as far as plotting, it has
    changed nothing, the attack series is empty or starts with 1.0 or with
    nan, and there are exactly five fail series, each starting with 1.0 or
    with nan (nan when the series read starts with an infinity or with
    nan). *)
Theorem plot_robustness_series {Rng} (float : string → result Py.float)
    (attack_path fail_path : string) (s s' : Store Rng)
    (attack_history : list Py.float) (fail_history : list (list Py.float)) :
  plot_robustness float attack_path fail_path s
  = (s', Ok (attack_history, fail_history)) →
  s' = s
  ∧ (attack_history = [] ∨ head attack_history = Some (Py.Finite 1)
     ∨ head attack_history = Some Py.NaN)
  ∧ length fail_history = 5
  ∧ Forall (λ run, head run = Some (Py.Finite 1) ∨ head run = Some Py.NaN)
           fail_history.
Proof.
  unfold plot_robustness, read_attack_history, open_r.
  cbv [mbind M_bind lift mret M_ret].
  destruct (files s !! attack_path) as [content|]; [|done].
  destruct (comprehension float _) as [vals| |]; [|done..].
  destruct (normalized_robustness vals) as [vals'| |] eqn:Hnorm; [|done..].
  destruct (files s !! fail_path) as [content'|]; [|done].
  destruct (read_fail_runs float 5 _) as [runs| |] eqn:Hruns; [|done..].
  intros [= <- <- <-]. apply read_fail_runs_shape in Hruns as [Hlen Hall].
  apply normalized_robustness_head in Hnorm as [Hlen' Hhead].
  split_and!; [done| |done..].
  destruct vals as [|v vals]; [left; by destruct vals'|right; by apply Hhead].
Qed.

Lemma plot_robustness_series_witness :
  plot_robustness float_sample "attack_history" "fail_history" history_store
  = (history_store,
     Ok ([Py.Finite 1; Py.Finite (1 # 4)],
         replicate 5 [Py.Finite 1; Py.Finite (1 # 4)]))
  ∧ history_store = history_store
  ∧ ([Py.Finite 1; Py.Finite (1 # 4)] = []
     ∨ head [Py.Finite 1; Py.Finite (1 # 4)] = Some (Py.Finite 1)
     ∨ head [Py.Finite 1; Py.Finite (1 # 4)] = Some Py.NaN)
  ∧ length (replicate 5 [Py.Finite 1; Py.Finite (1 # 4)]) = 5
  ∧ Forall (λ run, head run = Some (Py.Finite 1) ∨ head run = Some Py.NaN)
           (replicate 5 [Py.Finite 1; Py.Finite (1 # 4)]).
Proof.
  assert (plot_robustness float_sample "attack_history" "fail_history" history_store
          = (history_store,
             Ok ([Py.Finite 1; Py.Finite (1 # 4)],
                 replicate 5 [Py.Finite 1; Py.Finite (1 # 4)]))) as Hrun
    by (by vm_compute).
  split; [exact Hrun|].
  exact (plot_robustness_series float_sample "attack_history" "fail_history"
           history_store history_store [Py.Finite 1; Py.Finite (1 # 4)]
           (replicate 5 [Py.Finite 1; Py.Finite (1 # 4)]) Hrun).
Defined.

(** X17: the reader expects five runs whatever was written: after a
    [robustness_by_fail] of fewer than five runs that completed,
    [plot_robustness] on the file it wrote cannot succeed, whatever the
    attack file holds. *)
Theorem plot_after_fewer_than_five_runs {Rng} (randbelow : Rng → nat → nat * Rng)
    (str : Py.float → string) (float : string → result Py.float)
    (attack_path fail_path : string) (s s' : Store Rng) (src : ref) (g : nx.Graph)
    (number_of_runs nodes_to_remove measure_frequency : Z) :
  (∀ v, no_space (str v)) →
  heap s !! src = Some g →
  (number_of_runs < 5)%Z →
  robustness_by_fail randbelow str fail_path src number_of_runs nodes_to_remove
    measure_frequency s = (s', Ok ()) →
  ∀ s'' out, plot_robustness float attack_path fail_path s' ≠ (s'', Ok out).
Proof.
  intros Hstr Hsrc Hruns. unfold robustness_by_fail, fail_loop.
  destruct (for_each _ _ _) as [[fr s1] r1] eqn:Hloop.
  destruct r1 as [[]| |]; [|done..].
  apply (fail_loop_lengths randbelow _ _ _ _ _ _ g) in Hloop as [Hd Hga]; [|done].
  cbn [runs_diameters_history runs_ga_fraction_history length] in Hd, Hga.
  assert (length (range number_of_runs) = Z.to_nat number_of_runs) as Hlen.
  { unfold range. by rewrite length_fmap, length_seq. }
  rewrite dump_history_fail_text by lia. intros [= <-] s'' out.
  unfold plot_robustness, read_attack_history, open_r.
  cbv [mbind M_bind lift mret M_ret]. cbn [files].
  destruct (_ !! attack_path) as [content|]; [|done].
  destruct (comprehension float _) as [vals| |]; [|done..].
  destruct (normalized_robustness vals) as [vals'| |]; [|done..].
  cbn [files]. rewrite lookup_insert_eq.
  destruct (read_fail_runs float 5 _) as [runs| |] eqn:Hread; [|done..].
  exfalso. eapply (read_fail_runs_short float); [|exact Hread].
  rewrite lines_no_cr
    by (apply no_cr_fail_text, Forall_forall; intros ga _;
        by apply no_cr_join_values).
  rewrite <-(append_nil_r (fail_text _ _ _)), lines_fail_text.
  - cbn [Text.lines_go]. rewrite app_nil_r, length_fail_lines, length_take. lia.
  - apply Forall_forall. intros ga _. apply no_newline_join_values.
    intros v. apply no_space_no_newline, Hstr.
Qed.

Lemma plot_after_fewer_than_five_runs_witness :
  (∀ v, no_space (str_sample v)) ∧
  heap path3_store !! 0 = Some path3 ∧
  (3 < 5)%Z ∧
  robustness_by_fail counter_randbelow str_sample "fail_history" 0 3 2 1 path3_store
  = ((robustness_by_fail counter_randbelow str_sample "fail_history" 0 3 2 1
        path3_store).1, Ok ()) ∧
  ∀ s'' out,
    plot_robustness float_sample "attack_history" "fail_history"
      (robustness_by_fail counter_randbelow str_sample "fail_history" 0 3 2 1
         path3_store).1 ≠ (s'', Ok out).
Proof.
  assert (robustness_by_fail counter_randbelow str_sample "fail_history" 0 3 2 1
            path3_store
          = ((robustness_by_fail counter_randbelow str_sample "fail_history" 0 3 2 1
                path3_store).1, Ok ())) as Hrun by (by vm_compute).
  split; [exact str_sample_no_space|]. split; [reflexivity|]. split; [lia|].
  split; [exact Hrun|].
  exact (plot_after_fewer_than_five_runs counter_randbelow str_sample float_sample
           "attack_history" "fail_history" path3_store _ 0 path3 3 2 1
           str_sample_no_space eq_refl eq_refl Hrun).
Defined.

(** X18: round trip in fail mode: after [dump_history] has written at
    least five runs whose first five fraction series are not empty and
    print as numbers that parse back, the fail-file reader of
    [plot_robustness] returns these five series, each normalised, or the
    exception the first failing normalisation raises. *)
Theorem fail_history_read_back {Rng} (str : Py.float → string)
    (float : string → result Py.float) (path : string) (s : Store Rng)
    (diameters paths ga_fractions : list (list Py.float)) :
  5 ≤ length diameters → length diameters ≤ length ga_fractions →
  Forall (λ run, run ≠ [] ∧ printable str float run) (take 5 ga_fractions) →
  ∃ s' content,
    dump_history str path true diameters paths ga_fractions s = (s', Ok ())
    ∧ open_r path s' = (s', Ok content)
    ∧ read_fail_runs float 5 (Text.lines content)
      = comprehension normalized_robustness (take 5 ga_fractions).
Proof.
  intros H5 Hlen Hruns. eexists _, _.
  split; [by apply dump_history_fail_text|].
  unfold open_r. cbn [files]. rewrite lookup_insert_eq. split; [done|].
  assert (take (length diameters) ga_fractions
          = take 5 ga_fractions ++ drop 5 (take (length diameters) ga_fractions))
    as ->.
  { rewrite <-(take_drop 5 (take (length diameters) ga_fractions)) at 1.
    f_equal. rewrite take_take. f_equal. lia. }
  rewrite fail_text_app, lines_app.
  2:{ apply no_cr_fail_text. eapply Forall_impl; [exact Hruns|].
      intros run [_ Hrun]. apply no_cr_join, Forall_fmap.
      eapply Forall_impl; [exact Hrun|]. by intros v [_ [_ ?]]. }
  rewrite lines_fail_text.
  2:{ eapply Forall_impl; [exact Hruns|]. intros run [_ Hrun].
      by eapply no_newline_line_body. }
  rewrite read_fail_lines.
  - by rewrite take_take, Nat.min_id.
  - rewrite length_take. lia.
  - by rewrite take_take, Nat.min_id.
Qed.

Lemma fail_history_read_back_witness :
  5 ≤ length (replicate 5 ([] : list Py.float)) ∧
  length (replicate 5 ([] : list Py.float)) ≤ length (replicate 5 [Py.Finite 2; Py.Finite (1 # 2)]) ∧
  Forall (λ run, run ≠ [] ∧ printable str_sample float_sample run)
         (take 5 (replicate 5 [Py.Finite 2; Py.Finite (1 # 2)])) ∧
  ∃ s' content,
    dump_history str_sample "fail_history" true (replicate 5 []) (replicate 5 [])
      (replicate 5 [Py.Finite 2; Py.Finite (1 # 2)]) path3_store = (s', Ok ())
    ∧ open_r "fail_history" s' = (s', Ok content)
    ∧ read_fail_runs float_sample 5 (Text.lines content)
      = comprehension normalized_robustness (take 5 (replicate 5 [Py.Finite 2; Py.Finite (1 # 2)])).
Proof.
  assert (Forall (λ run, run ≠ [] ∧ printable str_sample float_sample run)
                 (take 5 (replicate 5 [Py.Finite 2; Py.Finite (1 # 2)]))) as Hruns.
  { cbn [replicate take]. repeat (constructor; [split; [done|exact printable_sample]|]).
    constructor. }
  split; [cbn; lia|]. split; [cbn; lia|]. split; [exact Hruns|].
  apply (fail_history_read_back str_sample float_sample "fail_history" path3_store
           (replicate 5 []) (replicate 5 []) (replicate 5 [Py.Finite 2; Py.Finite (1 # 2)]));
    [cbn; lia|cbn; lia|exact Hruns].
Defined.
